(** * micrograd: the scalar autograd engine and its neural-network units

    A shallow embedding of [micrograd/engine.py] (class [Value]) and
    [micrograd/nn.py] (classes [Module], [Neuron], [Layer], [MLP]).

    - Python objects live in a heap; an object's identity is its position
      in allocation order, so an operand always has a smaller identity
      than every node built from it.
    - Python numbers are taken through the interface [Arith]: the floats
      of the source (and the integer literals mixed with them; [0] and
      [0.0], [1] and [1.0] are the same number) with [+], [-], [*], [/],
      [**] and [math.exp].  Of these [/], [**] and [math.exp] can raise
      ([ZeroDivisionError], [OverflowError]), and [**] can leave the
      floats for the complex numbers; the interface says when, and the
      operations and the closures that use them fail accordingly.  Every
      general theorem holds for every interpretation of that interface;
      closed numeric facts are stated in the real numbers and in IEEE
      binary64.
    - A Python [set] of nodes is a duplicate-free list in iteration order;
      the order of a two-element set is left to an oracle [ord], and the
      theorems hold for every oracle. *)

From Stdlib Require Import Reals Lra Floats.
From stdpp Require Import base list gmap strings.

(** ** Exceptions *)

(** Python exceptions the modelled code can raise. *)
Inductive exn :=
  | AssertionError      (* a failed [assert] *)
  | RecursionError      (* the traversal nests deeper than the interpreter allows *)
  | ZeroDivisionError   (* [x / 0.0], [0.0 ** y] with a negative [y] *)
  | OverflowError       (* [math.exp(x)] or [x ** y] too large for a float *)
  | ValueError.         (* a [math] function outside its domain *)

(** How an expression can end without a float: an exception is raised,
    or [x ** y] is a complex number (a negative [x] with a fractional
    [y]).  Python goes on with the complex number; this model, whose
    numbers are floats, stops there. *)
Inductive failure :=
  | Raises (e : exn)
  | Complex.

Inductive result (A : Type) :=
  | Ok (a : A)
  | Fail (f : failure).
Arguments Ok {A} a.
Arguments Fail {A} f.

Abbreviation Raise e := (Fail (Raises e)).

(** ** Numbers *)

Class Arith (num : Type) := {
  lit : Z → num;             (* a numeric literal: 0, 1, 2, -1, 1.0, ... *)
  nadd : num → num → num;    (* x + y *)
  nsub : num → num → num;    (* x - y *)
  nmul : num → num → num;    (* x * y *)
  ndiv : num → num → num;    (* x / y, when it does not raise *)
  nneg : num → num;          (* -x *)
  npow : num → num → num;    (* x ** y, when it is a float *)
  nexp : num → num;          (* math.exp(x), when it does not raise *)
  div_raises : num → num → option exn;     (* what [x / y] raises, if anything *)
  pow_fails : num → num → option failure;  (* how [x ** y] fails, if it does *)
  exp_raises : num → option exn            (* what [math.exp(x)] raises, if anything *)
}.

Declare Scope num_scope.
Delimit Scope num_scope with num.
Infix "+" := nadd : num_scope.
Infix "-" := nsub : num_scope.
Infix "*" := nmul : num_scope.
Infix "/" := ndiv : num_scope.
Infix "**" := npow (at level 30, right associativity) : num_scope.

(** Object identity. *)
Abbreviation id := nat.

(** Iteration order of the set built from two distinct objects:
    [ord a b = true] when [a] comes first. *)
Class SetOrder := ord : id → id → bool.

Section Engine.
Context {num : Type} `{Arith num}.
Context `{SetOrder}.

Local Open Scope num_scope.

(** ** The data model *)

(** [_op]: the strings [''], ['+'], ['*'], [f'**{other}'], ['exp'], ['tanh']. *)
Inductive Op :=
  | Op_none
  | Op_add
  | Op_mul
  | Op_pow (other : num)
  | Op_exp
  | Op_tanh.

(** [_backward]: the closures the operations bind, with the objects and
    locals they capture.  [Noop] is [lambda: None]. *)
Inductive Closure :=
  | Noop
  | AddBw (self other out : id)
  | MulBw (self other out : id)
  | PowBw (self : id) (other : num) (out : id)
  | ExpBw (self out : id)
  | TanhBw (self : id) (t : num) (out : id).

Record Value := mkValue {
  data : num;
  grad : num;
  _backward : Closure;
  _prev : list id;
  _op : Op;
  label : string
}.

Abbreviation Heap := (list Value).

(** Attribute reads; the default is never reached for a live object. *)
Definition dflt : Value := mkValue (lit 0) (lit 0) Noop [] Op_none "".
Definition obj (σ : Heap) (i : id) : Value := default dflt (σ !! i).

(** Attribute writes [v.grad = g] and [v._backward = c]. *)
Definition with_grad (g : num) (v : Value) : Value :=
  mkValue (data v) g (_backward v) (_prev v) (_op v) (label v).
Definition with_backward (c : Closure) (v : Value) : Value :=
  mkValue (data v) (grad v) c (_prev v) (_op v) (label v).

Definition set_grad (i : id) (g : num) (σ : Heap) : Heap := alter (with_grad g) i σ.
Definition set_backward (i : id) (c : Closure) (σ : Heap) : Heap :=
  alter (with_backward c) i σ.

(** [set(t)] for a tuple [t] of nodes. *)
Definition py_set (t : list id) : list id :=
  match t with
  | [a; b] => if decide (a = b) then [a] else if ord a b then [a; b] else [b; a]
  | _ => remove_dups t
  end.

(** ** Heap-passing computations that may fail *)

Definition M (A : Type) : Type := Heap → result A * Heap.

#[global] Instance M_ret : MRet M := λ A a σ, (Ok a, σ).
#[global] Instance M_bind : MBind M := λ A B f m σ,
  match m σ with
  | (Ok a, σ') => f a σ'
  | (Fail e, σ') => (Fail e, σ')
  end.

Definition fail {A} (f : failure) : M A := λ σ, (Fail f, σ).
Definition raise {A} (e : exn) : M A := fail (Raises e).
Definition get : M Heap := λ σ, (Ok σ, σ).
Definition modify (f : Heap → Heap) : M unit := λ σ, (Ok (), f σ).

(** [x / y], [x ** y] and [math.exp(x)] on numbers. *)
Definition py_div (x y : num) : M num :=
  match div_raises x y with
  | Some e => raise e
  | None => mret (x / y)
  end.
Definition py_pow (x y : num) : M num :=
  match pow_fails x y with
  | Some f => fail f
  | None => mret (x ** y)
  end.
Definition math_exp (x : num) : M num :=
  match exp_raises x with
  | Some e => raise e
  | None => mret (nexp x)
  end.

(** [Value.__init__]: a fresh object with [grad = 0.0] and the no-op
    [_backward]; returns its identity. *)
Definition Value_init (d : num) (_childern : list id) (op : Op) : M id := λ σ,
  (Ok (length σ), σ ++ [mkValue d (lit 0) Noop (py_set _childern) op ""]).

(** ** Forward operations *)

(** The right-hand operand of [+] and [*]: a node or a raw number. *)
Inductive Operand :=
  | ONode (i : id)
  | ONum (x : num).

(** [other if isinstance(other, Value) else Value(other)] *)
Definition coerce (other : Operand) : M id :=
  match other with
  | ONode i => mret i
  | ONum x => Value_init x [] Op_none
  end.

Definition __add__ (self : id) (other : Operand) : M id :=
  other ← coerce other;
  σ ← get;
  out ← Value_init (data (obj σ self) + data (obj σ other)) [self; other] Op_add;
  modify (set_backward out (AddBw self other out));;
  mret out.

Definition __mul__ (self : id) (other : Operand) : M id :=
  other ← coerce other;
  σ ← get;
  out ← Value_init (data (obj σ self) * data (obj σ other)) [self; other] Op_mul;
  modify (set_backward out (MulBw self other out));;
  mret out.

Definition __neg__ (self : id) : M id := __mul__ self (ONum (lit (-1))).

(** [self + (-other)]: [-other] is [other.__neg__()] for a node and the
    negated number otherwise. *)
Definition __sub__ (self : id) (other : Operand) : M id :=
  match other with
  | ONode o => n ← __neg__ o; __add__ self (ONode n)
  | ONum x => __add__ self (ONum (nneg x))
  end.

Definition __rmul__ (self : id) (other : Operand) : M id := __mul__ self other.
Definition __radd__ (self : id) (other : Operand) : M id := __add__ self other.

(** The argument of [**]: a number (int or float), a [Value], or any
    other object. *)
Inductive PyObj :=
  | PyNum (x : num)
  | PyValue (i : id)
  | PyOther.

Definition __pow__ (self : id) (other : PyObj) : M id :=
  match other with
  | PyNum p =>
      σ ← get;
      d ← py_pow (data (obj σ self)) p;
      out ← Value_init d [self] (Op_pow p);
      modify (set_backward out (PowBw self p out));;
      mret out
  | _ => raise AssertionError
  end.

(** [self * other**-1]: for a node [other ** -1] is [other.__pow__(-1)],
    for a number it is the power of numbers. *)
Definition __truediv__ (self : id) (other : Operand) : M id :=
  match other with
  | ONode o => r ← __pow__ o (PyNum (lit (-1))); __mul__ self (ONode r)
  | ONum x => y ← py_pow x (lit (-1)); __mul__ self (ONum y)
  end.

Definition exp (self : id) : M id :=
  σ ← get;
  let x := data (obj σ self) in
  e ← math_exp x;
  out ← Value_init e [self] Op_exp;
  modify (set_backward out (ExpBw self out));;
  mret out.

(** [t = (math.exp(2*n) - 1) / (math.exp(2*n) + 1)] *)
Definition tanh (self : id) : M id :=
  σ ← get;
  let n := data (obj σ self) in
  e ← math_exp (lit 2 * n);
  e' ← math_exp (lit 2 * n);
  t ← py_div (e - lit 1) (e' + lit 1);
  out ← Value_init t [self] Op_tanh;
  modify (set_backward out (TanhBw self t out));;
  mret out.

(** ** Backward propagation *)

(** [x.grad += c] *)
Definition bump (x : id) (c : num) (σ : Heap) : Heap :=
  set_grad x (grad (obj σ x) + c) σ.

(** Calling a node's [_backward] closure. *)
Definition call_backward (c : Closure) : M unit :=
  match c with
  | Noop => mret ()
  | AddBw self other out =>
      σ ← get;
      modify (bump self (lit 1 * grad (obj σ out)));;
      σ1 ← get;
      modify (bump other (lit 1 * grad (obj σ1 out)))
  | MulBw self other out =>
      σ ← get;
      modify (bump self (data (obj σ other) * grad (obj σ out)));;
      σ1 ← get;
      modify (bump other (data (obj σ1 self) * grad (obj σ1 out)))
  | PowBw self other out =>
      σ ← get;
      q ← py_pow (data (obj σ self)) (other - lit 1);
      modify (bump self ((other * q) * grad (obj σ out)))
  | ExpBw self out =>
      σ ← get;
      modify (bump self (data (obj σ out) * grad (obj σ out)))
  | TanhBw self t out =>
      σ ← get;
      q ← py_pow t (lit 2);
      modify (bump self ((lit 1 - q) * grad (obj σ out)))
  end.

(** [build_topo], on the locals [(visited, topo)].  [fuel] bounds the
    nesting of the recursion; [None] is the exhausted bound. *)
Fixpoint build_topo (σ : Heap) (fuel : nat) (v : id) (st : gset id * list id)
  : option (gset id * list id) :=
  match fuel with
  | O => None
  | S fuel' =>
      if decide (v ∈ st.1) then Some (st.1, st.2 ++ [v])
      else
        st' ← foldl (λ acc child, acc ≫= build_topo σ fuel' child)
                    (Some ({[v]} ∪ st.1, st.2)) (_prev (obj σ v));
        Some (st'.1, st'.2 ++ [v])
  end.

(** The ordered sequence [topo] that [backward] walks. *)
Definition topo_of (σ : Heap) (self : id) : option (list id) :=
  snd <$> build_topo σ (S (length σ)) self (∅, []).

(** [for node in nodes: node._backward()] *)
Fixpoint run_backward (nodes : list id) : M unit :=
  match nodes with
  | [] => mret ()
  | node :: nodes =>
      σ ← get;
      call_backward (_backward (obj σ node));;
      run_backward nodes
  end.

Definition backward (self : id) : M unit :=
  σ ← get;
  match topo_of σ self with
  | None => raise RecursionError
  | Some topo =>
      modify (set_grad self (lit 1));;
      run_backward (reverse topo)
  end.

(** ** nn.py *)

(** [Module]: a class with a [parameters()] method. *)
Class Module (T : Type) := parameters : T → list id.

Definition zero_grad {T} `{Module T} (self : T) : M unit :=
  modify (λ σ, foldl (λ s p, set_grad p (lit 0) s) σ (parameters self)).

Record Neuron := mkNeuron { w : list id; b : id }.

#[global] Instance Neuron_parameters : Module Neuron := λ self, w self ++ [b self].

Fixpoint foldM {A B} (f : B → A → M B) (acc : B) (l : list A) : M B :=
  match l with
  | [] => mret acc
  | a :: l => acc' ← f acc a; foldM f acc' l
  end.

Fixpoint forM {A B} (f : A → M B) (l : list A) : M (list B) :=
  match l with
  | [] => mret []
  | a :: l => y ← f a; ys ← forM f l; mret (y :: ys)
  end.

(** [Neuron.__init__], with the draws of [random.uniform(-1, 1)] given. *)
Definition Neuron_init (draws : list num) (draw_b : num) : M Neuron :=
  ws ← forM (λ r, Value_init r [] Op_none) draws;
  bv ← Value_init draw_b [] Op_none;
  mret (mkNeuron ws bv).

(** [sum((wi*xi for wi, xi in zip(self.w, x)), self.b)]: starting from the
    bias, each product is built and then added to the running result. *)
Definition Neuron_act (self : Neuron) (x : list Operand) : M id :=
  foldM (λ result '(wi, xi), item ← __mul__ wi xi; __add__ result (ONode item))
        (b self) (zip (w self) x).

Definition Neuron_call (self : Neuron) (x : list Operand) : M id :=
  act ← Neuron_act self x;
  out ← tanh act;
  mret out.

Record Layer := mkLayer { neurons : list Neuron }.

(** What [Layer.__call__] returns: a node, or a list of nodes. *)
Inductive Output :=
  | Single (v : id)
  | Many (vs : list id).

Definition Layer_call (self : Layer) (x : list Operand) : M Output :=
  outs ← forM (λ n, Neuron_call n x) (neurons self);
  mret (match outs with [o] => Single o | _ => Many outs end).

#[global] Instance Layer_parameters : Module Layer := λ self,
  foldl (λ params neuron, params ++ parameters neuron) [] (neurons self).

Record MLP := mkMLP { layers : list Layer }.

#[global] Instance MLP_parameters : Module MLP := λ self,
  layer ← layers self; parameters layer.

(** ** Specification-side notions *)

(** A node without its gradient: everything [backward] must leave alone. *)
Definition skeleton (v : Value) : Value := with_grad (lit 0) v.

(** The objects a closure refers to. *)
Definition closure_ids (c : Closure) : list id :=
  match c with
  | Noop => []
  | AddBw self other out | MulBw self other out => [self; other; out]
  | PowBw self _ out | ExpBw self out | TanhBw self _ out => [self; out]
  end.

(** The objects whose gradient a closure writes. *)
Definition closure_operands (c : Closure) : list id :=
  match c with
  | Noop => []
  | AddBw self other _ | MulBw self other _ => [self; other]
  | PowBw self _ _ | ExpBw self _ | TanhBw self _ _ => [self]
  end.

(** A closure of node [i] was bound by the operation that built [i]:
    [out] is [i] itself and the operands are among [i._prev]. *)
Definition closure_wf (i : id) (prev : list id) (c : Closure) : Prop :=
  match c with
  | Noop => True
  | AddBw self other out | MulBw self other out =>
      out = i ∧ self ∈ prev ∧ other ∈ prev
  | PowBw self _ out | ExpBw self out | TanhBw self _ out =>
      out = i ∧ self ∈ prev
  end.

(** A heap as the constructors build it: every node was allocated after
    its operands (so the operand relation is acyclic), and its closure is
    the one bound at construction. *)
Definition node_wf (i : id) (v : Value) : Prop :=
  Forall (λ c, c < i) (_prev v) ∧ closure_wf i (_prev v) (_backward v).

Definition heap_wf (σ : Heap) : Prop :=
  ∀ i, node_wf i (obj σ i).

(** The traversal of [build_topo] as a relation between the locals
    [(visited, topo)] before and after a call, and before and after the
    loop over the operands. *)
Inductive visit (σ : Heap) : id → gset id * list id → gset id * list id → Prop :=
  | visit_seen v visited topo :
      v ∈ visited →
      visit σ v (visited, topo) (visited, topo ++ [v])
  | visit_new v visited topo visited' topo' :
      v ∉ visited →
      visit_each σ (_prev (obj σ v)) ({[v]} ∪ visited, topo) (visited', topo') →
      visit σ v (visited, topo) (visited', topo' ++ [v])
with visit_each (σ : Heap) : list id → gset id * list id → gset id * list id → Prop :=
  | visit_each_nil st : visit_each σ [] st st
  | visit_each_cons child children st st1 st2 :
      visit σ child st st1 →
      visit_each σ children st1 st2 →
      visit_each σ (child :: children) st st2.

(** Every visited node outside [X] is in [topo] and has all its operands
    visited. *)
Definition closed_except (σ : Heap) (X : gset id) (st : gset id * list id) : Prop :=
  ∀ u, u ∈ st.1 → u ∈ X ∨ (u ∈ st.2 ∧ ∀ c, c ∈ _prev (obj σ u) → c ∈ st.1).

(** [u] is reachable from [v] by following operand edges. *)
Definition operand_of (σ : Heap) (v u : id) : Prop := u ∈ _prev (obj σ v).
Definition reachable (σ : Heap) (root u : id) : Prop := rtc (operand_of σ) root u.

(** The value of [tanh], and what computing it raises: the exception of
    [math.exp(2*n)], else that of the division. *)
Definition tanh_formula (n : num) : num :=
  (nexp (lit 2 * n) - lit 1) / (nexp (lit 2 * n) + lit 1).

Definition tanh_raises (n : num) : option exn :=
  match exp_raises (lit 2 * n) with
  | Some e => Some e
  | None => div_raises (nexp (lit 2 * n) - lit 1) (nexp (lit 2 * n) + lit 1)
  end.

(** How calling a closure fails, if it does: the [**] in the closures of
    [**] and of [tanh] is evaluated before anything is written. *)
Definition closure_fails (c : Closure) (σ : Heap) : option failure :=
  match c with
  | PowBw self other _ => pow_fails (data (obj σ self)) (other - lit 1)
  | TanhBw _ t _ => pow_fails t (lit 2)
  | _ => None
  end.

(** The heap a closure leaves when its call completes. *)
Definition closure_writes (c : Closure) (σ : Heap) : Heap :=
  match c with
  | Noop => σ
  | AddBw self other out =>
      let σ1 := bump self (lit 1 * grad (obj σ out)) σ in
      bump other (lit 1 * grad (obj σ1 out)) σ1
  | MulBw self other out =>
      let σ1 := bump self (data (obj σ other) * grad (obj σ out)) σ in
      bump other (data (obj σ1 self) * grad (obj σ1 out)) σ1
  | PowBw self other out =>
      bump self ((other * data (obj σ self) ** (other - lit 1)) * grad (obj σ out)) σ
  | ExpBw self out =>
      bump self (data (obj σ out) * grad (obj σ out)) σ
  | TanhBw self t out =>
      bump self ((lit 1 - t ** lit 2) * grad (obj σ out)) σ
  end.

(** The heap a walk over [nodes] leaves when every call completes. *)
Definition pass_writes (nodes : list id) (σ : Heap) : Heap :=
  foldl (λ s node, closure_writes (_backward (obj s node)) s) σ nodes.

(** The calls a walk over [nodes] completes: those before the first one
    that fails.  (Whether a call fails depends on values only, which no
    call changes.) *)
Fixpoint calls_made (σ : Heap) (nodes : list id) : list id :=
  match nodes with
  | [] => []
  | node :: nodes =>
      match closure_fails (_backward (obj σ node)) σ with
      | Some _ => []
      | None => node :: calls_made σ nodes
      end
  end.

(** How a walk over [nodes] ends: with the failure of the first call that
    fails, if one does. *)
Fixpoint pass_fails (σ : Heap) (nodes : list id) : option failure :=
  match nodes with
  | [] => None
  | node :: nodes =>
      match closure_fails (_backward (obj σ node)) σ with
      | Some f => Some f
      | None => pass_fails σ nodes
      end
  end.

(** The increments [x.grad += c] that a completed call of a closure
    performs, in order. *)
Definition increments (c : Closure) (σ : Heap) : list (id * num) :=
  match c with
  | Noop => []
  | AddBw self other out =>
      let c1 := lit 1 * grad (obj σ out) in
      let σ1 := bump self c1 σ in
      [(self, c1); (other, lit 1 * grad (obj σ1 out))]
  | MulBw self other out =>
      let c1 := data (obj σ other) * grad (obj σ out) in
      let σ1 := bump self c1 σ in
      [(self, c1); (other, data (obj σ1 self) * grad (obj σ1 out))]
  | PowBw self other out =>
      [(self, (other * data (obj σ self) ** (other - lit 1)) * grad (obj σ out))]
  | ExpBw self out => [(self, data (obj σ out) * grad (obj σ out))]
  | TanhBw self t out => [(self, (lit 1 - t ** lit 2) * grad (obj σ out))]
  end.

(** The increments of the completed calls [nodes], in order. *)
Fixpoint pass_increments (nodes : list id) (σ : Heap) : list (id * num) :=
  match nodes with
  | [] => []
  | node :: nodes =>
      let c := _backward (obj σ node) in
      increments c σ ++ pass_increments nodes (closure_writes c σ)
  end.

(** The contributions a pass adds to [v], in order. *)
Definition received (v : id) (log : list (id * num)) : list num :=
  snd <$> filter (λ p, p.1 = v) log.

(** A computation that only allocates: the heap it starts from is a
    prefix of the heap it leaves, so every object that existed is still
    there, field for field. *)
Definition only_allocates {A} (m : M A) : Prop :=
  ∀ σ, σ `prefix_of` (m σ).2.

(** Two heaps that differ in gradients only. *)
Definition same_skeleton (σ σ' : Heap) : Prop :=
  skeleton <$> σ = skeleton <$> σ'.

(** A leaf as [Value(x)] builds it. *)
Definition leaf (x : num) : Value := mkValue x (lit 0) Noop [] Op_none "".

(** What [coerce] returns and leaves. *)
Definition coerced (σ : Heap) (other : Operand) : id :=
  match other with
  | ONode i => i
  | ONum _ => length σ
  end.
Definition coerced_heap (σ : Heap) (other : Operand) : Heap :=
  match other with
  | ONode _ => σ
  | ONum x => σ ++ [leaf x]
  end.

(** Two heaps that hold the same objects at the identities in [S]. *)
Definition agree_on (S : list id) (σ σ' : Heap) : Prop :=
  ∀ u, u ∈ S → σ !! u = σ' !! u.

(** The value an operand denotes. *)
Definition operand_value (σ : Heap) (x : Operand) : num :=
  match x with
  | ONode i => data (obj σ i)
  | ONum r => r
  end.

Definition operand_live (σ : Heap) (x : Operand) : Prop :=
  match x with
  | ONode i => i < length σ
  | ONum _ => True
  end.

(** The weighted sum of a neuron, accumulated from the bias. *)
Definition neuron_sum (σ : Heap) (n : Neuron) (x : list Operand) : num :=
  foldl (λ acc '(wi, xi), acc + data (obj σ wi) * operand_value σ xi)
        (data (obj σ (b n))) (zip (w n) x).

End Engine.

Scheme visit_ind2 := Minimality for visit Sort Prop
  with visit_each_ind2 := Minimality for visit_each Sort Prop.
Combined Scheme visit_mutind from visit_ind2, visit_each_ind2.

Arguments Op num : clear implicits.
Arguments Closure num : clear implicits.
Arguments Value num : clear implicits.
Arguments Operand num : clear implicits.
Arguments PyObj num : clear implicits.
Arguments M num A : clear implicits.

Abbreviation Heap num := (list (Value num)).

(** ** Two interpretations of the numbers *)

(** [x ** y] over the reals: the integer power when [y] is an integer;
    otherwise [0] for [x = 0] and [exp (y * ln x)] for a positive [x]. *)
Definition Rpy_pow (x y : R) : R :=
  if Req_dec_T y (IZR (Int_part y)) then powerRZ x (Int_part y)
  else if Req_dec_T x 0 then 0%R
  else Rpower x y.

(** In the reals nothing overflows.  [x / 0] and [0 ** y] with a negative
    [y] raise [ZeroDivisionError]; a negative [x] to a power that is not
    an integer is a complex number. *)
Definition Rdiv_raises (x y : R) : option exn :=
  if Req_dec_T y 0 then Some ZeroDivisionError else None.

Definition Rpow_fails (x y : R) : option failure :=
  if Req_dec_T x 0 then
    if Rlt_dec y 0 then Some (Raises ZeroDivisionError) else None
  else if Rlt_dec x 0 then
    if Req_dec_T y (IZR (Int_part y)) then None else Some Complex
  else None.

Definition RArith : Arith R := {|
  lit := IZR;
  nadd := Rplus;
  nsub := Rminus;
  nmul := Rmult;
  ndiv := Rdiv;
  nneg := Ropp;
  npow := Rpy_pow;
  nexp := Rtrigo_def.exp;
  div_raises := Rdiv_raises;
  pow_fails := Rpow_fails;
  exp_raises := λ _, None
|}.

(** IEEE binary64, the floats of CPython.  The C library's [exp] and
    [pow] are taken as given; when they are called, and what is raised,
    follows what CPython does around them. *)
Definition float_of_Z (z : Z) : float :=
  match z with
  | Z0 => PrimFloat.zero
  | Zpos _ => PrimFloat.of_uint63 (Uint63.of_Z z)
  | Zneg p => PrimFloat.opp (PrimFloat.of_uint63 (Uint63.of_Z (Zpos p)))
  end.

(** [x / y] raises [ZeroDivisionError] for [y == 0.0]. *)
Definition float_div_raises (x y : float) : option exn :=
  if PrimFloat.is_zero y then Some ZeroDivisionError else None.

(** [math.exp(x)] raises [OverflowError] when the C library's result is
    infinite for a finite [x] (and [ValueError] when it is not a number
    for an [x] that is one). *)
Definition float_exp_raises (libm_exp : float → float) (x : float) : option exn :=
  let r := libm_exp x in
  if PrimFloat.is_nan r && negb (PrimFloat.is_nan x) then Some ValueError
  else if PrimFloat.is_infinity r && PrimFloat.is_finite x then Some OverflowError
  else None.

(** A float that is an integer: every float from [2^52] on, and below it
    those that adding and subtracting [2^52] leaves unchanged. *)
Definition float_is_integer (y : float) : bool :=
  let a := PrimFloat.abs y in
  (4503599627370496 <=? a)%float
  || ((a + 4503599627370496) - 4503599627370496 =? a)%float.

(** A float that is an odd integer. *)
Definition float_is_odd (y : float) : bool :=
  float_is_integer y && negb (float_is_integer (y / 2)).

(** How [x ** y] fails on floats.  With a NaN or an infinity among [x]
    and [y], or [y == 0.0], the result is a float; [0.0 ** y] raises
    [ZeroDivisionError] for a negative [y]; a negative [x] with a [y]
    that is not an integer gives a complex number; [(+-1.0) ** y] is
    [+-1.0]; otherwise the C library's [pow] is called on [|x|] and [y],
    and [OverflowError] is raised when its result is infinite. *)
Definition float_pow_fails (libm_pow : float → float → float) (x y : float)
  : option failure :=
  if negb (PrimFloat.is_finite x) || negb (PrimFloat.is_finite y) || PrimFloat.is_zero y
  then None
  else if PrimFloat.is_zero x then
    if (y <? 0)%float then Some (Raises ZeroDivisionError) else None
  else if (x <? 0)%float && negb (float_is_integer y) then Some Complex
  else if (PrimFloat.abs x =? 1)%float then None
  else if PrimFloat.is_infinity (libm_pow (PrimFloat.abs x) y)
       then Some (Raises OverflowError)
  else None.

(** The value of [x ** y] on floats, when it does not fail: the special
    cases first ([y == 0.0], a NaN, an infinite [y], an infinite [x],
    [x == 0.0]), then the power of [|x|], negated for a negative [x] and
    an odd [y]. *)
Definition float_pow (libm_pow : float → float → float) (x y : float) : float :=
  if PrimFloat.is_zero y then 1%float
  else if PrimFloat.is_nan x then x
  else if PrimFloat.is_nan y then (if (x =? 1)%float then 1%float else y)
  else if PrimFloat.is_infinity y then
    if (PrimFloat.abs x =? 1)%float then 1%float
    else if Bool.eqb (0 <? y)%float (1 <? PrimFloat.abs x)%float then PrimFloat.abs y
    else 0%float
  else if PrimFloat.is_infinity x then
    if (0 <? y)%float then (if float_is_odd y then x else PrimFloat.abs x)
    else if float_is_odd y && (x <? 0)%float then PrimFloat.opp 0%float
    else 0%float
  else if PrimFloat.is_zero x then (if float_is_odd y then x else 0%float)
  else
    let r := if (PrimFloat.abs x =? 1)%float then 1%float
             else libm_pow (PrimFloat.abs x) y in
    if (x <? 0)%float && float_is_odd y then PrimFloat.opp r else r.

Definition FloatArith (libm_exp : float → float) (libm_pow : float → float → float)
  : Arith float := {|
  lit := float_of_Z;
  nadd := PrimFloat.add;
  nsub := PrimFloat.sub;
  nmul := PrimFloat.mul;
  ndiv := PrimFloat.div;
  nneg := PrimFloat.opp;
  npow := float_pow libm_pow;
  nexp := libm_exp;
  div_raises := float_div_raises;
  pow_fails := float_pow_fails libm_pow;
  exp_raises := float_exp_raises libm_exp
|}.

(** The oracle under which a two-element set iterates in insertion
    order. *)
Definition insertion_order : SetOrder := λ _ _, true.

(** ** Programs used as examples *)

Section Programs.
Context {num : Type} `{Arith num} `{SetOrder}.

(** [a = Value(3.0); b = a + a] *)
Definition fanout_forward : M num (id * id) :=
  a ← Value_init (lit 3) [] Op_none;
  b ← __add__ a (ONode a);
  mret (a, b).

(** [x = Value(x0); s = x * 3; m = s * 5; d = s + m]: the node [s] is an
    operand of the root [d] and of [d]'s other operand [m]. *)
Definition shared_forward (x0 : num) : M num (id * id * id) :=
  x ← Value_init x0 [] Op_none;
  s ← __mul__ x (ONum (lit 3));
  m ← __mul__ s (ONum (lit 5));
  d ← __add__ s (ONode m);
  mret (x, s, d).

(** [x = Value(0.0); y = x.tanh()] *)
Definition tanh_forward : M num (id * id) :=
  x ← Value_init (lit 0) [] Op_none;
  y ← tanh x;
  mret (x, y).

(** A neuron with one weight [0.0] and bias [0.0], applied to the input
    [1.0]. *)
Definition neuron_forward : M num (Neuron * id) :=
  n ← Neuron_init [lit 0] (lit 0);
  out ← Neuron_call n [ONum (lit 1)];
  mret (n, out).

(** [a = Value(3.0); b = a + a; b.backward()], then read [a.grad]. *)
Definition fanout_script : M num num :=
  '(a, b) ← fanout_forward;
  backward b;;
  σ ← get;
  mret (grad (obj σ a)).

(** [x = Value(0.0); y = x.tanh(); y.backward()], then read [x.grad]. *)
Definition tanh_script : M num num :=
  '(x, y) ← tanh_forward;
  backward y;;
  σ ← get;
  mret (grad (obj σ x)).

(** [x = Value(x0); s = x * 3; m = s * 5; d = s + m; d.backward()], then
    read [x.grad]. *)
Definition shared_script (x0 : num) : M num num :=
  '(x, s, d) ← shared_forward x0;
  backward d;;
  σ ← get;
  mret (grad (obj σ x)).

(** [a = Value(a0); s = a * 3; m = s * a; d = s + m]: the node [a] has
    the two consumers [s] and [m], and [s] has the two consumers [m] and
    [d]. *)
Definition consumers_forward (a0 : num) : M num (id * id * id * id) :=
  a ← Value_init a0 [] Op_none;
  s ← __mul__ a (ONum (lit 3));
  m ← __mul__ s (ONode a);
  d ← __add__ s (ONode m);
  mret (a, s, m, d).

(** ... [d.backward()], then read [a.grad], [s.grad] and [m.grad]. *)
Definition consumers_script (a0 : num) : M num (num * num * num) :=
  '(a, s, m, d) ← consumers_forward a0;
  backward d;;
  σ ← get;
  mret (grad (obj σ a), grad (obj σ s), grad (obj σ m)).

(** The sequence [build_topo] produces for [shared_forward], by the
    iteration orders of the three two-element operand sets. *)
Definition shared_topo (x_first s_first_in_m s_first_in_d : bool) : list id :=
  let leaves := if x_first then [0; 1] else [1; 0] in
  if s_first_in_d
  then leaves ++ [2] ++ (if s_first_in_m then [2; 3] else [3; 2]) ++ [4; 5]
  else (if s_first_in_m then leaves ++ [2; 3] else [3] ++ leaves ++ [2]) ++ [4; 2; 5].

(** The heap after the forward pass of [neuron_forward]. *)
Definition neuron_heap : Heap num :=
  [leaf (lit 0); leaf (lit 0); leaf (lit 1);
   mkValue (nmul (lit 0) (lit 1)) (lit 0) (MulBw 0 2 3) (py_set [0; 2]) Op_mul "";
   mkValue (nadd (lit 0) (nmul (lit 0) (lit 1))) (lit 0) (AddBw 1 3 4) (py_set [1; 3])
           Op_add "";
   mkValue (tanh_formula (nadd (lit 0) (nmul (lit 0) (lit 1)))) (lit 0)
           (TanhBw 4 (tanh_formula (nadd (lit 0) (nmul (lit 0) (lit 1)))) 5) [4]
           Op_tanh ""].

(** The gradients of the objects [ps], read from the heap. *)
Definition grads (ps : list id) : M num (list num) :=
  σ ← get; mret ((λ p, grad (obj σ p)) <$> ps).

(** One forward pass of the neuron above, then [backward], [zero_grad] and
    [backward] again from the same output; the gradients of the parameters
    are read after each step. *)
Definition reset_script : M num (list num * list num * list num) :=
  '(n, out) ← neuron_forward;
  backward out;;
  first ← grads (parameters n);
  zero_grad n;;
  zeroed ← grads (parameters n);
  backward out;;
  second ← grads (parameters n);
  mret (first, zeroed, second).

(** Every gradient set to [0]: what a caller that also resets the
    intermediate nodes does. *)
Definition zero_all_grads : M num unit := modify (fmap (with_grad (lit 0))).

End Programs.

(** ** The rest of nn.py: construction, and the forward pass of an MLP *)

(** What flows from one layer of an MLP to the next: the list the caller
    passed or a layer returned, or the single node a one-neuron layer
    returned. *)
Inductive Activation {num : Type} :=
  | Inputs (xs : list (Operand num))
  | Node (v : id).
Arguments Activation num : clear implicits.

(** How [MLP.__call__] ends: it returns [x], or [zip(self.w, x)] raises
    [TypeError] because [x] is a [Value], which is not iterable. *)
Inductive outcome {num : Type} :=
  | Returns (x : Activation num)
  | TypeError.
Arguments outcome num : clear implicits.

Section Network.
Context {num : Type} `{Arith num} `{SetOrder}.

(** [outs[0] if len(outs) == 1 else outs], as the next layer's [x]. *)
Definition activation_of (o : Output) : Activation num :=
  match o with
  | Single v => Node v
  | Many vs => Inputs (ONode <$> vs)
  end.

(** [layer(x)] inside the loop of [MLP.__call__].  With [x] a [Value] the
    first neuron's [zip(self.w, x)] raises before anything is allocated;
    a layer without neurons never reaches it and returns [[]]. *)
Definition Layer_call_on (self : Layer) (x : Activation num) : M num (outcome num) :=
  match x with
  | Inputs xs => o ← Layer_call self xs; mret (Returns (activation_of o))
  | Node _ =>
      match neurons self with
      | [] => mret (Returns (Inputs []))
      | _ :: _ => mret TypeError
      end
  end.

(** [for layer in self.layers: x = layer(x)], then [return x]. *)
Fixpoint MLP_layers (ls : list Layer) (x : Activation num) : M num (outcome num) :=
  match ls with
  | [] => mret (Returns x)
  | layer :: ls =>
      r ← Layer_call_on layer x;
      match r with
      | Returns x' => MLP_layers ls x'
      | TypeError => mret TypeError
      end
  end.

Definition MLP_call (self : MLP) (x : list (Operand num)) : M num (outcome num) :=
  MLP_layers (layers self) (Inputs x).

(** Construction.  [random.uniform(-1, 1)] reads the generator's stream:
    [rand] is that stream and [k] the position of the next draw. *)
Definition Neuron_new (rand : nat → num) (k : nat) (num_inputs_for_neuron : nat)
  : M num (Neuron * nat) :=
  n ← Neuron_init (rand <$> seq k num_inputs_for_neuron) (rand (k + num_inputs_for_neuron));
  mret (n, k + num_inputs_for_neuron + 1).

(** [[Neuron(num_inputs_for_neuron) for _ in range(count)]] *)
Fixpoint Neurons_new (rand : nat → num) (k : nat) (num_inputs_for_neuron count : nat)
  : M num (list Neuron * nat) :=
  match count with
  | O => mret ([], k)
  | S count =>
      '(n, k1) ← Neuron_new rand k num_inputs_for_neuron;
      '(ns, k2) ← Neurons_new rand k1 num_inputs_for_neuron count;
      mret (n :: ns, k2)
  end.

Definition Layer_new (rand : nat → num) (k : nat)
    (num_inputs_for_neuron num_nueurons_in_layer : nat) : M num (Layer * nat) :=
  '(ns, k') ← Neurons_new rand k num_inputs_for_neuron num_nueurons_in_layer;
  mret (mkLayer ns, k').

(** [[Layer(n_in, n_out) for n_in, n_out in zip(layer_sizes, layer_sizes[1:])]] *)
Fixpoint Layers_new (rand : nat → num) (k : nat) (sizes : list (nat * nat))
  : M num (list Layer * nat) :=
  match sizes with
  | [] => mret ([], k)
  | (n_in, n_out) :: sizes =>
      '(l, k1) ← Layer_new rand k n_in n_out;
      '(ls, k2) ← Layers_new rand k1 sizes;
      mret (l :: ls, k2)
  end.

Definition MLP_new (rand : nat → num) (k : nat) (num_inputs : nat)
    (num_outputs_array : list nat) : M num (MLP * nat) :=
  let layer_sizes := [num_inputs] ++ num_outputs_array in
  '(ls, k') ← Layers_new rand k (zip layer_sizes (drop 1 layer_sizes));
  mret (mkMLP ls, k').

(** The number of parameters of an MLP with these layer sizes. *)
Definition parameter_count (sizes : list (nat * nat)) : nat :=
  sum_list ((λ '(n_in, n_out), (n_in + 1) * n_out) <$> sizes).

(** ** One operation, then [backward] *)

(** [x = Value(x0); y = f(x); y.backward()], then read [y.data] and
    [x.grad]. *)
Definition unary_script (f : id → M num id) (x0 : num) : M num (num * num) :=
  x ← Value_init x0 [] Op_none;
  y ← f x;
  backward y;;
  σ ← get;
  mret (data (obj σ y), grad (obj σ x)).

(** [a = Value(a0); b = Value(b0); c = f(a, b); c.backward()], then read
    [c.data], [a.grad] and [b.grad]. *)
Definition binary_script (f : id → Operand num → M num id) (a0 b0 : num)
  : M num (num * num * num) :=
  a ← Value_init a0 [] Op_none;
  b ← Value_init b0 [] Op_none;
  c ← f a (ONode b);
  backward c;;
  σ ← get;
  mret (data (obj σ c), grad (obj σ a), grad (obj σ b)).

(** [a = Value(a0); c = f(a, a); c.backward()], then read [c.data] and
    [a.grad]. *)
Definition same_operand_script (f : id → Operand num → M num id) (a0 : num)
  : M num (num * num) :=
  a ← Value_init a0 [] Op_none;
  c ← f a (ONode a);
  backward c;;
  σ ← get;
  mret (data (obj σ c), grad (obj σ a)).

(** [a = Value(a0); c = f(a, k); c.backward()] with [k] a raw number,
    then read [c.data] and [a.grad]. *)
Definition number_operand_script (f : id → Operand num → M num id) (a0 k : num)
  : M num (num * num) :=
  a ← Value_init a0 [] Op_none;
  c ← f a (ONum k);
  backward c;;
  σ ← get;
  mret (data (obj σ c), grad (obj σ a)).

(** ** Notions used to state what the code does *)

(** The live objects a traversal has not visited yet. *)
Definition unvisited (σ : Heap num) (visited : gset id) : list id :=
  filter (λ i, i ∉ visited) (seq 0 (length σ)).

(** [_prev] is a set: it holds no object twice. *)
Definition sets_wf (σ : Heap num) : Prop :=
  ∀ i, NoDup (_prev (obj σ i)).

(** The parameters of a neuron, of a layer and of an MLP are objects of
    the heap. *)
Definition Neuron_live (σ : Heap num) (n : Neuron) : Prop :=
  Forall (λ wi, wi < length σ) (w n) ∧ b n < length σ.
Definition Layer_live (σ : Heap num) (l : Layer) : Prop :=
  Forall (Neuron_live σ) (neurons l).
Definition MLP_live (σ : Heap num) (m : MLP) : Prop :=
  Forall (Layer_live σ) (layers m).

(** The operands in what flows between layers are objects of the heap. *)
Definition activation_live (σ : Heap num) (x : Activation num) : Prop :=
  match x with
  | Inputs xs => Forall (operand_live σ) xs
  | Node v => v < length σ
  end.

(** A computation that, started on [σ], returns a result that is [live]
    in the heap it leaves, which extends [σ] and is well formed. *)
Definition builds {A} (live : Heap num → A → Prop) (m : M num A) (σ : Heap num) : Prop :=
  ∃ a σ', m σ = (Ok a, σ') ∧ σ `prefix_of` σ' ∧ live σ' a ∧ heap_wf σ' ∧ sets_wf σ'.

Definition node_live (σ : Heap num) (v : id) : Prop := v < length σ.

(** A computation that fails as [failing] says, leaving the heap as it
    was, and builds when [failing] says nothing. *)
Definition builds_unless {A} (failing : option failure) (live : Heap num → A → Prop)
    (m : M num A) (σ : Heap num) : Prop :=
  match failing with
  | Some f => m σ = (Fail f, σ)
  | None => builds live m σ
  end.

(** A computation that, started on [σ], leaves a well-formed heap that
    extends [σ], and either returns a result that is [live] in it or fails
    in a way that [bad] allows. *)
Definition runs {A} (live : Heap num → A → Prop) (bad : failure → Prop)
    (m : M num A) (σ : Heap num) : Prop :=
  ∃ r σ', m σ = (r, σ') ∧ σ `prefix_of` σ' ∧ heap_wf σ' ∧ sets_wf σ' ∧
          match r with
          | Ok a => live σ' a
          | Fail f => bad f
          end.

(** The failures of a forward pass: an exception that [tanh] raises on
    some number. *)
Definition tanh_failure (f : failure) : Prop :=
  ∃ n e, tanh_raises n = Some e ∧ f = Raises e.

(** No closure of a node reachable from [root] fails. *)
Definition quiet (σ : Heap num) (root : id) : Prop :=
  ∀ u, reachable σ root u → closure_fails (_backward (obj σ u)) σ = None.

(** The leaves that hold the draws [k], [k+1], ..., [k+n-1] of the
    generator, in that order. *)
Definition drawn (rand : nat → num) (k n : nat) : Heap num :=
  (λ j, leaf (rand j)) <$> seq k n.

(** A layer built by [Layer(n_in, n_out)]. *)
Definition Layer_shape (l : Layer) (size : nat * nat) : Prop :=
  length (neurons l) = size.2 ∧ Forall (λ n, length (w n) = size.1) (neurons l).

(** Two consecutive layers that cannot be chained: the first has exactly
    one neuron, so it returns a [Value] and not a list, and the second
    has a neuron to call on it. *)
Definition unchainable (ls : list Layer) : Prop :=
  ∃ i l l', ls !! i = Some l ∧ ls !! S i = Some l' ∧
            length (neurons l) = 1 ∧ neurons l' ≠ [].

(** A [Value] arrives at a layer that has a neuron. *)
Definition blocked (x : Activation num) (ls : list Layer) : Prop :=
  match x, ls with
  | Node _, l :: _ => neurons l ≠ []
  | _, _ => False
  end.

(** The form of what a layer returns: a node when it has exactly one
    neuron, and otherwise the list of its neurons' outputs. *)
Definition output_of (l : Layer) (a : Activation num) : Prop :=
  if decide (length (neurons l) = 1) then ∃ v, a = Node v
  else ∃ outs, a = Inputs (ONode <$> outs) ∧ length outs = length (neurons l).

Definition outputs_live (ns : list Neuron) (σ : Heap num) (outs : list id) : Prop :=
  Forall (node_live σ) outs ∧ length outs = length ns.

(** How a layer called on [x] may end, and how a chain of layers may. *)
Definition layer_outcome (l : Layer) (x : Activation num) (σ : Heap num)
    (r : outcome num) : Prop :=
  match r with
  | TypeError => blocked x [l]
  | Returns a => ¬ blocked x [l] ∧ activation_live σ a ∧ output_of l a
  end.

Definition layers_outcome (ls : list Layer) (x : Activation num) (σ : Heap num)
    (r : outcome num) : Prop :=
  match r with
  | TypeError => blocked x ls ∨ unchainable ls
  | Returns a =>
      ¬ blocked x ls ∧ ¬ unchainable ls ∧ activation_live σ a ∧
      match last ls with
      | None => a = x
      | Some l => output_of l a
      end
  end.

Local Open Scope num_scope.

(** What a neuron, a layer and a chain of layers compute from the
    numbers put in, with the parameters read from [σ]. *)
Definition neuron_value (σ : Heap num) (n : Neuron) (xs : list num) : num :=
  tanh_formula (foldl (λ acc '(wi, xi), acc + data (obj σ wi) * xi)
                      (data (obj σ (b n))) (zip (w n) xs)).
Definition layer_value (σ : Heap num) (l : Layer) (xs : list num) : list num :=
  (λ n, neuron_value σ n xs) <$> neurons l.
Definition layers_value (σ : Heap num) (ls : list Layer) (xs : list num) : list num :=
  foldl (λ xs l, layer_value σ l xs) xs ls.

(** The numbers that flow between layers. *)
Definition activation_values (σ : Heap num) (a : Activation num) : list num :=
  match a with
  | Inputs xs => operand_value σ <$> xs
  | Node v => [data (obj σ v)]
  end.

Definition layer_returns (σ : Heap num) (l : Layer) (x : Activation num)
    (σ' : Heap num) (r : outcome num) : Prop :=
  match r with
  | TypeError => True
  | Returns a =>
      activation_live σ' a ∧
      activation_values σ' a = layer_value σ l (activation_values σ x)
  end.

Definition layers_return (σ : Heap num) (ls : list Layer) (x : Activation num)
    (σ' : Heap num) (r : outcome num) : Prop :=
  match r with
  | TypeError => True
  | Returns a => activation_values σ' a = layers_value σ ls (activation_values σ x)
  end.

(** No node reachable from [root] is an operand of two different nodes
    reachable from [root]. *)
Definition unshared (σ : Heap num) (root : id) : Prop :=
  ∀ u p q, reachable σ root p → reachable σ root q →
           u ∈ _prev (obj σ p) → u ∈ _prev (obj σ q) → p = q.

(** The nodes [Neuron.__call__] builds for the pairs [items] of a weight
    and an input number, starting from [acc]: for each pair a leaf for
    the number, the product and the running sum, up to [act]. *)
Fixpoint summed (σ : Heap num) (acc : id) (items : list (id * num)) (act : id) : Prop :=
  match items with
  | [] => act = acc
  | (wi, xi) :: items =>
      ∃ xl pr ac,
        wi ≠ xl ∧ acc ≠ pr ∧
        obj σ xl = leaf xi ∧
        obj σ pr = mkValue (data (obj σ wi) * xi) (lit 0) (MulBw wi xl pr)
                           (py_set [wi; xl]) Op_mul "" ∧
        obj σ ac = mkValue (data (obj σ acc) + data (obj σ pr)) (lit 0)
                           (AddBw acc pr ac) (py_set [acc; pr]) Op_add "" ∧
        summed σ ac items act
  end.

(** The nodes [Neuron.__call__] builds for the pairs [items] of a weight
    and an input, starting from [acc]: for each pair the product
    [wi * xi] — on the input itself when it is a node, on a fresh leaf
    when it is a number — and the sum of the running result and the
    product, up to [act]. *)
Fixpoint weighted (σ : Heap num) (acc : id) (items : list (id * Operand num))
    (act : id) : Prop :=
  match items with
  | [] => act = acc
  | (wi, xi) :: items =>
      ∃ xv pr ac,
        match xi with
        | ONode i => xv = i
        | ONum r => obj σ xv = leaf r
        end ∧
        obj σ pr = mkValue (data (obj σ wi) * data (obj σ xv)) (lit 0) (MulBw wi xv pr)
                           (py_set [wi; xv]) Op_mul "" ∧
        obj σ ac = mkValue (data (obj σ acc) + data (obj σ pr)) (lit 0)
                           (AddBw acc pr ac) (py_set [acc; pr]) Op_add "" ∧
        weighted σ ac items act
  end.

(** What a layer raises: the exception of the first neuron whose [tanh]
    raises. *)
Fixpoint first_raise (rs : list (option exn)) : option exn :=
  match rs with
  | [] => None
  | Some e :: _ => Some e
  | None :: rs => first_raise rs
  end.

Definition layer_raises (σ : Heap num) (l : Layer) (x : list (Operand num)) : option exn :=
  first_raise ((λ n, tanh_raises (neuron_sum σ n x)) <$> neurons l).

(** The output of a neuron as a function of the numbers it holds and
    the numbers it is given. *)
Definition neuron_output (ws : list num) (bias : num) (xs : list num) : num :=
  tanh_formula (foldl (λ acc '(wi, xi), acc + wi * xi) bias (zip ws xs)).

End Network.

(** * Facts *)

Section Facts.
Context {num : Type} `{Arith num} `{SetOrder}.
Local Open Scope num_scope.
Implicit Types (σ s : Heap num) (c : Closure num) (i j u v : id) (S : list id).

(** ** Reading and writing objects *)

Lemma obj_app_l σ k i : i < length σ → obj (σ ++ k) i = obj σ i.
Proof. intros Hi. unfold obj. by rewrite lookup_app_l. Qed.

Lemma obj_snoc σ (v : Value num) : obj (σ ++ [v]) (length σ) = v.
Proof. unfold obj. by rewrite list_lookup_middle. Qed.

Lemma obj_prefix σ σ' i : σ `prefix_of` σ' → i < length σ → obj σ' i = obj σ i.
Proof. intros [k ->] Hi. by apply obj_app_l. Qed.

Lemma length_set_grad i g σ : length (set_grad i g σ) = length σ.
Proof. apply length_alter. Qed.

Lemma obj_set_grad_ne i g σ j : i ≠ j → obj (set_grad i g σ) j = obj σ j.
Proof. intros Hne. unfold obj, set_grad. by rewrite list_lookup_alter_ne. Qed.

Lemma obj_set_grad_eq i g σ :
  i < length σ → obj (set_grad i g σ) i = with_grad g (obj σ i).
Proof.
  intros Hi. unfold obj, set_grad. rewrite list_lookup_alter_eq.
  destruct (lookup_lt_is_Some_2 σ i Hi) as [v ->]. done.
Qed.

Lemma grad_set_grad_eq i g σ : i < length σ → grad (obj (set_grad i g σ) i) = g.
Proof. intros Hi. by rewrite obj_set_grad_eq. Qed.

Lemma skeleton_set_grad i g σ : same_skeleton σ (set_grad i g σ).
Proof.
  unfold same_skeleton, set_grad. apply list_eq. intros j.
  rewrite !list_lookup_fmap. destruct (decide (i = j)) as [->|Hne].
  - rewrite list_lookup_alter_eq. by destruct (σ !! j).
  - by rewrite list_lookup_alter_ne.
Qed.

#[local] Instance same_skeleton_equiv : Equivalence same_skeleton.
Proof.
  unfold same_skeleton. split.
  - by intros σ.
  - by intros σ σ'.
  - intros σ1 σ2 σ3 H12 H23. by rewrite H12.
Qed.

Lemma same_skeleton_length σ σ' : same_skeleton σ σ' → length σ = length σ'.
Proof.
  intros Hs. unfold same_skeleton in Hs.
  rewrite <- (length_fmap skeleton σ), Hs. apply length_fmap.
Qed.

Lemma same_skeleton_obj σ σ' i :
  same_skeleton σ σ' → skeleton (obj σ i) = skeleton (obj σ' i).
Proof.
  intros Hs. unfold same_skeleton in Hs.
  assert (skeleton <$> σ !! i = skeleton <$> σ' !! i) as Hi
    by (rewrite <- !list_lookup_fmap; by rewrite Hs).
  unfold obj. destruct (σ !! i), (σ' !! i); simpl in *; congruence.
Qed.

(** Equal skeletons: every field but the gradient agrees. *)
Lemma same_skeleton_fields σ σ' i :
  same_skeleton σ σ' →
  data (obj σ' i) = data (obj σ i) ∧ _prev (obj σ' i) = _prev (obj σ i) ∧
  _op (obj σ' i) = _op (obj σ i) ∧ _backward (obj σ' i) = _backward (obj σ i) ∧
  label (obj σ' i) = label (obj σ i).
Proof.
  intros Hs. pose proof (same_skeleton_obj σ σ' i Hs) as Hi.
  destruct (obj σ i), (obj σ' i). unfold skeleton, with_grad in Hi. simpl in *.
  by inversion Hi.
Qed.

Lemma set_backward_fresh σ (v : Value num) c :
  set_backward (length σ) c (σ ++ [v]) = σ ++ [with_backward c v].
Proof.
  unfold set_backward. rewrite <- (Nat.add_0_r (length σ)). by rewrite alter_app_r.
Qed.

(** ** The forward operations, run *)

Lemma Value_init_run d ch op σ :
  Value_init d ch op σ = (Ok (length σ), σ ++ [mkValue d (lit 0) Noop (py_set ch) op ""]).
Proof. done. Qed.

Lemma coerce_run other σ : coerce other σ = (Ok (coerced σ other), coerced_heap σ other).
Proof. by destruct other. Qed.

Lemma add_run self other σ :
  __add__ self other σ =
  let o := coerced σ other in
  let σ1 := coerced_heap σ other in
  (Ok (length σ1),
   σ1 ++ [mkValue (data (obj σ1 self) + data (obj σ1 o)) (lit 0)
                  (AddBw self o (length σ1)) (py_set [self; o]) Op_add ""]).
Proof.
  unfold __add__, mbind, M_bind. rewrite coerce_run. simpl.
  unfold modify. by rewrite set_backward_fresh.
Qed.

Lemma mul_run self other σ :
  __mul__ self other σ =
  let o := coerced σ other in
  let σ1 := coerced_heap σ other in
  (Ok (length σ1),
   σ1 ++ [mkValue (data (obj σ1 self) * data (obj σ1 o)) (lit 0)
                  (MulBw self o (length σ1)) (py_set [self; o]) Op_mul ""]).
Proof.
  unfold __mul__, mbind, M_bind. rewrite coerce_run. simpl.
  unfold modify. by rewrite set_backward_fresh.
Qed.

(** [**], [exp] and [tanh] fail before they allocate anything. *)
Lemma pow_run self p σ :
  __pow__ self (PyNum p) σ =
  match pow_fails (data (obj σ self)) p with
  | Some f => (Fail f, σ)
  | None =>
      (Ok (length σ),
       σ ++ [mkValue (data (obj σ self) ** p) (lit 0) (PowBw self p (length σ))
                     (py_set [self]) (Op_pow p) ""])
  end.
Proof.
  unfold __pow__, mbind, M_bind, py_pow. simpl. destruct (pow_fails _ _); [done|].
  simpl. unfold modify. by rewrite set_backward_fresh.
Qed.

Lemma exp_run self σ :
  exp self σ =
  match exp_raises (data (obj σ self)) with
  | Some e => (Raise e, σ)
  | None =>
      (Ok (length σ),
       σ ++ [mkValue (nexp (data (obj σ self))) (lit 0) (ExpBw self (length σ))
                     (py_set [self]) Op_exp ""])
  end.
Proof.
  unfold exp, mbind, M_bind, math_exp. simpl. destruct (exp_raises _); [done|].
  simpl. unfold modify. by rewrite set_backward_fresh.
Qed.

Lemma tanh_run self σ :
  tanh self σ =
  match tanh_raises (data (obj σ self)) with
  | Some e => (Raise e, σ)
  | None =>
      (Ok (length σ),
       σ ++ [mkValue (tanh_formula (data (obj σ self))) (lit 0)
                     (TanhBw self (tanh_formula (data (obj σ self))) (length σ))
                     (py_set [self]) Op_tanh ""])
  end.
Proof.
  unfold tanh, tanh_raises, mbind, M_bind, math_exp, py_div. simpl.
  destruct (exp_raises _); [done|]. simpl. destruct (div_raises _ _); [done|].
  simpl. unfold modify. by rewrite set_backward_fresh.
Qed.


(** ** Forward operations only allocate *)

Lemma only_allocates_py_pow x y : only_allocates (py_pow x y).
Proof. intros σ. unfold py_pow. by destruct (pow_fails _ _). Qed.

Lemma only_allocates_bind {A B} (m : M num A) (f : A → M num B) :
  only_allocates m → (∀ a, only_allocates (f a)) → only_allocates (m ≫= f).
Proof.
  intros Hm Hf σ. unfold mbind, M_bind. specialize (Hm σ).
  destruct (m σ) as [[a|e] σ1]; simpl in *; [|done].
  etrans; [exact Hm|apply Hf].
Qed.

Lemma only_allocates_add self other : only_allocates (__add__ self other).
Proof.
  intros σ. rewrite add_run. simpl. destruct other; simpl.
  - by apply prefix_app_r.
  - rewrite <- app_assoc. by apply prefix_app_r.
Qed.

Lemma only_allocates_mul self other : only_allocates (__mul__ self other).
Proof.
  intros σ. rewrite mul_run. simpl. destruct other; simpl.
  - by apply prefix_app_r.
  - rewrite <- app_assoc. by apply prefix_app_r.
Qed.

Lemma only_allocates_pow self other : only_allocates (__pow__ self other).
Proof.
  intros σ. destruct other; [|done..]. rewrite pow_run.
  destruct (pow_fails _ _); simpl; [done|by apply prefix_app_r].
Qed.

Lemma only_allocates_exp self : only_allocates (exp self).
Proof.
  intros σ. rewrite exp_run. destruct (exp_raises _); simpl; [done|by apply prefix_app_r].
Qed.

Lemma only_allocates_tanh self : only_allocates (tanh self).
Proof.
  intros σ. rewrite tanh_run. destruct (tanh_raises _); simpl; [done|by apply prefix_app_r].
Qed.

Lemma only_allocates_neg self : only_allocates (__neg__ self).
Proof. apply only_allocates_mul. Qed.

Lemma only_allocates_sub self other : only_allocates (__sub__ self other).
Proof.
  destruct other; unfold __sub__; [|apply only_allocates_add].
  apply only_allocates_bind; [apply only_allocates_neg|].
  intros a. apply only_allocates_add.
Qed.

Lemma only_allocates_truediv self other : only_allocates (__truediv__ self other).
Proof.
  destruct other; unfold __truediv__.
  - apply only_allocates_bind; [apply only_allocates_pow|].
    intros a. apply only_allocates_mul.
  - apply only_allocates_bind; [apply only_allocates_py_pow|].
    intros a. apply only_allocates_mul.
Qed.

(** ** The traversal *)

Lemma visit_loop_None σ fuel children :
  foldl (λ acc child, acc ≫= build_topo σ fuel child) None children = None.
Proof. by induction children. Qed.

(** What [build_topo] computes is a traversal. *)
Lemma build_topo_visit σ fuel v st st' :
  build_topo σ fuel v st = Some st' → visit σ v st st'.
Proof.
  revert v st st'. induction fuel as [|fuel IH]; intros v [vis topo] st' Hrun; [done|].
  simpl in Hrun. destruct (decide (v ∈ vis)) as [Hin|Hnotin].
  - inversion Hrun; subst. by constructor.
  - destruct (foldl _ _ _) as [[vis' topo']|] eqn:Hloop; simpl in Hrun; [|done].
    inversion Hrun; subst. apply visit_new; [done|].
    clear Hrun Hnotin. revert Hloop.
    generalize ({[v]} ∪ vis, topo). generalize (_prev (obj σ v)).
    intros children. induction children as [|child children IHc]; intros st0 Hloop.
    + simpl in Hloop. inversion Hloop. constructor.
    + simpl in Hloop. destruct (build_topo σ fuel child st0) as [st1|] eqn:Hchild.
      * econstructor; [by apply IH|]. by apply IHc.
      * simpl in Hloop. by rewrite visit_loop_None in Hloop.
Qed.

(** On a well-formed heap the recursion nests at most [v + 1] deep. *)
Lemma build_topo_total σ fuel v st :
  heap_wf σ → v < fuel → is_Some (build_topo σ fuel v st).
Proof.
  intros Hwf. revert v st. induction fuel as [|fuel IH]; intros v [vis topo] Hv; [lia|].
  simpl. destruct (decide (v ∈ vis)); [done|].
  assert (Forall (λ u, u < fuel) (_prev (obj σ v))) as Hch.
  { destruct (Hwf v) as [Hlt _]. eapply Forall_impl; [exact Hlt|]. simpl. lia. }
  revert Hch. generalize ({[v]} ∪ vis, topo). generalize (_prev (obj σ v)).
  intros children. induction children as [|child children IHc]; intros st0 Hch.
  - done.
  - simpl. apply Forall_cons in Hch as [Hc Hch].
    destruct (IH child st0 Hc) as [st1 Hst1]. rewrite Hst1. simpl.
    destruct (IHc st1 Hch) as [st2 Hst2].
    destruct (foldl _ (Some st1) children) as [st2'|] eqn:E; [done|].
    simpl in Hst2. done.
Qed.

Lemma topo_of_total σ self : heap_wf σ → self < length σ → is_Some (topo_of σ self).
Proof.
  intros Hwf Hself. unfold topo_of.
  destruct (build_topo_total σ (S (length σ)) self (∅, []) Hwf) as [st Hst]; [lia|].
  rewrite Hst. done.
Qed.

Lemma topo_of_visit σ self topo :
  topo_of σ self = Some topo → ∃ visited, visit σ self (∅, []) (visited, topo).
Proof.
  unfold topo_of. intros Htopo.
  destruct (build_topo _ _ _ _) as [[vis t]|] eqn:Hrun; simpl in Htopo; [|done].
  inversion Htopo; subst. exists vis. by eapply build_topo_visit.
Qed.

(** What a traversal adds: it only grows [visited] and [topo], the node
    it is called on ends up visited and appended, and whatever it appends
    is visited and reachable from that node. *)
Lemma visit_grows σ :
  (∀ v st st', visit σ v st st' →
     st.1 ⊆ st'.1 ∧ v ∈ st'.1 ∧
     ∃ new, st'.2 = st.2 ++ new ∧ v ∈ new ∧
            ∀ u, u ∈ new → u ∈ st'.1 ∧ reachable σ v u) ∧
  (∀ children st st', visit_each σ children st st' →
     st.1 ⊆ st'.1 ∧ (∀ u, u ∈ children → u ∈ st'.1) ∧
     ∃ new, st'.2 = st.2 ++ new ∧
            ∀ u, u ∈ new → u ∈ st'.1 ∧ ∃ child, child ∈ children ∧ reachable σ child u).
Proof.
  apply visit_mutind; simpl.
  - intros v vis topo Hin. split_and!; [done..|].
    exists [v]. split_and!; [done|set_solver|].
    intros u ->%list_elem_of_singleton. split; [done|]. apply rtc_refl.
  - intros v vis topo vis' topo' Hnotin _ (Hsub & Hch & new & -> & Hnew).
    split_and!; [set_solver..|].
    exists (new ++ [v]). split_and!; [by rewrite app_assoc|set_solver|].
    intros u [Hu| ->%list_elem_of_singleton]%elem_of_app.
    + destruct (Hnew u Hu) as (Hvis & child & Hchild & Hreach).
      split; [done|]. eapply rtc_l; [exact Hchild|exact Hreach].
    + split; [set_solver|apply rtc_refl].
  - intros st. split_and!; [done|set_solver|].
    exists []. split; [by rewrite app_nil_r|set_solver].
  - intros child children st st1 st2 _ (Hsub1 & Hc1 & new1 & Heq1 & _ & Hnew1)
      _ (Hsub2 & Hc2 & new2 & Heq2 & Hnew2).
    split_and!; [set_solver|set_solver|].
    exists (new1 ++ new2). split; [by rewrite Heq2, Heq1, app_assoc|].
    intros u [Hu|Hu]%elem_of_app.
    + destruct (Hnew1 u Hu) as [Hvis Hreach]. split; [set_solver|].
      exists child. split; [set_solver|done].
    + destruct (Hnew2 u Hu) as (Hvis & c' & Hc' & Hreach). split; [done|].
      exists c'. split; [set_solver|done].
Qed.

(** A traversal keeps the invariant [closed_except]. *)
Lemma visit_closed σ :
  (∀ v st st', visit σ v st st' →
     ∀ X, closed_except σ X st → closed_except σ X st') ∧
  (∀ children st st', visit_each σ children st st' →
     ∀ X, closed_except σ X st → closed_except σ X st').
Proof.
  apply visit_mutind.
  - intros v vis topo Hin X Hcl u Hu. destruct (Hcl u Hu) as [HX|[Ht Hc]]; [by left|].
    right. simpl in *. split; [set_solver|done].
  - intros v vis topo vis' topo' Hnotin Hloop IH X Hcl.
    destruct (proj2 (visit_grows σ) _ _ _ Hloop) as (Hsub & Hch & _). simpl in *.
    assert (closed_except σ ({[v]} ∪ X) ({[v]} ∪ vis, topo)) as Hcl'.
    { intros u Hu. simpl in *. destruct (decide (u = v)) as [->|Hne]; [left; set_solver|].
      destruct (Hcl u) as [HX|[Ht Hc]]; [set_solver|left; set_solver|].
      right. split; [done|]. intros c' Hc'. specialize (Hc c' Hc'). set_solver. }
    specialize (IH _ Hcl'). intros u Hu. simpl in *.
    destruct (IH u Hu) as [HX|[Ht Hc]]; simpl in *.
    + apply elem_of_union in HX as [->%elem_of_singleton|HX]; [|by left].
      right. split; [set_solver|]. intros c' Hc'. by apply Hch.
    + right. split; [set_solver|done].
  - done.
  - intros child children st st1 st2 _ IH1 _ IH2 X Hcl. by apply IH2, IH1.
Qed.

Lemma reachable_le σ a b : heap_wf σ → reachable σ a b → b ≤ a.
Proof.
  intros Hwf Hreach. induction Hreach as [a|a b c' Hab _ IH]; [done|].
  destruct (Hwf a) as [Hlt _]. unfold operand_of in Hab.
  rewrite Forall_forall in Hlt. specialize (Hlt b Hab). lia.
Qed.

(** The sequence [backward] walks holds exactly the nodes reachable from
    the root. *)
Lemma topo_of_reachable σ root topo :
  topo_of σ root = Some topo → ∀ u, u ∈ topo ↔ reachable σ root u.
Proof.
  intros [vis Hvisit]%topo_of_visit u.
  destruct (proj1 (visit_grows σ) _ _ _ Hvisit) as (_ & Hroot & new & Heq & _ & Hnew).
  pose proof (proj1 (visit_closed σ) _ _ _ Hvisit ∅) as Hcl. simpl in *. subst new.
  split; [by intros [_ ?]%Hnew|].
  assert (closed_except σ ∅ (vis, topo)) as Hclosed.
  { apply Hcl. intros u' Hu'. simpl in Hu'. set_solver. }
  intros Hreach. assert (u ∈ vis) as Hu.
  { clear Hvisit Hnew Hcl. revert Hroot.
    induction Hreach as [a|a b c' Hab _ IH]; [done|].
    intros Ha. apply IH. destruct (Hclosed a Ha) as [?|[_ Hc]]; [set_solver|].
    by apply Hc. }
  destruct (Hclosed u Hu) as [?|[Ht _]]; [set_solver|done].
Qed.

Lemma topo_of_le σ root topo u :
  heap_wf σ → topo_of σ root = Some topo → u ∈ topo → u ≤ root.
Proof.
  intros Hwf Htopo Hu. eapply reachable_le; [done|]. by eapply topo_of_reachable.
Qed.

(** ** [backward] writes gradients only *)

Lemma skeleton_bump x g σ : same_skeleton σ (bump x g σ).
Proof. apply skeleton_set_grad. Qed.

Lemma skeleton_closure_writes c σ : same_skeleton σ (closure_writes c σ).
Proof.
  destruct c; simpl; try done; try apply skeleton_bump.
  all: etrans; [apply skeleton_bump|apply skeleton_bump].
Qed.

Lemma skeleton_pass_writes nodes σ : same_skeleton σ (pass_writes nodes σ).
Proof.
  revert σ. induction nodes as [|node nodes IH]; intros σ; [done|].
  simpl. etrans; [apply skeleton_closure_writes|apply IH].
Qed.

Lemma skeleton_zero_grads ps σ :
  same_skeleton σ (foldl (λ s p, set_grad p (lit 0) s) σ ps).
Proof.
  revert σ. induction ps as [|p ps IH]; intros σ; [done|].
  simpl. etrans; [apply skeleton_set_grad|apply IH].
Qed.

Lemma same_skeleton_prev σ σ' i : same_skeleton σ σ' → _prev (obj σ' i) = _prev (obj σ i).
Proof. intros Hs. by destruct (same_skeleton_fields σ σ' i Hs) as (_ & ? & _). Qed.

Lemma same_skeleton_closure σ σ' i :
  same_skeleton σ σ' → _backward (obj σ' i) = _backward (obj σ i).
Proof. intros Hs. by destruct (same_skeleton_fields σ σ' i Hs) as (_ & _ & _ & ? & _). Qed.

(** The traversal reads operand sets only. *)
Lemma build_topo_skeleton σ σ' fuel v st :
  same_skeleton σ σ' → build_topo σ' fuel v st = build_topo σ fuel v st.
Proof.
  intros Hs. revert v st. induction fuel as [|fuel IH]; intros v st; [done|].
  simpl. rewrite (same_skeleton_prev σ σ' v Hs).
  destruct (decide (v ∈ st.1)); [done|]. f_equal.
  generalize (Some ({[v]} ∪ st.1, st.2)). generalize (_prev (obj σ v)).
  intros children. induction children as [|child children IHc]; intros acc; [done|].
  simpl. rewrite IHc. f_equal. destruct acc as [st0|]; [simpl; apply IH|done].
Qed.

Lemma topo_of_skeleton σ σ' self :
  same_skeleton σ σ' → topo_of σ' self = topo_of σ self.
Proof.
  intros Hs. unfold topo_of.
  by rewrite <- (same_skeleton_length σ σ' Hs), (build_topo_skeleton σ σ' _ _ _ Hs).
Qed.

Lemma heap_wf_skeleton σ σ' : same_skeleton σ σ' → heap_wf σ → heap_wf σ'.
Proof.
  intros Hs Hwf i. unfold node_wf.
  rewrite (same_skeleton_prev σ σ' i Hs), (same_skeleton_closure σ σ' i Hs). apply Hwf.
Qed.

(** ** A pass, call by call *)

(** A call either fails, leaving the heap as it was, or completes. *)
Lemma call_backward_run c σ :
  call_backward c σ =
  match closure_fails c σ with
  | Some f => (Fail f, σ)
  | None => (Ok (), closure_writes c σ)
  end.
Proof.
  destruct c; simpl; try done; unfold mbind, M_bind, py_pow; simpl;
    by destruct (pow_fails _ _).
Qed.

(** Whether a call fails is decided by values, not by gradients. *)
Lemma closure_fails_skeleton c σ σ' :
  same_skeleton σ σ' → closure_fails c σ' = closure_fails c σ.
Proof.
  intros Hs. destruct c; simpl; try done.
  by destruct (same_skeleton_fields σ σ' self Hs) as (-> & _).
Qed.

Lemma node_fails_skeleton σ σ' node :
  same_skeleton σ σ' →
  closure_fails (_backward (obj σ' node)) σ' = closure_fails (_backward (obj σ node)) σ.
Proof.
  intros Hs. rewrite (same_skeleton_closure σ σ' node Hs). by apply closure_fails_skeleton.
Qed.

Lemma calls_made_skeleton σ σ' nodes :
  same_skeleton σ σ' → calls_made σ' nodes = calls_made σ nodes.
Proof.
  intros Hs. induction nodes as [|node nodes IH]; [done|].
  simpl. rewrite (node_fails_skeleton σ σ' node Hs), IH. done.
Qed.

Lemma pass_fails_skeleton σ σ' nodes :
  same_skeleton σ σ' → pass_fails σ' nodes = pass_fails σ nodes.
Proof.
  intros Hs. induction nodes as [|node nodes IH]; [done|].
  simpl. rewrite (node_fails_skeleton σ σ' node Hs), IH. done.
Qed.

Lemma calls_made_prefix σ nodes : calls_made σ nodes `prefix_of` nodes.
Proof.
  induction nodes as [|node nodes IH]; [done|]. simpl.
  destruct (closure_fails _ _); [apply prefix_nil|by apply prefix_cons].
Qed.

Lemma calls_made_elem σ nodes n : n ∈ calls_made σ nodes → n ∈ nodes.
Proof.
  intros Hn. destruct (calls_made_prefix σ nodes) as [rest Hrest].
  rewrite Hrest. apply elem_of_app. by left.
Qed.

Lemma calls_made_all σ nodes : pass_fails σ nodes = None ↔ calls_made σ nodes = nodes.
Proof.
  induction nodes as [|node nodes IH]; [done|]. simpl.
  destruct (closure_fails _ _); [done|]. rewrite IH. split; [by intros ->|].
  by intros [= ?].
Qed.

(** A walk makes the calls up to the first that fails, and ends with
    that failure. *)
Lemma run_backward_run nodes σ :
  run_backward nodes σ =
  (match pass_fails σ nodes with Some f => Fail f | None => Ok () end,
   pass_writes (calls_made σ nodes) σ).
Proof.
  revert σ. induction nodes as [|node nodes IH]; intros σ; [done|].
  cbn [run_backward pass_fails calls_made]. unfold mbind, M_bind, get.
  rewrite call_backward_run. destruct (closure_fails _ σ) eqn:Hf; [done|].
  pose proof (skeleton_closure_writes (_backward (obj σ node)) σ) as Hs.
  rewrite IH, (pass_fails_skeleton σ _ nodes Hs), (calls_made_skeleton σ _ nodes Hs).
  done.
Qed.

Lemma backward_run σ self topo :
  topo_of σ self = Some topo →
  backward self σ = run_backward (reverse topo) (set_grad self (lit 1) σ).
Proof. unfold backward, mbind, M_bind, get. by intros ->. Qed.

(** The heap [backward] leaves: the seed, then the calls made. *)
Lemma backward_heap σ self topo :
  topo_of σ self = Some topo →
  (backward self σ).2 =
  pass_writes (calls_made σ (reverse topo)) (set_grad self (lit 1) σ).
Proof.
  intros Htopo. rewrite (backward_run σ self topo Htopo), run_backward_run. cbn [snd].
  by rewrite (calls_made_skeleton σ _ _ (skeleton_set_grad self (lit 1) σ)).
Qed.

Lemma backward_outcome σ self topo :
  topo_of σ self = Some topo →
  (backward self σ).1 =
  match pass_fails σ (reverse topo) with Some f => Fail f | None => Ok () end.
Proof.
  intros Htopo. rewrite (backward_run σ self topo Htopo), run_backward_run. cbn [fst].
  by rewrite (pass_fails_skeleton σ _ _ (skeleton_set_grad self (lit 1) σ)).
Qed.

Lemma backward_raises σ self :
  topo_of σ self = None → backward self σ = (Raise RecursionError, σ).
Proof. unfold backward, mbind, M_bind, get. by intros ->. Qed.

Lemma skeleton_backward self σ : same_skeleton σ (backward self σ).2.
Proof.
  destruct (topo_of σ self) as [topo|] eqn:Htopo.
  - rewrite (backward_heap σ self topo Htopo).
    etrans; [apply skeleton_set_grad|apply skeleton_pass_writes].
  - by rewrite backward_raises.
Qed.

(** ** Which gradients a pass writes *)

Lemma obj_bump_ne x g σ j : x ≠ j → obj (bump x g σ) j = obj σ j.
Proof. apply obj_set_grad_ne. Qed.

Lemma grad_bump_eq x g σ : x < length σ → grad (obj (bump x g σ) x) = grad (obj σ x) + g.
Proof. intros Hx. unfold bump. by rewrite grad_set_grad_eq. Qed.

Lemma length_bump x g σ : length (bump x g σ) = length σ.
Proof. apply length_set_grad. Qed.

Lemma closure_writes_other c σ j :
  j ∉ closure_operands c → obj (closure_writes c σ) j = obj σ j.
Proof.
  destruct c; simpl; intros Hj; try done.
  all: rewrite ?obj_bump_ne; [done|set_solver..].
Qed.

Lemma length_closure_writes c σ : length (closure_writes c σ) = length σ.
Proof. symmetry. apply same_skeleton_length, skeleton_closure_writes. Qed.

Lemma closure_operands_below σ i u :
  heap_wf σ → u ∈ closure_operands (_backward (obj σ i)) → u < i.
Proof.
  intros Hwf Hu. destruct (Hwf i) as [Hlt Hc]. rewrite Forall_forall in Hlt.
  apply Hlt. destruct (_backward (obj σ i)); simpl in *; set_solver.
Qed.

(** Walking nodes that are all at most [r] leaves [r] alone. *)
Lemma pass_writes_above σ nodes r :
  heap_wf σ → Forall (λ n, n ≤ r) nodes → obj (pass_writes nodes σ) r = obj σ r.
Proof.
  revert σ. induction nodes as [|node nodes IH]; intros σ Hwf Hle; [done|].
  apply Forall_cons in Hle as [Hnode Hle]. simpl. rewrite IH; [|by eapply heap_wf_skeleton;
    [apply skeleton_closure_writes|] |done].
  apply closure_writes_other. intros Hr.
  pose proof (closure_operands_below σ node r Hwf Hr). lia.
Qed.

(** ** A pass adds to gradients, increment by increment *)

Lemma received_cons v x (g : num) log :
  received v ((x, g) :: log) =
  if decide (x = v) then g :: received v log else received v log.
Proof. unfold received. rewrite filter_cons. simpl. by case_decide. Qed.

Lemma received_app v (log1 log2 : list (id * num)) :
  received v (log1 ++ log2) = received v log1 ++ received v log2.
Proof. unfold received. by rewrite filter_app, fmap_app. Qed.

Lemma grad_bump x g σ v :
  v < length σ →
  grad (obj (bump x g σ) v) = if decide (x = v) then grad (obj σ v) + g else grad (obj σ v).
Proof.
  intros Hv. case_decide as Hx.
  - subst. by apply grad_bump_eq.
  - by rewrite obj_bump_ne.
Qed.

Lemma closure_writes_received c σ v :
  v < length σ →
  grad (obj (closure_writes c σ) v) =
  foldl nadd (grad (obj σ v)) (received v (increments c σ)).
Proof.
  intros Hv. destruct c; simpl; try done.
  all: rewrite ?received_cons, ?grad_bump by (by rewrite ?length_bump).
  all: repeat case_decide; subst; simpl; try done.
Qed.

Lemma pass_writes_received nodes σ v :
  v < length σ →
  grad (obj (pass_writes nodes σ) v) =
  foldl nadd (grad (obj σ v)) (received v (pass_increments nodes σ)).
Proof.
  revert σ. induction nodes as [|node nodes IH]; intros σ Hv; [done|].
  simpl. rewrite received_app, foldl_app, <- closure_writes_received by done.
  apply IH. by rewrite length_closure_writes.
Qed.

(** ** A pass reads and writes only what its nodes refer to *)

Lemma agree_on_obj S σ σ' u : agree_on S σ σ' → u ∈ S → obj σ u = obj σ' u.
Proof. intros Hag Hu. unfold obj. by rewrite (Hag u Hu). Qed.

Lemma bump_agree S x g σ σ' :
  agree_on S σ σ' → agree_on S (bump x g σ) (bump x g σ').
Proof.
  intros Hag u Hu. unfold bump, set_grad. rewrite !list_lookup_alter.
  case_decide as Hx; [|by apply Hag]. subst.
  by rewrite (agree_on_obj S σ σ' u Hag Hu), (Hag u Hu).
Qed.

Lemma closure_writes_agree S c σ σ' :
  agree_on S σ σ' → (∀ u, u ∈ closure_ids c → u ∈ S) →
  agree_on S (closure_writes c σ) (closure_writes c σ').
Proof.
  intros Hag Hids. destruct c as [|a o out|a o out|a p out|a out|a t out]; simpl in *; [done|..].
  - assert (agree_on S (bump a (lit 1 * grad (obj σ out)) σ)
                       (bump a (lit 1 * grad (obj σ' out)) σ')) as Hag1.
    { rewrite (agree_on_obj S σ σ' out Hag) by set_solver. by apply bump_agree. }
    rewrite (agree_on_obj S _ _ out Hag1) by set_solver. by apply bump_agree.
  - assert (agree_on S (bump a (data (obj σ o) * grad (obj σ out)) σ)
                       (bump a (data (obj σ' o) * grad (obj σ' out)) σ')) as Hag1.
    { rewrite (agree_on_obj S σ σ' out Hag), (agree_on_obj S σ σ' o Hag) by set_solver.
      by apply bump_agree. }
    rewrite (agree_on_obj S _ _ out Hag1), (agree_on_obj S _ _ a Hag1) by set_solver.
    by apply bump_agree.
  - rewrite (agree_on_obj S σ σ' out Hag), (agree_on_obj S σ σ' a Hag) by set_solver.
    by apply bump_agree.
  - rewrite (agree_on_obj S σ σ' out Hag) by set_solver. by apply bump_agree.
  - rewrite (agree_on_obj S σ σ' out Hag) by set_solver. by apply bump_agree.
Qed.

Lemma closure_ids_closed S σ node :
  heap_wf σ → node ∈ S → (∀ n u, n ∈ S → u ∈ _prev (obj σ n) → u ∈ S) →
  ∀ u, u ∈ closure_ids (_backward (obj σ node)) → u ∈ S.
Proof.
  intros Hwf Hnode Hclosed u Hu. destruct (Hwf node) as [_ Hc].
  specialize (Hclosed node).
  destruct (_backward (obj σ node)); simpl in *; [set_solver|..].
  all: destruct_and!; subst; set_solver.
Qed.

Lemma pass_writes_agree S nodes σ σ' :
  heap_wf σ → agree_on S σ σ' → (∀ n, n ∈ nodes → n ∈ S) →
  (∀ n u, n ∈ S → u ∈ _prev (obj σ n) → u ∈ S) →
  agree_on S (pass_writes nodes σ) (pass_writes nodes σ').
Proof.
  revert σ σ'. induction nodes as [|node nodes IH]; intros σ σ' Hwf Hag Hnodes Hclosed; [done|].
  simpl. rewrite <- (agree_on_obj S σ σ' node Hag) by set_solver.
  pose proof (skeleton_closure_writes (_backward (obj σ node)) σ) as Hs.
  apply IH.
  - by eapply heap_wf_skeleton.
  - apply closure_writes_agree; [done|]. apply (closure_ids_closed S σ); [done|set_solver|done].
  - set_solver.
  - intros n u Hn. rewrite (same_skeleton_prev _ _ n Hs). by apply Hclosed.
Qed.

(** ** The constructors build well-formed heaps *)

Lemma py_set_elem t u : u ∈ py_set t ↔ u ∈ t.
Proof.
  unfold py_set. destruct t as [|a [|a' [|a'' t]]]; try apply elem_of_remove_dups.
  repeat case_decide; destruct (ord a a'); set_solver.
Qed.

Lemma heap_wf_nil : heap_wf [].
Proof. intros i. unfold obj. rewrite lookup_nil. by split. Qed.

Lemma heap_wf_snoc σ (nd : Value num) :
  heap_wf σ → node_wf (length σ) nd → heap_wf (σ ++ [nd]).
Proof.
  intros Hwf Hnd i. destruct (decide (i < length σ)) as [Hlt|Hge].
  - rewrite obj_app_l by done. apply Hwf.
  - destruct (decide (i = length σ)) as [->|Hne]; [by rewrite obj_snoc|].
    unfold obj. rewrite lookup_ge_None_2; [by split|]. rewrite length_app. simpl. lia.
Qed.

Lemma heap_wf_leaf σ x : heap_wf σ → heap_wf (σ ++ [leaf x]).
Proof. intros Hwf. apply heap_wf_snoc; [done|]. by split. Qed.

Lemma heap_wf_coerced σ other : heap_wf σ → heap_wf (coerced_heap σ other).
Proof. destruct other; [done|apply heap_wf_leaf]. Qed.

Lemma coerced_live σ other :
  operand_live σ other → coerced σ other < length (coerced_heap σ other).
Proof. destruct other; simpl; [done|]. rewrite length_app. simpl. lia. Qed.

Lemma length_coerced σ other : length σ ≤ length (coerced_heap σ other).
Proof. destruct other; simpl; [done|]. rewrite length_app. simpl. lia. Qed.

Lemma node_wf_binary i d g (a o : id) op c :
  a < i → o < i → closure_wf i (py_set [a; o]) c →
  node_wf i (mkValue d g c (py_set [a; o]) op "").
Proof.
  intros Ha Ho Hc. split; [|done]. apply Forall_forall.
  intros u Hu. apply (proj1 (py_set_elem [a; o] u)) in Hu.
  apply elem_of_cons in Hu as [->| ->%list_elem_of_singleton]; done.
Qed.

Lemma node_wf_unary i d g (a : id) op c :
  a < i → closure_wf i (py_set [a]) c → node_wf i (mkValue d g c (py_set [a]) op "").
Proof.
  intros Ha Hc. split; [|done]. apply Forall_forall.
  intros u Hu. apply (proj1 (py_set_elem [a] u)) in Hu.
  by apply list_elem_of_singleton in Hu as ->.
Qed.

Lemma heap_wf_add σ self other :
  heap_wf σ → self < length σ → operand_live σ other →
  heap_wf (__add__ self other σ).2.
Proof.
  intros Hwf Hself Hother. rewrite add_run. simpl.
  pose proof (coerced_live σ other Hother). pose proof (length_coerced σ other).
  apply heap_wf_snoc; [by apply heap_wf_coerced|].
  apply node_wf_binary; [lia|done|]. repeat split; apply py_set_elem; set_solver.
Qed.

Lemma heap_wf_mul σ self other :
  heap_wf σ → self < length σ → operand_live σ other →
  heap_wf (__mul__ self other σ).2.
Proof.
  intros Hwf Hself Hother. rewrite mul_run. simpl.
  pose proof (coerced_live σ other Hother). pose proof (length_coerced σ other).
  apply heap_wf_snoc; [by apply heap_wf_coerced|].
  apply node_wf_binary; [lia|done|]. repeat split; apply py_set_elem; set_solver.
Qed.

Lemma heap_wf_pow σ self p :
  heap_wf σ → self < length σ → heap_wf (__pow__ self (PyNum p) σ).2.
Proof.
  intros Hwf Hself. rewrite pow_run. destruct (pow_fails _ _); [done|].
  simpl. apply heap_wf_snoc; [done|].
  apply node_wf_unary; [done|]. repeat split; apply py_set_elem; set_solver.
Qed.

Lemma heap_wf_exp σ self : heap_wf σ → self < length σ → heap_wf (exp self σ).2.
Proof.
  intros Hwf Hself. rewrite exp_run. destruct (exp_raises _); [done|].
  simpl. apply heap_wf_snoc; [done|].
  apply node_wf_unary; [done|]. repeat split; apply py_set_elem; set_solver.
Qed.

Lemma heap_wf_tanh σ self : heap_wf σ → self < length σ → heap_wf (tanh self σ).2.
Proof.
  intros Hwf Hself. rewrite tanh_run. destruct (tanh_raises _); [done|].
  simpl. apply heap_wf_snoc; [done|].
  apply node_wf_unary; [done|]. repeat split; apply py_set_elem; set_solver.
Qed.

(** ** The seed of a pass *)

Lemma set_grad_set_grad i g g' σ : set_grad i g (set_grad i g' σ) = set_grad i g σ.
Proof. unfold set_grad. by rewrite list_alter_alter_eq. Qed.

(** The seed stays: no call of the pass writes the root's gradient. *)
Lemma backward_seed σ root :
  heap_wf σ → root < length σ → grad (obj (backward root σ).2 root) = lit 1.
Proof.
  intros Hwf Hroot. destruct (topo_of_total σ root Hwf Hroot) as [topo Htopo].
  rewrite (backward_heap σ root topo Htopo), pass_writes_above.
  - by apply grad_set_grad_eq.
  - eapply heap_wf_skeleton; [apply skeleton_set_grad|done].
  - apply Forall_forall. intros u Hu%calls_made_elem. rewrite elem_of_reverse in Hu.
    by eapply topo_of_le.
Qed.

(** ** Neurons and layers *)

Lemma operand_live_prefix σ0 σ (xi : Operand num) :
  σ0 `prefix_of` σ → operand_live σ0 xi → operand_live σ xi.
Proof. intros Hpre%prefix_length. destruct xi; simpl; [lia|done]. Qed.

Lemma coerced_value σ0 σ xi :
  σ0 `prefix_of` σ → operand_live σ0 xi →
  data (obj (coerced_heap σ xi) (coerced σ xi)) = operand_value σ0 xi.
Proof.
  intros Hpre Hlive. destruct xi as [i|r]; simpl in *.
  - by rewrite (obj_prefix σ0 σ).
  - by rewrite obj_snoc.
Qed.

(** One round of the sum: the product, then the addition. *)
Lemma neuron_step_run acc wi xi σ :
  (item ← __mul__ wi xi; __add__ acc (ONode item)) σ =
  let o := coerced σ xi in
  let σ1 := coerced_heap σ xi in
  let σ2 := σ1 ++ [mkValue (data (obj σ1 wi) * data (obj σ1 o)) (lit 0)
                           (MulBw wi o (length σ1)) (py_set [wi; o]) Op_mul ""] in
  (Ok (length σ2),
   σ2 ++ [mkValue (data (obj σ2 acc) + data (obj σ2 (length σ1))) (lit 0)
                  (AddBw acc (length σ1) (length σ2)) (py_set [acc; length σ1])
                  Op_add ""]).
Proof. unfold mbind, M_bind. rewrite mul_run. cbv beta iota zeta. by rewrite add_run. Qed.

Lemma neuron_sum_run σ0 (items : list (id * Operand num)) σ acc :
  σ0 `prefix_of` σ → acc < length σ →
  Forall (λ p, p.1 < length σ0 ∧ operand_live σ0 p.2) items →
  ∃ act σ',
    foldM (λ result '(wi, xi), item ← __mul__ wi xi; __add__ result (ONode item))
          acc items σ = (Ok act, σ') ∧
    σ `prefix_of` σ' ∧ act < length σ' ∧
    data (obj σ' act) =
      foldl (λ a '(wi, xi), a + data (obj σ0 wi) * operand_value σ0 xi)
            (data (obj σ acc)) items ∧
    ∀ σ'', σ' `prefix_of` σ'' → weighted σ'' acc items act.
Proof.
  revert σ acc. induction items as [|[wi xi] items IH]; intros σ acc Hpre Hacc Hlive.
  - exists acc, σ. done.
  - apply Forall_cons in Hlive as [[Hwi Hxi] Hlive]. simpl in Hwi, Hxi.
    cbn [foldM]. unfold mbind at 1, M_bind at 1. rewrite neuron_step_run. cbv zeta.
    set (σ1 := coerced_heap σ xi). set (o := coerced σ xi).
    set (prod := mkValue (data (obj σ1 wi) * data (obj σ1 o)) _ _ _ _ _).
    set (total := mkValue _ _ _ _ _ _).
    assert (σ `prefix_of` σ1) as Hpre1 by (destruct xi; [done|by apply prefix_app_r]).
    assert (length σ ≤ length σ1) as Hlen1 by (by apply prefix_length).
    assert (length σ0 ≤ length σ) as Hlen0 by (by apply prefix_length).
    assert (σ `prefix_of` (σ1 ++ [prod]) ++ [total]) as Hpre2
      by (by do 2 apply prefix_app_r).
    assert (o < length σ1) as Ho.
    { apply coerced_live. by apply (operand_live_prefix σ0). }
    destruct (IH ((σ1 ++ [prod]) ++ [total]) (length (σ1 ++ [prod])))
      as (act & σ' & Hrun & Hpre' & Hact & Hdata & Hbuilt).
    { by etrans. }
    { rewrite !length_app. simpl. lia. }
    { done. }
    exists act, σ'. split_and!; [done|by etrans|done| |].
    + rewrite Hdata. cbn [foldl]. f_equal. rewrite obj_snoc. unfold total. cbn [data].
      rewrite obj_app_l by lia. rewrite obj_snoc.
      rewrite (obj_prefix σ σ1 acc) by done. f_equal.
      unfold prod. cbn [data]. f_equal.
      * f_equal. apply obj_prefix; [by etrans|done].
      * by apply coerced_value.
    + intros σ'' Hpre''.
      assert ((σ1 ++ [prod]) ++ [total] `prefix_of` σ'') as Hall by (by etrans).
      assert (length ((σ1 ++ [prod]) ++ [total]) = S (S (length σ1))) as Hlen2
        by (rewrite !length_app; simpl; lia).
      assert (∀ i, i < S (S (length σ1)) →
                   obj σ'' i = obj ((σ1 ++ [prod]) ++ [total]) i) as Hkeep.
      { intros i Hi. apply obj_prefix; [done|lia]. }
      assert (∀ i, i < length σ1 → obj σ'' i = obj σ1 i) as Hold.
      { intros i Hi. rewrite Hkeep by lia. by rewrite !obj_app_l by (rewrite ?length_app; simpl; lia). }
      assert (obj σ'' (length σ1) = prod) as Hprod.
      { rewrite Hkeep by lia. rewrite obj_app_l by (rewrite length_app; simpl; lia).
        apply obj_snoc. }
      assert (obj σ'' (length (σ1 ++ [prod])) = total) as Htotal.
      { rewrite Hkeep by (rewrite length_app; simpl; lia). apply obj_snoc. }
      exists o, (length σ1), (length (σ1 ++ [prod])). split_and!.
      * destruct xi as [i|r]; [done|]. rewrite Hold by done. apply obj_snoc.
      * rewrite Hprod, !Hold by lia. done.
      * rewrite Htotal, Hprod. unfold total. rewrite Hold by lia.
        rewrite obj_app_l by lia. rewrite obj_snoc. done.
      * apply Hbuilt. done.
Qed.

Lemma Forall_zip_live σ (ws : list id) (x : list (Operand num)) :
  Forall (λ wi, wi < length σ) ws → Forall (operand_live σ) x →
  Forall (λ p, p.1 < length σ ∧ operand_live σ p.2) (zip ws x).
Proof.
  intros Hws. revert x. induction Hws as [|wi ws Hwi Hws IH]; intros x Hx; [done|].
  destruct Hx as [|xi x Hxi Hx]; [done|]. simpl. constructor; [done|by apply IH].
Qed.

(** A neuron called in a heap that holds its parameters: the sum is
    built, then [tanh] raises or adds the output node. *)
Lemma Neuron_call_run σ0 σ (n : Neuron) (x : list (Operand num)) :
  σ0 `prefix_of` σ →
  Forall (λ wi, wi < length σ0) (w n) → b n < length σ0 → Forall (operand_live σ0) x →
  ∃ act σ1,
    Neuron_act n x σ = (Ok act, σ1) ∧ σ `prefix_of` σ1 ∧ act < length σ1 ∧
    data (obj σ1 act) = neuron_sum σ0 n x ∧
    (∀ σ'', σ1 `prefix_of` σ'' → weighted σ'' (b n) (zip (w n) x) act) ∧
    Neuron_call n x σ =
      match tanh_raises (neuron_sum σ0 n x) with
      | Some e => (Raise e, σ1)
      | None =>
          (Ok (length σ1),
           σ1 ++ [mkValue (tanh_formula (neuron_sum σ0 n x)) (lit 0)
                          (TanhBw act (tanh_formula (neuron_sum σ0 n x)) (length σ1))
                          (py_set [act]) Op_tanh ""])
      end.
Proof.
  intros Hpre Hw Hb Hx.
  assert (length σ0 ≤ length σ) as Hlen by (by apply prefix_length).
  destruct (neuron_sum_run σ0 (zip (w n) x) σ (b n))
    as (act & σ1 & Hrun & Hpre1 & Hact & Hdata & Hbuilt);
    [done|lia|by apply Forall_zip_live|].
  rewrite (obj_prefix σ0 σ (b n)) in Hdata by done.
  exists act, σ1. split_and!; [done..|].
  unfold Neuron_call, mbind, M_bind. fold (Neuron_act n x). unfold Neuron_act at 1.
  rewrite Hrun. rewrite tanh_run. rewrite Hdata. fold (neuron_sum σ0 n x).
  by destruct (tanh_raises _).
Qed.

(** The neurons of a layer, called in turn: the first whose [tanh]
    raises ends the call; otherwise there is one output per neuron. *)
Lemma Layer_outs_run σ0 (ns : list Neuron) (x : list (Operand num)) σ :
  σ0 `prefix_of` σ →
  Forall (λ n, Forall (λ wi, wi < length σ0) (w n) ∧ b n < length σ0) ns →
  Forall (operand_live σ0) x →
  ∃ σ', σ `prefix_of` σ' ∧
    match first_raise ((λ n, tanh_raises (neuron_sum σ0 n x)) <$> ns) with
    | Some e => forM (λ n, Neuron_call n x) ns σ = (Raise e, σ')
    | None =>
        ∃ outs,
          forM (λ n, Neuron_call n x) ns σ = (Ok outs, σ') ∧
          Forall2 (λ n o, length σ ≤ o < length σ' ∧ _op (obj σ' o) = Op_tanh ∧
                          data (obj σ' o) = tanh_formula (neuron_sum σ0 n x)) ns outs
    end.
Proof.
  intros Hpre Hns Hx. revert σ Hpre.
  induction Hns as [|n ns [Hw Hb] Hns IH]; intros σ Hpre.
  - exists σ. split; [done|]. by exists [].
  - destruct (Neuron_call_run σ0 σ n x) as (act & σ1 & _ & Hpre1 & _ & _ & _ & Hcall);
      [done..|].
    rewrite fmap_cons. cbn [first_raise forM]. unfold mbind at 1 3, M_bind at 1 3.
    rewrite Hcall. destruct (tanh_raises (neuron_sum σ0 n x)) as [e|].
    { by exists σ1. }
    set (out := mkValue _ _ _ _ _ _).
    destruct (IH (σ1 ++ [out])) as (σ' & Hpre' & Hrest).
    { etrans; [exact Hpre|]. etrans; [exact Hpre1|]. by apply prefix_app_r. }
    assert (σ `prefix_of` σ') as Hpre0.
    { etrans; [exact Hpre1|]. etrans; [|exact Hpre']. by apply prefix_app_r. }
    exists σ'. split; [done|].
    destruct (first_raise _) as [e|].
    { unfold mbind, M_bind. by rewrite Hrest. }
    destruct Hrest as (outs & Hrun & Houts). exists (length σ1 :: outs).
    assert (length σ ≤ length σ1) by (by apply prefix_length).
    assert (length (σ1 ++ [out]) ≤ length σ') as Hlen' by (by apply prefix_length).
    rewrite length_app in Hlen'. simpl in Hlen'.
    split.
    + unfold mbind, M_bind. by rewrite Hrun.
    + constructor.
      * rewrite (obj_prefix (σ1 ++ [out]) σ') by (done || rewrite length_app; simpl; lia).
        rewrite obj_snoc. split_and!; [lia|lia|done|done].
      * eapply Forall2_impl; [exact Houts|]. intros n' o (Hlen & Hop & Hdata).
        rewrite length_app in Hlen. simpl in Hlen. split_and!; [lia|lia|done|done].
Qed.

Lemma Layer_parameters_concat (l : Layer) :
  parameters l = concat (parameters <$> neurons l).
Proof.
  unfold parameters at 1, Layer_parameters.
  assert (∀ (ns : list Neuron) acc,
            foldl (λ params neuron, params ++ parameters neuron) acc ns
            = acc ++ concat (parameters <$> ns)) as Hfold.
  { induction ns as [|n ns IH]; intros acc; simpl; [by rewrite app_nil_r|].
    by rewrite IH, app_assoc. }
  apply Hfold.
Qed.

(** ** Resetting gradients *)

Lemma zero_grads_keep ps σ q :
  grad (obj σ q) = lit 0 → grad (obj (foldl (λ s p, set_grad p (lit 0) s) σ ps) q) = lit 0.
Proof.
  revert σ. induction ps as [|p ps IH]; intros σ Hq; [done|].
  simpl. apply IH. destruct (decide (p = q)) as [->|Hne].
  - destruct (decide (q < length σ)) as [Hlt|Hge]; [by apply grad_set_grad_eq|].
    unfold obj. rewrite lookup_ge_None_2; [done|]. rewrite length_set_grad. lia.
  - by rewrite obj_set_grad_ne.
Qed.

Lemma zero_grads_in ps σ p :
  p ∈ ps → p < length σ → grad (obj (foldl (λ s p, set_grad p (lit 0) s) σ ps) p) = lit 0.
Proof.
  revert σ. induction ps as [|q ps IH]; intros σ Hin Hp; [by apply elem_of_nil in Hin|].
  simpl. apply elem_of_cons in Hin as [->|Hin].
  - apply zero_grads_keep. by apply grad_set_grad_eq.
  - apply IH; [done|by rewrite length_set_grad].
Qed.

Lemma zero_grads_out ps σ v :
  v ∉ ps → obj (foldl (λ s p, set_grad p (lit 0) s) σ ps) v = obj σ v.
Proof.
  revert σ. induction ps as [|q ps IH]; intros σ Hv; [done|].
  apply not_elem_of_cons in Hv as [Hne Hps]. simpl. rewrite IH by done.
  by apply obj_set_grad_ne.
Qed.

Lemma same_skeleton_lookup σ σ' u :
  same_skeleton σ σ' → grad (obj σ u) = grad (obj σ' u) → σ !! u = σ' !! u.
Proof.
  intros Hs Hg. unfold same_skeleton in Hs.
  assert (skeleton <$> σ !! u = skeleton <$> σ' !! u) as Hu
    by (rewrite <- !list_lookup_fmap; by rewrite Hs).
  unfold obj in Hg. destruct (σ !! u) as [nd|], (σ' !! u) as [nd'|]; simpl in *; try done.
  f_equal. destruct nd, nd'. unfold skeleton, with_grad in Hu. simpl in *.
  inversion Hu. by subst.
Qed.

Lemma same_skeleton_seed σ σ' root g :
  same_skeleton σ σ' → set_grad root g σ !! root = set_grad root g σ' !! root.
Proof.
  intros Hs. apply same_skeleton_lookup.
  - etrans; [symmetry; apply skeleton_set_grad|]. etrans; [exact Hs|apply skeleton_set_grad].
  - pose proof (same_skeleton_length σ σ' Hs) as Hlen.
    destruct (decide (root < length σ)) as [Hlt|Hge].
    + rewrite !grad_set_grad_eq by lia. done.
    + unfold obj. rewrite !lookup_ge_None_2; [done|rewrite length_set_grad; lia..].
Qed.

(** Two passes from the same root agree on the reachable nodes when the
    heaps they start from agree there, gradients of non-root nodes
    included. *)
Lemma backward_agree σ σ' root topo :
  heap_wf σ → topo_of σ root = Some topo → same_skeleton σ σ' →
  (∀ v, v ∈ topo → v ≠ root → grad (obj σ v) = grad (obj σ' v)) →
  (backward root σ').1 = (backward root σ).1 ∧
  agree_on topo (backward root σ).2 (backward root σ').2.
Proof.
  intros Hwf Htopo Hs Hg.
  assert (topo_of σ' root = Some topo) as Htopo' by (by rewrite (topo_of_skeleton σ σ')).
  split.
  { rewrite (backward_outcome σ root topo Htopo), (backward_outcome σ' root topo Htopo').
    by rewrite (pass_fails_skeleton σ σ'). }
  rewrite (backward_heap σ root topo Htopo), (backward_heap σ' root topo Htopo').
  rewrite (calls_made_skeleton σ σ' _ Hs). apply pass_writes_agree.
  - eapply heap_wf_skeleton; [apply skeleton_set_grad|done].
  - intros u Hu. destruct (decide (u = root)) as [->|Hne].
    + by apply same_skeleton_seed.
    + unfold set_grad. rewrite !list_lookup_alter_ne by done.
      apply same_skeleton_lookup; [done|by apply Hg].
  - intros n Hn%calls_made_elem. by apply elem_of_reverse.
  - intros n u Hn Hu.
    rewrite (same_skeleton_prev σ _ n (skeleton_set_grad root (lit 1) σ)) in Hu.
    apply (topo_of_reachable σ root topo Htopo).
    apply (topo_of_reachable σ root topo Htopo) in Hn.
    eapply rtc_r; [exact Hn|exact Hu].
Qed.

(** ** The node and the rule of [tanh] *)

Lemma tanh_node_and_rule self σ :
  self < length σ →
  let x := data (obj σ self) in
  let out := length σ in
  match tanh_raises x with
  | Some e => tanh self σ = (Raise e, σ)
  | None =>
      ∃ σ',
        tanh self σ = (Ok out, σ') ∧ σ `prefix_of` σ' ∧
        data (obj σ' out) = (nexp (lit 2 * x) - lit 1) / (nexp (lit 2 * x) + lit 1) ∧
        grad (obj σ' out) = lit 0 ∧ _prev (obj σ' out) = [self] ∧
        _op (obj σ' out) = Op_tanh ∧
        ∀ s, self < length s →
          _backward (obj s out) = _backward (obj σ' out) →
          data (obj s out) = data (obj σ' out) →
          match pow_fails (data (obj s out)) (lit 2) with
          | Some f => call_backward (_backward (obj s out)) s = (Fail f, s)
          | None =>
              ∃ s',
                call_backward (_backward (obj s out)) s = (Ok (), s') ∧
                grad (obj s' self) =
                  grad (obj s self)
                  + (lit 1 - data (obj s out) ** lit 2) * grad (obj s out) ∧
                ∀ v, v ≠ self → obj s' v = obj s v
          end
  end.
Proof.
  intros Hself x out. rewrite tanh_run. fold x. destruct (tanh_raises x); [done|].
  eexists. split; [done|]. split_and!; [by apply prefix_app_r|by rewrite obj_snoc..|].
  intros s Hlive Hclosure Hdata. rewrite Hclosure, Hdata, !obj_snoc. cbn [_backward data].
  rewrite call_backward_run. cbn [closure_fails]. destruct (pow_fails _ _); [done|].
  eexists. split; [done|]. simpl. split.
  - by rewrite grad_bump_eq.
  - intros v Hv. by apply obj_bump_ne.
Qed.

(** ** Checking a heap given in full *)

Lemma heap_wf_lookup σ : (∀ i nd, σ !! i = Some nd → node_wf i nd) → heap_wf σ.
Proof.
  intros Hall i. unfold obj. destruct (σ !! i) as [nd|] eqn:Hi; [by apply Hall|by split].
Qed.

Lemma node_wf_leaf i x : node_wf i (leaf x).
Proof. by split. Qed.

(** ** The example programs, run with the arithmetic left symbolic *)

Lemma fanout_forward_run :
  fanout_forward [] =
  (Ok (0, 1), [leaf (lit 3); mkValue (lit 3 + lit 3) (lit 0) (AddBw 0 0 1) [0] Op_add ""]).
Proof. reflexivity. Qed.

Lemma fanout_script_run :
  (fanout_script []).1 = Ok ((lit 0 + lit 1 * lit 1) + lit 1 * lit 1).
Proof. vm_compute. reflexivity. Qed.

(** A pass in which no call fails. *)
Lemma backward_eval σ root topo :
  topo_of σ root = Some topo → pass_fails σ (reverse topo) = None →
  backward root σ = (Ok (), pass_writes (reverse topo) (set_grad root (lit 1) σ)).
Proof.
  intros Htopo Hf. rewrite (surjective_pairing (backward root σ)).
  rewrite (backward_outcome σ root topo Htopo), (backward_heap σ root topo Htopo), Hf.
  apply calls_made_all in Hf. by rewrite Hf.
Qed.

Lemma tanh_raises_None (n : num) :
  tanh_raises n = None →
  exp_raises (lit 2 * n) = None ∧
  div_raises (nexp (lit 2 * n) - lit 1) (nexp (lit 2 * n) + lit 1) = None.
Proof. unfold tanh_raises. by destruct (exp_raises _). Qed.

Lemma tanh_forward_run :
  tanh_raises (lit 0) = None →
  tanh_forward [] =
  (Ok (0, 1),
   [leaf (lit 0);
    mkValue (tanh_formula (lit 0)) (lit 0) (TanhBw 0 (tanh_formula (lit 0)) 1) [0]
            Op_tanh ""]).
Proof.
  intros Ht. unfold tanh_forward, mbind, M_bind. rewrite Value_init_run.
  rewrite tanh_run.
  cbn [app length obj lookup list_lookup default from_option Datatypes.id data].
  by rewrite Ht.
Qed.

Lemma tanh_script_run :
  tanh_raises (lit 0) = None → pow_fails (tanh_formula (lit 0)) (lit 2) = None →
  (tanh_script []).1 = Ok (lit 0 + (lit 1 - tanh_formula (lit 0) ** lit 2) * lit 1).
Proof.
  intros Ht Hp. unfold tanh_script, mbind at 1, M_bind at 1.
  rewrite (tanh_forward_run Ht). unfold mbind, M_bind.
  rewrite (backward_eval _ 1 [0; 1]); [reflexivity|reflexivity|].
  cbn [reverse rev_append pass_fails obj lookup list_lookup default from_option
       Datatypes.id _backward closure_fails].
  by rewrite Hp.
Qed.

Lemma shared_forward_run x0 :
  shared_forward x0 [] =
  (Ok (0, 2, 5),
   [leaf x0; leaf (lit 3);
    mkValue (x0 * lit 3) (lit 0) (MulBw 0 1 2) (py_set [0; 1]) Op_mul "";
    leaf (lit 5);
    mkValue ((x0 * lit 3) * lit 5) (lit 0) (MulBw 2 3 4) (py_set [2; 3]) Op_mul "";
    mkValue (x0 * lit 3 + (x0 * lit 3) * lit 5) (lit 0) (AddBw 2 4 5) (py_set [2; 4])
            Op_add ""]).
Proof. reflexivity. Qed.

Lemma shared_topo_run x0 :
  topo_of (shared_forward x0 []).2 5 = Some (shared_topo (ord 0 1) (ord 2 3) (ord 2 4)).
Proof.
  rewrite shared_forward_run. unfold py_set.
  destruct (ord 0 1), (ord 2 3), (ord 2 4); vm_compute; reflexivity.
Qed.

Lemma shared_script_run x0 :
  (shared_script x0 []).1 =
  Ok (let s_grad_from_d : num := lit 0 + lit 1 * lit 1 in
      let m_grad : num := lit 0 + lit 1 * lit 1 in
      let s_grad : num := s_grad_from_d + lit 5 * m_grad in
      if ord 2 4
      then (lit 0 + lit 3 * s_grad) + lit 3 * s_grad
      else (lit 0 + lit 3 * s_grad_from_d) + lit 3 * s_grad).
Proof.
  unfold shared_script, mbind at 1, M_bind at 1. rewrite shared_forward_run. unfold py_set.
  destruct (ord 0 1), (ord 2 3), (ord 2 4); vm_compute; reflexivity.
Qed.

Lemma consumers_forward_run a0 :
  consumers_forward a0 [] =
  (Ok (0, 2, 3, 4),
   [leaf a0; leaf (lit 3);
    mkValue (a0 * lit 3) (lit 0) (MulBw 0 1 2) (py_set [0; 1]) Op_mul "";
    mkValue ((a0 * lit 3) * a0) (lit 0) (MulBw 2 0 3) (py_set [2; 0]) Op_mul "";
    mkValue (a0 * lit 3 + (a0 * lit 3) * a0) (lit 0) (AddBw 2 3 4) (py_set [2; 3])
            Op_add ""]).
Proof. reflexivity. Qed.

Lemma consumers_script_run a0 :
  (consumers_script a0 []).1 =
  Ok (let m_grad : num := lit 0 + lit 1 * lit 1 in
      let s_grad_from_d : num := lit 0 + lit 1 * lit 1 in
      let s_grad : num := s_grad_from_d + a0 * m_grad in
      let from_m : num := (a0 * lit 3) * m_grad in
      (if ord 2 3
       then ((lit 0 + from_m) + lit 3 * s_grad) + lit 3 * s_grad
       else ((lit 0 + lit 3 * s_grad_from_d) + from_m) + lit 3 * s_grad,
       s_grad, m_grad)).
Proof.
  unfold consumers_script, mbind at 1, M_bind at 1. rewrite consumers_forward_run.
  unfold py_set. cbn [decide decide_rel Nat.eq_dec].
  destruct (ord 0 1), (ord 2 0), (ord 2 3); vm_compute; reflexivity.
Qed.

(** What the closures of [s] and [m] add to [a.grad] when they are run
    on the heap [backward] leaves. *)
Lemma consumers_contributions_run a0 :
  let σ' := (backward 4 (consumers_forward a0 []).2).2 in
  received 0 (increments (_backward (obj σ' 2)) σ' ++ increments (_backward (obj σ' 3)) σ')
  = [lit 3 * ((lit 0 + lit 1 * lit 1) + a0 * (lit 0 + lit 1 * lit 1));
     (a0 * lit 3) * (lit 0 + lit 1 * lit 1)].
Proof.
  cbv zeta. rewrite consumers_forward_run. cbn [snd].
  unfold py_set. cbn [decide decide_rel Nat.eq_dec].
  destruct (ord 0 1), (ord 2 0), (ord 2 3); vm_compute; reflexivity.
Qed.

Lemma neuron_forward_run :
  tanh_raises (lit 0 + lit 0 * lit 1) = None →
  neuron_forward [] =
  (Ok (mkNeuron [0] 1, 5),
   [leaf (lit 0); leaf (lit 0); leaf (lit 1);
    mkValue (lit 0 * lit 1) (lit 0) (MulBw 0 2 3) (py_set [0; 2]) Op_mul "";
    mkValue (lit 0 + lit 0 * lit 1) (lit 0) (AddBw 1 3 4) (py_set [1; 3]) Op_add "";
    mkValue (tanh_formula (lit 0 + lit 0 * lit 1)) (lit 0)
            (TanhBw 4 (tanh_formula (lit 0 + lit 0 * lit 1)) 5) [4] Op_tanh ""]).
Proof.
  intros Ht.
  assert (Neuron_act (mkNeuron [0] 1) [ONum (lit 1)] [leaf (lit 0); leaf (lit 0)] =
          (Ok 4, [leaf (lit 0); leaf (lit 0); leaf (lit 1);
                  mkValue (lit 0 * lit 1) (lit 0) (MulBw 0 2 3) (py_set [0; 2]) Op_mul "";
                  mkValue (lit 0 + lit 0 * lit 1) (lit 0) (AddBw 1 3 4) (py_set [1; 3])
                          Op_add ""])) as Hact by reflexivity.
  unfold neuron_forward, mbind at 1, M_bind at 1.
  change (Neuron_init [lit 0] (lit 0) [])
    with (Ok (mkNeuron [0] 1), [leaf (lit 0); leaf (lit 0)] : Heap num).
  cbv beta iota. unfold Neuron_call, mbind, M_bind. rewrite Hact, tanh_run.
  cbn [length obj lookup list_lookup default from_option Datatypes.id data].
  by rewrite Ht.
Qed.

Lemma neuron_topo_run :
  topo_of neuron_heap 5 =
  Some ((if ord 1 3 then [1] ++ (if ord 0 2 then [0; 2] else [2; 0]) ++ [3]
         else (if ord 0 2 then [0; 2] else [2; 0]) ++ [3; 1]) ++ [4; 5]).
Proof.
  unfold neuron_heap, py_set. cbn [decide decide_rel Nat.eq_dec].
  destruct (ord 0 2), (ord 1 3); vm_compute; reflexivity.
Qed.

Lemma reset_script_run :
  tanh_raises (lit 0 + lit 0 * lit 1) = None →
  pow_fails (tanh_formula (lit 0 + lit 0 * lit 1)) (lit 2) = None →
  (reset_script []).1 =
  Ok (let t : num := tanh_formula (lit 0 + lit 0 * lit 1) in
      let from_out : num := (lit 1 - t ** lit 2) * lit 1 in
      let act_grad1 : num := lit 0 + from_out in
      let prod_grad1 : num := lit 0 + lit 1 * act_grad1 in
      let act_grad2 : num := act_grad1 + from_out in
      let prod_grad2 : num := prod_grad1 + lit 1 * act_grad2 in
      ([lit 0 + lit 1 * prod_grad1; lit 0 + lit 1 * act_grad1],
       [lit 0; lit 0],
       [lit 0 + lit 1 * prod_grad2; lit 0 + lit 1 * act_grad2])).
Proof.
  intros Ht Hp.
  assert (∀ σ topo, same_skeleton neuron_heap σ → topo_of neuron_heap 5 = Some topo →
            backward 5 σ = (Ok (), pass_writes (reverse topo) (set_grad 5 (lit 1) σ)))
    as Hback.
  { intros σ topo Hs Htopo. apply backward_eval; [by rewrite (topo_of_skeleton neuron_heap)|].
    rewrite (pass_fails_skeleton neuron_heap σ _ Hs). clear Hs. revert Htopo.
    rewrite neuron_topo_run. intros [= <-].
    destruct (ord 0 2), (ord 1 3);
      cbn [app reverse rev_append pass_fails neuron_heap obj lookup list_lookup default
           from_option Datatypes.id _backward closure_fails]; by rewrite Hp. }
  unfold reset_script, mbind at 1, M_bind at 1. rewrite (neuron_forward_run Ht).
  fold neuron_heap. cbv beta iota.
  unfold mbind at 1, M_bind at 1.
  rewrite (Hback neuron_heap _ ltac:(done) neuron_topo_run).
  cbv beta iota.
  set (σ1 := pass_writes _ _).
  assert (same_skeleton neuron_heap σ1) as Hs1.
  { etrans; [apply (skeleton_set_grad 5 (lit 1))|apply skeleton_pass_writes]. }
  unfold mbind at 1, M_bind at 1, grads at 1, get at 1. cbv beta iota.
  unfold mbind at 1, M_bind at 1, mret at 1, M_ret at 1. cbv beta iota.
  unfold mbind at 1, M_bind at 1, zero_grad at 1, modify at 1. cbv beta iota.
  set (σ2 := foldl _ σ1 _).
  assert (same_skeleton neuron_heap σ2) as Hs2.
  { etrans; [exact Hs1|apply skeleton_zero_grads]. }
  unfold mbind at 1, M_bind at 1, grads at 1, get at 1. cbv beta iota.
  unfold mbind at 1, M_bind at 1, mret at 1, M_ret at 1. cbv beta iota.
  unfold mbind at 1, M_bind at 1.
  rewrite (Hback σ2 _ Hs2 neuron_topo_run). cbv beta iota.
  subst σ2 σ1. unfold neuron_heap, py_set. cbn [decide decide_rel Nat.eq_dec].
  destruct (ord 0 2), (ord 1 3); vm_compute; reflexivity.
Qed.

End Facts.

(** Checks one node of a heap given in full. *)
Ltac node_wf_tac :=
  try apply node_wf_leaf;
  unfold node_wf; simpl;
  try match goal with |- context [if ?test then _ else _] => destruct test end;
  (split; [repeat constructor; lia | repeat split; set_solver]).

Section ExampleHeaps.
Context {num : Type} `{Arith num} `{SetOrder}.
Local Open Scope num_scope.

Lemma fanout_heap_wf : heap_wf (fanout_forward []).2.
Proof.
  rewrite fanout_forward_run. cbn [snd]. apply heap_wf_lookup. intros i nd Hi.
  destruct i as [|[|i]]; [inversion Hi; subst; clear Hi..|done].
  all: node_wf_tac.
Qed.

Lemma shared_heap_wf x0 : heap_wf (shared_forward x0 []).2.
Proof.
  rewrite shared_forward_run. cbn [snd]. apply heap_wf_lookup. intros i nd Hi.
  destruct i as [|[|[|[|[|[|i]]]]]]; [inversion Hi; subst; clear Hi..|done].
  all: node_wf_tac.
Qed.

Lemma shared_heap_zero_grads x0 v : grad (obj (shared_forward x0 []).2 v) = lit 0.
Proof.
  rewrite shared_forward_run. cbn [snd].
  by destruct v as [|[|[|[|[|[|v]]]]]].
Qed.

Lemma shared_heap_reachable x0 :
  reachable (shared_forward x0 []).2 5 2 ∧ reachable (shared_forward x0 []).2 5 0.
Proof.
  assert (operand_of (shared_forward x0 []).2 5 2) as H52.
  { unfold operand_of. rewrite shared_forward_run. cbn [snd].
    change (2 ∈ py_set [2; 4]). apply py_set_elem. set_solver. }
  assert (operand_of (shared_forward x0 []).2 2 0) as H20.
  { unfold operand_of. rewrite shared_forward_run. cbn [snd].
    change (0 ∈ py_set [0; 1]). apply py_set_elem. set_solver. }
  split; [by apply rtc_once|]. eapply rtc_l; [exact H52|by apply rtc_once].
Qed.

Lemma neuron_heap_wf : heap_wf neuron_heap.
Proof.
  apply heap_wf_lookup. intros i nd Hi.
  destruct i as [|[|[|[|[|[|i]]]]]]; [inversion Hi; subst; clear Hi..|done].
  all: node_wf_tac.
Qed.

Lemma consumers_heap_wf a0 : heap_wf (consumers_forward a0 []).2.
Proof.
  rewrite consumers_forward_run. cbn [snd]. apply heap_wf_lookup. intros i nd Hi.
  destruct i as [|[|[|[|[|i]]]]]; [inversion Hi; subst; clear Hi..|done].
  all: node_wf_tac.
Qed.

Lemma consumers_heap_zero_grads a0 v : grad (obj (consumers_forward a0 []).2 v) = lit 0.
Proof.
  rewrite consumers_forward_run. cbn [snd].
  by destruct v as [|[|[|[|[|v]]]]].
Qed.

End ExampleHeaps.

(** * The claims *)

Section Claims.
Context {num : Type} `{Arith num} `{SetOrder}.
Local Open Scope num_scope.

(** C10: no engine operation mutates an existing node except through its
    gradient.  Every forward operation ([+], [*], [**], [exp], [tanh] and
    the derived negation, subtraction and division) only allocates: the
    heap before is a prefix of the heap after, so each object that existed
    keeps its value, gradient, operand set, operator tag, closure and
    label.  [backward] keeps the number of objects and, at every object,
    the value, the operand set, the operator tag, the closure and the
    label.  Both hold as well when the operation or the pass fails. *)
Theorem C10_only_gradients_are_mutated :
  (∀ self other, only_allocates (__add__ self other)) ∧
  (∀ self other, only_allocates (__mul__ self other)) ∧
  (∀ self other, only_allocates (__pow__ self other)) ∧
  (∀ self, only_allocates (exp self)) ∧
  (∀ self, only_allocates (tanh self)) ∧
  (∀ self, only_allocates (__neg__ self)) ∧
  (∀ self other, only_allocates (__sub__ self other)) ∧
  (∀ self other, only_allocates (__truediv__ self other)) ∧
  (∀ self (σ : Heap num),
     let σ' := (backward self σ).2 in
     length σ' = length σ ∧
     ∀ i, data (obj σ' i) = data (obj σ i) ∧ _prev (obj σ' i) = _prev (obj σ i) ∧
          _op (obj σ' i) = _op (obj σ i) ∧ _backward (obj σ' i) = _backward (obj σ i) ∧
          label (obj σ' i) = label (obj σ i)).
Proof.
  split_and!.
  - apply only_allocates_add.
  - apply only_allocates_mul.
  - apply only_allocates_pow.
  - apply only_allocates_exp.
  - apply only_allocates_tanh.
  - apply only_allocates_neg.
  - apply only_allocates_sub.
  - apply only_allocates_truediv.
  - intros self σ σ'. pose proof (skeleton_backward self σ) as Hs. split.
    + symmetry. by apply same_skeleton_length.
    + intros i. by apply same_skeleton_fields.
Qed.

(** C6: [a ** p] with [p] a [Value] (or any object that is not an int or a
    float) fails on the [assert] — the error the specification calls
    InvalidExponent — and leaves the heap exactly as it was. *)
Theorem C6_pow_rejects_non_numbers :
  ∀ self (σ : Heap num),
    (∀ p, __pow__ self (PyValue p) σ = (Raise AssertionError, σ)) ∧
    __pow__ self PyOther σ = (Raise AssertionError, σ).
Proof. done. Qed.

(** C5: on a well-formed (hence acyclic) heap, [backward(root)] first
    builds the order on the heap as it found it, then sets [root.grad] to
    [1] whatever it was, and only then walks the order.  After the call
    the root's gradient is [1]; the result does not depend on the root's
    prior gradient; and no other node is reset: the gradient of every
    other node is its gradient before the call with the increments of this
    pass added to it one after the other.  The calls of the pass are all
    those of the order when [backward] returns, and those before the
    failing one when a closure fails. *)
Theorem C5_backward_seeds_the_root_and_accumulates (σ : Heap num) (root : id) :
  heap_wf σ → root < length σ →
  ∃ topo,
    topo_of σ root = Some topo ∧
    let seeded := set_grad root (lit 1) σ in
    let σ' := (run_backward (reverse topo) seeded).2 in
    let made := calls_made seeded (reverse topo) in
    backward root σ = run_backward (reverse topo) seeded ∧
    ((backward root σ).1 = Ok () ↔ made = reverse topo) ∧
    grad (obj seeded root) = lit 1 ∧
    (∀ v, v ≠ root → obj seeded v = obj σ v) ∧
    grad (obj σ' root) = lit 1 ∧
    (∀ g, backward root (set_grad root g σ) = backward root σ) ∧
    (∀ v, v ≠ root → v < length σ →
       grad (obj σ' v) =
       foldl nadd (grad (obj σ v)) (received v (pass_increments made seeded))).
Proof.
  intros Hwf Hroot. destruct (topo_of_total σ root Hwf Hroot) as [topo Htopo].
  exists topo. split; [done|]. cbv zeta.
  pose proof (backward_run σ root topo Htopo) as Hrun. split_and!.
  - done.
  - rewrite Hrun, run_backward_run. cbn [fst]. rewrite <- calls_made_all.
    destruct (pass_fails _ _); split; done.
  - by apply grad_set_grad_eq.
  - intros v Hv. by apply obj_set_grad_ne.
  - rewrite <- Hrun. by apply backward_seed.
  - intros g. rewrite Hrun.
    rewrite (backward_run (set_grad root g σ) root topo)
      by (by rewrite (topo_of_skeleton σ (set_grad root g σ) root)
            by apply skeleton_set_grad).
    by rewrite set_grad_set_grad.
  - intros v Hv Hlen. rewrite run_backward_run. cbn [snd].
    rewrite pass_writes_received by (by rewrite length_set_grad).
    by rewrite obj_set_grad_ne.
Qed.

(** C8, as the code has it: a neuron with [n] weights applied to [n]
    inputs builds, by the engine's [*] and [+], a product node for every
    pair of a weight and an input and a sum node that adds it to the
    running result, starting from the bias; the last sum [act] holds the
    bias plus the [n] products.  Then [tanh] is applied to [act]: when
    [math.exp] (or the division) raises on that sum the call raises the
    same exception, and otherwise it returns a fresh [tanh] node over
    [act] whose value is [(e^{2s} - 1) / (e^{2s} + 1)].  [parameters()]
    is the weights followed by the bias. *)
Theorem C8_neuron_forward_and_parameters
    (self : Neuron) (x : list (Operand num)) (σ : Heap num) :
  length x = length (w self) →
  Forall (λ wi, wi < length σ) (w self) → b self < length σ →
  Forall (operand_live σ) x →
  let s := foldl (λ acc '(wi, xi), acc + data (obj σ wi) * operand_value σ xi)
                 (data (obj σ (b self))) (zip (w self) x) in
  ∃ act σ1,
    Neuron_act self x σ = (Ok act, σ1) ∧ σ `prefix_of` σ1 ∧
    length (zip (w self) x) = length (w self) ∧
    weighted σ1 (b self) (zip (w self) x) act ∧
    data (obj σ1 act) = s ∧
    match tanh_raises s with
    | Some e => Neuron_call self x σ = (Raise e, σ1)
    | None =>
        ∃ out σ',
          Neuron_call self x σ = (Ok out, σ') ∧ σ1 `prefix_of` σ' ∧
          weighted σ' (b self) (zip (w self) x) act ∧
          obj σ' out =
            mkValue ((nexp (lit 2 * s) - lit 1) / (nexp (lit 2 * s) + lit 1)) (lit 0)
                    (TanhBw act ((nexp (lit 2 * s) - lit 1) / (nexp (lit 2 * s) + lit 1)) out)
                    [act] Op_tanh ""
    end ∧
    parameters self = w self ++ [b self].
Proof.
  intros Hlen Hw Hb Hx s.
  destruct (Neuron_call_run σ σ self x)
    as (act & σ1 & Hact & Hpre & _ & Hdata & Hbuilt & Hcall); [done..|].
  change (neuron_sum σ self x) with s in Hdata, Hcall. exists act, σ1. split_and!.
  - done.
  - done.
  - by rewrite length_zip_with, Hlen, Nat.min_id.
  - by apply Hbuilt.
  - done.
  - destruct (tanh_raises s); [done|].
    eexists _, _. split; [exact Hcall|].
    split_and!; [by apply prefix_app_r|apply Hbuilt; by apply prefix_app_r|].
    by rewrite obj_snoc.
  - done.
Qed.

(** C9, as the code has it: a layer calls its neurons in order on the
    shared input.  The first neuron whose [tanh] raises ends the call
    with that exception; when none does, the layer returns one output per
    neuron, in neuron order, each the fresh [tanh] node of that neuron —
    the node itself with exactly one neuron, the list otherwise.
    [parameters()] is the concatenation of the neurons' parameters, in
    neuron order. *)
Theorem C9_layer_forward_and_parameters
    (self : Layer) (x : list (Operand num)) (σ : Heap num) :
  Forall (λ n, Forall (λ wi, wi < length σ) (w n) ∧ b n < length σ) (neurons self) →
  Forall (operand_live σ) x →
  (layer_raises σ self x = None ↔
   ∀ n, n ∈ neurons self → tanh_raises (neuron_sum σ n x) = None) ∧
  (∃ σ', σ `prefix_of` σ' ∧
     match layer_raises σ self x with
     | Some e => Layer_call self x σ = (Raise e, σ')
     | None =>
         ∃ outs,
           forM (λ n, Neuron_call n x) (neurons self) σ = (Ok outs, σ') ∧
           Forall2 (λ n o, length σ ≤ o < length σ' ∧ _op (obj σ' o) = Op_tanh ∧
                           data (obj σ' o) = tanh_formula (neuron_sum σ n x))
                   (neurons self) outs ∧
           (length (neurons self) = 1 →
              ∃ o, outs = [o] ∧ Layer_call self x σ = (Ok (Single o), σ')) ∧
           (length (neurons self) ≠ 1 → Layer_call self x σ = (Ok (Many outs), σ'))
     end) ∧
  parameters self = concat (parameters <$> neurons self).
Proof.
  intros Hns Hx. split_and!; [| |apply Layer_parameters_concat].
  - unfold layer_raises. clear Hns. induction (neurons self) as [|n ns IH]; simpl.
    + split; [|done]. by intros _ n' Hn'%elem_of_nil.
    + destruct (tanh_raises (neuron_sum σ n x)) as [e|] eqn:Hn.
      * split; [done|]. intros Hall. rewrite <- Hn. apply Hall. by left.
      * rewrite IH. split.
        -- intros Hall n' [->|Hn']%elem_of_cons; [done|by apply Hall].
        -- intros Hall n' Hn'. apply Hall. by right.
  - destruct (Layer_outs_run σ (neurons self) x σ) as (σ' & Hpre & Hrun); [done..|].
    exists σ'. split; [done|]. unfold layer_raises.
    destruct (first_raise _) as [e|].
    + unfold Layer_call, mbind, M_bind. by rewrite Hrun.
    + destruct Hrun as (outs & Hrun & Houts). exists outs.
      pose proof (Forall2_length _ _ _ Houts) as Hlen.
      assert (Layer_call self x σ =
              (Ok (match outs with [o] => Single o | _ => Many outs end), σ')) as Hcall.
      { unfold Layer_call, mbind, M_bind. by rewrite Hrun. }
      split_and!; [done|done| |].
      * intros H1. rewrite H1 in Hlen. destruct outs as [|o [|o' outs]]; try done.
        by exists o.
      * intros H1. rewrite Hcall.
        destruct outs as [|o [|o' outs]]; done || (simpl in Hlen; lia).
Qed.

(** C3, as the code has it: [zero_grad] returns, sets the gradient of
    every parameter to [0] and touches no other object, so the gradients
    the first pass left on the intermediate nodes stay.  From any heap
    that differs from the one [zero_grad] leaves in gradients only and in
    which every node reachable from the root, the root apart, has
    gradient [0] — the intermediate nodes reset as well, by whatever
    means — [backward] from the same root ends as the first call did
    and leaves on every reachable node the gradient the first call
    left. *)
Theorem C3_zero_grad_then_backward_again
    {T} `{Module T} (self : T) (σ : Heap num) (root : id) :
  heap_wf σ → root < length σ →
  (∀ v, reachable σ root v → grad (obj σ v) = lit 0) →
  let σ1 := (backward root σ).2 in
  let σ2 := (zero_grad self σ1).2 in
  (zero_grad self σ1).1 = Ok () ∧
  (∀ p, p ∈ parameters self → p < length σ → grad (obj σ2 p) = lit 0) ∧
  (∀ v, v ∉ parameters self → obj σ2 v = obj σ1 v) ∧
  (∀ s, same_skeleton σ2 s →
        (∀ v, reachable σ root v → v ≠ root → grad (obj s v) = lit 0) →
        (backward root s).1 = (backward root σ).1 ∧
        ∀ v, reachable σ root v → grad (obj (backward root s).2 v) = grad (obj σ1 v)).
Proof.
  intros Hwf Hroot Hzero σ1 σ2.
  destruct (topo_of_total σ root Hwf Hroot) as [topo Htopo].
  pose proof (skeleton_backward root σ) as Hs1. fold σ1 in Hs1.
  assert (same_skeleton σ1 σ2) as Hs2 by apply skeleton_zero_grads.
  split_and!.
  - done.
  - intros p Hp Hlen. apply zero_grads_in; [done|].
    by rewrite <- (same_skeleton_length σ σ1).
  - intros v Hv. by apply zero_grads_out.
  - intros s Hs Hrest.
    destruct (backward_agree σ s root topo) as [Hout Hag]; [done|done| | |].
    { etrans; [exact Hs1|]. by etrans. }
    { intros u Hu Hne. apply (topo_of_reachable σ root topo Htopo) in Hu.
      by rewrite (Hzero u Hu), (Hrest u Hu Hne). }
    split; [done|]. intros v Hv. symmetry. f_equal.
    apply (agree_on_obj topo); [done|].
    by apply (topo_of_reachable σ root topo Htopo).
Qed.

(** C2, where the code departs from it: [build_topo] appends a node on
    every arrival, not only on the first.  In the graph of
    [shared_forward] the node [s] (object 2) is an operand of the root
    [d] (object 5) and of [d]'s other operand [m]; whatever the iteration
    order of the operand sets, the sequence built from [d] holds exactly
    the nodes reachable from [d], but [s] twice. *)
Theorem C2_shared_operand_is_appended_twice (x0 : num) :
  let σ := (shared_forward x0 []).2 in
  let topo := shared_topo (ord 0 1) (ord 2 3) (ord 2 4) in
  heap_wf σ ∧ reachable σ 5 2 ∧
  topo_of σ 5 = Some topo ∧
  (∀ u, u ∈ topo ↔ reachable σ 5 u) ∧
  length (filter (λ u, u = 2) topo) = 2.
Proof.
  cbv zeta. split_and!.
  - apply shared_heap_wf.
  - apply shared_heap_reachable.
  - apply shared_topo_run.
  - apply topo_of_reachable, shared_topo_run.
  - by destruct (ord 0 1), (ord 2 3), (ord 2 4).
Qed.

End Claims.

(** * The claims with numbers in them *)

(** ** Arithmetic in the reals *)

#[local] Existing Instance RArith.

Lemma Int_part_IZR z : Int_part (IZR z) = z.
Proof. symmetry. apply Int_part_spec. lra. Qed.

Lemma Rpy_pow_int x z : Rpy_pow x (IZR z) = powerRZ x z.
Proof.
  unfold Rpy_pow. rewrite Int_part_IZR. by destruct (Req_dec_T (IZR z) (IZR z)).
Qed.

Lemma Rpy_pow_2 x : Rpy_pow x 2 = (x * x)%R.
Proof. rewrite Rpy_pow_int. simpl. lra. Qed.

Lemma R_tanh_formula_0 (x : R) : x = 0%R → @tanh_formula R RArith x = 0%R.
Proof.
  intros ->. unfold tanh_formula. simpl. rewrite Rmult_0_r, exp_0.
  unfold Rdiv. lra.
Qed.

Lemma derivable_pt_lim_eq (f g : R → R) (x l l' : R) :
  (∀ z, f z = g z) → l = l' → derivable_pt_lim f x l → derivable_pt_lim g x l'.
Proof. intros Hfg <- Hf. by apply (derivable_pt_lim_ext f g). Qed.

Lemma derivable_pt_lim_linear (c d x : R) :
  derivable_pt_lim (λ z, c * z + d)%R x c.
Proof.
  apply (derivable_pt_lim_eq (mult_real_fct c Ranalysis1.id + fct_cte d)%F _ x (c * 1 + 0)%R).
  - intros z. reflexivity.
  - lra.
  - apply derivable_pt_lim_plus; [|apply derivable_pt_lim_const].
    apply derivable_pt_lim_scal, derivable_pt_lim_id.
Qed.

(** In the reals [tanh] never raises: [e^(2x) + 1] is not zero. *)
Lemma R_tanh_raises (x : R) : @tanh_raises R RArith x = None.
Proof.
  unfold tanh_raises. simpl. unfold Rdiv_raises.
  destruct (Req_dec_T _ _) as [Heq|]; [|done].
  pose proof (exp_pos (2 * x)). lra.
Qed.

(** An integer power fails only for [0] to a negative power. *)
Lemma Rpow_fails_int (x : R) (z : Z) :
  x ≠ 0%R ∨ (0 ≤ z)%Z → Rpow_fails x (IZR z) = None.
Proof.
  intros Hok. unfold Rpow_fails. rewrite Int_part_IZR.
  destruct (Req_dec_T x 0) as [->|Hx].
  - destruct (Rlt_dec (IZR z) 0) as [Hz|]; [|done].
    destruct Hok as [?|Hz']; [done|]. apply IZR_le in Hz'. lra.
  - destruct (Rlt_dec x 0); [|done]. by destruct (Req_dec_T (IZR z) (IZR z)).
Qed.

Lemma Rpow_fails_2 (x : R) : Rpow_fails x 2 = None.
Proof. apply Rpow_fails_int. right. lia. Qed.

Lemma Rpow_fails_neg1 (x : R) : x ≠ 0%R → Rpow_fails x (-1) = None.
Proof. intros Hx. apply Rpow_fails_int. by left. Qed.

Lemma Rpow_fails_neg2 (x : R) : x ≠ 0%R → Rpow_fails x (-1 - 1) = None.
Proof.
  intros Hx. replace (-1 - 1)%R with (IZR (-2)) by lra. apply Rpow_fails_int. by left.
Qed.

Lemma Rpow_fails_pos (x y : R) : (0 < x)%R → Rpow_fails x y = None.
Proof.
  intros Hx. unfold Rpow_fails.
  destruct (Req_dec_T x 0); [lra|]. destruct (Rlt_dec x 0); [lra|done].
Qed.

(** ** Arithmetic in binary64 *)

(** [tanh] of a float [x] raises [OverflowError] when the C library's
    [exp] overflows on [2 * x]. *)
Lemma float_tanh_overflows libm_exp libm_pow (x : float) :
  PrimFloat.is_finite (2 * x) = true → libm_exp (2 * x)%float = infinity →
  @tanh_raises float (FloatArith libm_exp libm_pow) x = Some OverflowError.
Proof.
  intros Hfin Hinf. unfold tanh_raises.
  cbn [exp_raises FloatArith lit nmul]. change (float_of_Z 2) with 2%float.
  unfold float_exp_raises. cbv zeta. by rewrite Hinf, Hfin.
Qed.

(** C4, where the code departs from it.  The example holds:
    [a = Value(3.0); b = a + a; b.backward()] leaves [a.grad == 2.0], in
    the reals and in binary64 alike.  The general sentence does not.  In
    [a = Value(2.0); s = a * 3; m = s * a; d = s + m] the node [a] is an
    operand of [s] and of [m], every gradient is [0], and the value of
    [d] as a function of the value of [a] has derivative [15] at [2].
    After [d.backward()] the consumers hold [s.grad == 3.0] and
    [m.grad == 1.0], so what their closures contribute to [a] is
    [3 * 3 = 9] and [6 * 1 = 6], [15] in all; but [a.grad] is [24.0] when
    the operand set of [d] iterates [s] first and [18.0] otherwise:
    [s] sits twice in the sequence [backward] walks, so its closure adds
    to [a.grad] twice. *)
Theorem C4_fan_out_sum_fails_with_a_shared_consumer (o : SetOrder) :
  let run := λ a0 : R, @consumers_forward R RArith o a0 [] in
  let σ' := (backward 4 (run 2%R).2).2 in
  (@fanout_script R RArith o []).1 = Ok 2%R ∧
  (∀ libm_exp libm_pow,
     (@fanout_script float (FloatArith libm_exp libm_pow) o []).1 = Ok 2%float) ∧
  (∀ a0, (run a0).1 = Ok (0, 2, 3, 4)) ∧
  heap_wf (run 2%R).2 ∧
  (∀ v, grad (obj (run 2%R).2 v) = 0%R) ∧
  0 ∈ _prev (obj (run 2%R).2 2) ∧ 0 ∈ _prev (obj (run 2%R).2 3) ∧
  derivable_pt_lim (λ a0, data (obj (run a0).2 4)) 2%R 15%R ∧
  (@consumers_script R RArith o 2%R []).1 = Ok (if ord 2 3 then 24 else 18, 3, 1)%R ∧
  received 0 (increments (_backward (obj σ' 2)) σ' ++ increments (_backward (obj σ' 3)) σ')
    = [9; 6]%R ∧
  (∀ libm_exp libm_pow,
     (@consumers_script float (FloatArith libm_exp libm_pow) o 2%float []).1
     = Ok (if ord 2 3 then 24 else 18, 3, 1)%float).
Proof.
  cbv zeta. split_and!.
  - rewrite fanout_script_run. f_equal. simpl. lra.
  - intros libm_exp libm_pow. rewrite fanout_script_run. reflexivity.
  - intros a0. by rewrite consumers_forward_run.
  - apply consumers_heap_wf.
  - intros v. apply (consumers_heap_zero_grads (H:=RArith)).
  - rewrite consumers_forward_run. cbn [snd]. change (0 ∈ py_set [0; 1]).
    apply py_set_elem. set_solver.
  - rewrite consumers_forward_run. cbn [snd]. change (0 ∈ py_set [2; 0]).
    apply py_set_elem. set_solver.
  - apply (derivable_pt_lim_eq
             (plus_fct (λ z, 3 * z + 0)%R (mult_fct (λ z, 3 * z + 0)%R Ranalysis1.id))
             _ 2%R (3 + (3 * Ranalysis1.id 2 + (3 * 2 + 0) * 1))%R).
    + intros z. rewrite consumers_forward_run.
      cbn [snd obj lookup list_lookup default from_option Datatypes.id data].
      unfold plus_fct, mult_fct, Ranalysis1.id. simpl. lra.
    + unfold Ranalysis1.id. lra.
    + apply derivable_pt_lim_plus; [apply derivable_pt_lim_linear|].
      apply (derivable_pt_lim_mult (λ z, 3 * z + 0)%R Ranalysis1.id 2 3 1);
        [apply derivable_pt_lim_linear|apply derivable_pt_lim_id].
  - rewrite consumers_script_run. cbv zeta. f_equal.
    destruct (ord 2 3); simpl; repeat f_equal; lra.
  - rewrite (consumers_contributions_run (H:=RArith)). simpl. repeat f_equal; lra.
  - intros libm_exp libm_pow. rewrite consumers_script_run. cbv zeta.
    by destruct (ord 2 3).
Qed.

(** C7, as the code has it.  [a.tanh()] first computes
    [(e^{2x} - 1) / (e^{2x} + 1)] for [x = a.data]: when [math.exp] (or
    the division) raises, the call raises the same exception and builds
    nothing.  Otherwise it allocates one node with that value, gradient
    [0], operand set [{a}] and tag ['tanh']; on every later heap in which
    the node still has its closure and its value, calling the closure
    adds [(1 - out.data ** 2) * out.grad] to [a.grad] and changes nothing
    else (or fails, leaving the heap as it is, if the [**] does).  In the
    reals [tanh] never raises.  For [x = Value(0.0)],
    [x.tanh().backward()] leaves [x.grad == 1.0]: in the reals, and in
    binary64 with any C library whose [exp(0.0)] is [1.0]. *)
Theorem C7_tanh_node_rule_and_slope_at_zero :
  (∀ num (A : Arith num) (o : SetOrder) (self : id) (σ : Heap num),
     self < length σ →
     let x := data (obj σ self) in
     let out := length σ in
     match tanh_raises x with
     | Some e => tanh self σ = (Raise e, σ)
     | None =>
         ∃ σ',
           tanh self σ = (Ok out, σ') ∧ σ `prefix_of` σ' ∧
           data (obj σ' out) =
             ndiv (nsub (nexp (nmul (lit 2) x)) (lit 1))
                  (nadd (nexp (nmul (lit 2) x)) (lit 1)) ∧
           grad (obj σ' out) = lit 0 ∧ _prev (obj σ' out) = [self] ∧
           _op (obj σ' out) = Op_tanh ∧
           ∀ s, self < length s →
             _backward (obj s out) = _backward (obj σ' out) →
             data (obj s out) = data (obj σ' out) →
             match pow_fails (data (obj s out)) (lit 2) with
             | Some f => call_backward (_backward (obj s out)) s = (Fail f, s)
             | None =>
                 ∃ s',
                   call_backward (_backward (obj s out)) s = (Ok (), s') ∧
                   grad (obj s' self) =
                     nadd (grad (obj s self))
                          (nmul (nsub (lit 1) (npow (data (obj s out)) (lit 2)))
                                (grad (obj s out))) ∧
                   ∀ v, v ≠ self → obj s' v = obj s v
             end
     end) ∧
  (∀ x : R, @tanh_raises R RArith x = None) ∧
  (∀ o : SetOrder, (@tanh_script R RArith o []).1 = Ok 1%R) ∧
  (∀ (o : SetOrder) libm_exp libm_pow,
     libm_exp 0%float = 1%float →
     (@tanh_script float (FloatArith libm_exp libm_pow) o []).1 = Ok 1%float).
Proof.
  split_and!.
  - intros num A o self σ. apply tanh_node_and_rule.
  - apply R_tanh_raises.
  - intros o. rewrite tanh_script_run; [|apply R_tanh_raises|apply Rpow_fails_2].
    f_equal. rewrite R_tanh_formula_0 by done. simpl. rewrite Rpy_pow_2. lra.
  - intros o libm_exp libm_pow Hexp.
    assert (@tanh_formula float (FloatArith libm_exp libm_pow)
              (@lit float (FloatArith libm_exp libm_pow) 0) = 0%float) as Ht.
    { unfold tanh_formula. cbn [lit nadd nsub nmul ndiv nexp FloatArith].
      change (PrimFloat.mul (float_of_Z 2) (float_of_Z 0)) with 0%float.
      by rewrite Hexp. }
    rewrite tanh_script_run.
    + by rewrite Ht.
    + unfold tanh_raises. cbn [lit nadd nsub nmul nexp exp_raises div_raises FloatArith].
      change (PrimFloat.mul (float_of_Z 2) (float_of_Z 0)) with 0%float.
      unfold float_exp_raises. cbv zeta. by rewrite Hexp.
    + by rewrite Ht.
Qed.

(** C1, where the code departs from it.  [x = Value(2.0); s = x * 3;
    m = s * 5; d = s + m] is acyclic, every gradient is [0], and [x] is
    reachable from [d]; the value of [d] as a function of the value of
    [x] has derivative [18] at [2].  Because [s] sits twice in the
    sequence [backward] walks, its closure runs twice, and
    [d.backward()] leaves [x.grad == 36.0] when the operand set of [d]
    iterates [s] first and [x.grad == 21.0] otherwise — in the reals and
    in binary64 alike — never [18]. *)
Theorem C1_shared_operand_gradient_is_not_the_derivative (o : SetOrder) :
  let run := λ x0 : R, @shared_forward R RArith o x0 [] in
  (∀ x0, (run x0).1 = Ok (0, 2, 5)) ∧
  heap_wf (run 2%R).2 ∧
  (∀ v, grad (obj (run 2%R).2 v) = 0%R) ∧
  reachable (run 2%R).2 5 0 ∧
  derivable_pt_lim (λ x0, data (obj (run x0).2 5)) 2%R 18%R ∧
  (@shared_script R RArith o 2%R []).1 = Ok (if ord 2 4 then 36 else 21)%R ∧
  (∀ libm_exp libm_pow,
     (@shared_script float (FloatArith libm_exp libm_pow) o 2%float []).1
     = Ok (if ord 2 4 then 36 else 21)%float).
Proof.
  cbv zeta. split_and!.
  - intros x0. by rewrite shared_forward_run.
  - apply shared_heap_wf.
  - intros v. apply (shared_heap_zero_grads (H:=RArith)).
  - apply shared_heap_reachable.
  - intros eps Heps. exists (mkposreal 1 Rlt_0_1). intros h Hh _.
    rewrite !shared_forward_run. cbn [snd obj lookup list_lookup default data].
    simpl.
    replace (((2 + h) * 3 + (2 + h) * 3 * 5 - (2 * 3 + 2 * 3 * 5)) / h - 18)%R
      with 0%R by (field; done).
    by rewrite Rabs_R0.
  - rewrite shared_script_run. cbv zeta. f_equal. destruct (ord 2 4); simpl; lra.
  - intros libm_exp libm_pow. rewrite shared_script_run. cbv zeta.
    by destruct (ord 2 4).
Qed.

(** ** The claims as stated, refuted *)

(** C3: a neuron with weight [0.0] and bias [0.0] applied to the input
    [1.0].  The first [backward] from the output leaves the gradients
    [1, 1] on (weight, bias); [zero_grad] sets both to [0]; the second
    [backward] from the same output leaves [3, 2]: the gradients the
    first pass left on the product and sum nodes were not reset and are
    added to. *)
Lemma C3_same_root_second_pass_differs :
  ([3; 2]%R : list R) ≠ [1; 1]%R ∧
  ∀ o : SetOrder,
    (@reset_script R RArith o []).1 = Ok ([1; 1], [0; 0], [3; 2])%R.
Proof.
  split.
  - intros Heq. inversion Heq. lra.
  - intros o. rewrite reset_script_run; [|apply R_tanh_raises|apply Rpow_fails_2].
    cbv zeta. rewrite R_tanh_formula_0 by (simpl; lra). simpl. rewrite Rpy_pow_2.
    repeat f_equal; lra.
Qed.

(** C7: [Value(400.0).tanh()] in binary64.  [2 * 400.0] is the finite
    float [800.0], on which every C library's [exp] overflows ([e^800] is
    about [2.7e347]); [math.exp] then raises [OverflowError], so no node
    is returned and the heap is left as it was. *)
Lemma C7_tanh_of_a_large_value_raises :
  ((2 * 400)%float = 800%float ∧ PrimFloat.is_finite 800 = true) ∧
  ∀ (o : SetOrder) (libm_exp : float → float) (libm_pow : float → float → float),
    libm_exp 800%float = infinity →
    @tanh float (FloatArith libm_exp libm_pow) o 0
          [@leaf float (FloatArith libm_exp libm_pow) 400%float]
    = (Raise OverflowError, [@leaf float (FloatArith libm_exp libm_pow) 400%float]).
Proof.
  split; [done|]. intros o libm_exp libm_pow Hinf. rewrite tanh_run.
  cbn [obj lookup list_lookup default from_option Datatypes.id data leaf].
  by rewrite (float_tanh_overflows libm_exp libm_pow 400%float eq_refl Hinf).
Qed.

(** C8: a neuron with weight [1.0] and bias [0.0] called on the input
    [400.0] in binary64.  The sum is [0.0 + 1.0 * 400.0 = 400.0], and
    [tanh] raises [OverflowError] on it: the call returns no node. *)
Lemma C8_neuron_on_a_large_input_raises :
  (0 + 1 * 400 = 400)%float ∧
  ∀ (o : SetOrder) (libm_exp : float → float) (libm_pow : float → float → float),
    libm_exp 800%float = infinity →
    ∃ σ1,
      @Neuron_call float (FloatArith libm_exp libm_pow) o (mkNeuron [0] 1) [ONum 400%float]
        [@leaf float (FloatArith libm_exp libm_pow) 1%float;
         @leaf float (FloatArith libm_exp libm_pow) 0%float]
      = (Raise OverflowError, σ1).
Proof.
  split; [done|]. intros o libm_exp libm_pow Hinf.
  set (A := FloatArith libm_exp libm_pow).
  destruct (@Neuron_call_run float A o
              [@leaf float A 1%float; @leaf float A 0%float]
              [@leaf float A 1%float; @leaf float A 0%float]
              (mkNeuron [0] 1) [ONum 400%float])
    as (act & σ1 & _ & _ & _ & _ & _ & Hcall).
  { done. }
  { repeat constructor. }
  { simpl. lia. }
  { repeat constructor. }
  exists σ1. rewrite Hcall.
  change (neuron_sum _ _ _) with 400%float. subst A.
  by rewrite (float_tanh_overflows libm_exp libm_pow 400%float eq_refl Hinf).
Qed.

(** C9: the layer of that one neuron called on the input [400.0] in
    binary64 raises [OverflowError]: it returns no output node. *)
Lemma C9_layer_on_a_large_input_raises :
  (0 + 1 * 400 = 400)%float ∧
  ∀ (o : SetOrder) (libm_exp : float → float) (libm_pow : float → float → float),
    libm_exp 800%float = infinity →
    ∃ σ1,
      @Layer_call float (FloatArith libm_exp libm_pow) o (mkLayer [mkNeuron [0] 1])
        [ONum 400%float]
        [@leaf float (FloatArith libm_exp libm_pow) 1%float;
         @leaf float (FloatArith libm_exp libm_pow) 0%float]
      = (Raise OverflowError, σ1).
Proof.
  split; [done|]. intros o libm_exp libm_pow Hinf.
  set (A := FloatArith libm_exp libm_pow).
  destruct (@Layer_outs_run float A o
              [@leaf float A 1%float; @leaf float A 0%float] [mkNeuron [0] 1]
              [ONum 400%float]
              [@leaf float A 1%float; @leaf float A 0%float])
    as (σ1 & _ & Hrun).
  { done. }
  { repeat constructor. }
  { repeat constructor. }
  exists σ1. cbn [fmap list_fmap first_raise] in Hrun.
  change (neuron_sum _ (mkNeuron [0] 1) _) with 400%float in Hrun. subst A.
  rewrite (float_tanh_overflows libm_exp libm_pow 400%float eq_refl Hinf) in Hrun.
  unfold Layer_call, mbind, M_bind. cbn [neurons]. by rewrite Hrun.
Qed.

(** ** The theorems above, applied *)

Lemma C5_applied_to_fan_out :
  let σ := (@fanout_forward R RArith insertion_order []).2 in
  heap_wf σ ∧ 1 < length σ ∧ grad (obj (backward 1 σ).2 1) = 1%R.
Proof.
  cbv zeta.
  assert (1 < length (@fanout_forward R RArith insertion_order []).2) as Hlen
    by (rewrite fanout_forward_run; simpl; lia).
  split; [apply fanout_heap_wf|]. split; [exact Hlen|].
  destruct (C5_backward_seeds_the_root_and_accumulates
              (@fanout_forward R RArith insertion_order []).2 1
              (fanout_heap_wf (H0:=insertion_order)) Hlen)
    as (topo & _ & Hrun & _ & _ & _ & Hroot & _).
  rewrite Hrun. exact Hroot.
Defined.

Lemma C8_applied_to_one_weight :
  ∃ act σ1,
    Neuron_act (H0:=insertion_order) (mkNeuron [0] 1) [ONum 1%R] [leaf 0%R; leaf 0%R]
      = (Ok act, σ1) ∧
    weighted (H0:=insertion_order) σ1 1 [(0, ONum 1%R)] act.
Proof.
  destruct (C8_neuron_forward_and_parameters (H0:=insertion_order)
              (mkNeuron [0] 1) [ONum 1%R] [leaf 0%R; leaf 0%R])
    as (act & σ1 & Hact & _ & _ & Hbuilt & _).
  - reflexivity.
  - repeat constructor.
  - simpl. lia.
  - repeat constructor.
  - exists act, σ1. split; [exact Hact|exact Hbuilt].
Defined.

Lemma C9_applied_to_one_neuron :
  ∃ σ', [leaf 0%R; leaf 0%R] `prefix_of` σ' ∧
    match layer_raises [leaf 0%R; leaf 0%R] (mkLayer [mkNeuron [0] 1]) [ONum 1%R] with
    | Some e =>
        Layer_call (H0:=insertion_order) (mkLayer [mkNeuron [0] 1]) [ONum 1%R]
                   [leaf 0%R; leaf 0%R] = (Raise e, σ')
    | None =>
        ∃ o, Layer_call (H0:=insertion_order) (mkLayer [mkNeuron [0] 1]) [ONum 1%R]
                        [leaf 0%R; leaf 0%R] = (Ok (Single o), σ')
    end.
Proof.
  destruct (C9_layer_forward_and_parameters (H0:=insertion_order)
              (mkLayer [mkNeuron [0] 1]) [ONum 1%R] [leaf 0%R; leaf 0%R])
    as (_ & (σ' & Hpre & Hrun) & _).
  - repeat constructor.
  - repeat constructor.
  - exists σ'. split; [exact Hpre|].
    destruct (layer_raises _ _ _); [exact Hrun|].
    destruct Hrun as (outs & _ & _ & Hone & _).
    destruct (Hone eq_refl) as (o & _ & Hcall). by exists o.
Defined.

Lemma skeleton_zero_all (σ : Heap R) : same_skeleton σ (zero_all_grads σ).2.
Proof.
  unfold zero_all_grads, modify, same_skeleton. cbn [snd].
  rewrite <- list_fmap_compose. by apply list_fmap_ext.
Qed.

Lemma zero_all_zero (σ : Heap R) v : grad (obj (zero_all_grads σ).2 v) = 0%R.
Proof.
  unfold zero_all_grads, modify, obj. cbn [snd]. rewrite list_lookup_fmap.
  by destruct (σ !! v).
Qed.

Lemma C3_applied_to_one_weight :
  let σ : Heap R := neuron_heap (H0:=insertion_order) in
  let self := mkNeuron [0] 1 in
  let σ1 := (backward 5 σ).2 in
  let σ2 := (zero_grad self σ1).2 in
  let s := (zero_all_grads σ2).2 in
  (grad (obj σ2 0) = 0%R ∧ grad (obj σ2 1) = 0%R) ∧
  (backward 5 s).1 = (backward 5 σ).1 ∧
  grad (obj (backward 5 s).2 0) = grad (obj σ1 0) ∧
  grad (obj (backward 5 s).2 1) = grad (obj σ1 1).
Proof.
  cbv zeta.
  assert (heap_wf (neuron_heap (H:=RArith) (H0:=insertion_order))) as Hwf
    by apply neuron_heap_wf.
  assert (5 < length (neuron_heap (H:=RArith) (H0:=insertion_order))) as Hlen
    by (simpl; lia).
  assert (∀ v, reachable (neuron_heap (H:=RArith) (H0:=insertion_order)) 5 v →
               grad (obj (neuron_heap (H:=RArith) (H0:=insertion_order)) v) = 0%R)
    as Hzero.
  { intros v _. by destruct v as [|[|[|[|[|[|v]]]]]]. }
  assert (∀ v, v ∈ [1; 0; 2; 3; 4; 5] →
               reachable (neuron_heap (H:=RArith) (H0:=insertion_order)) 5 v) as Hreach.
  { intros v Hv. by apply (topo_of_reachable _ 5 _ (neuron_topo_run (H0:=insertion_order))). }
  destruct (C3_zero_grad_then_backward_again
              (mkNeuron [0] 1) (neuron_heap (H:=RArith) (H0:=insertion_order)) 5
              Hwf Hlen Hzero)
    as (_ & Hparams & _ & Hagain).
  split.
  { split; (apply Hparams; [set_solver|simpl; lia]). }
  destruct (Hagain _ (skeleton_zero_all _) (λ v _ _, zero_all_zero _ v)) as [Hout Hsame].
  split; [exact Hout|]. split; apply Hsame, Hreach; set_solver.
Defined.

Lemma C7_applied_to_a_leaf :
  ∃ σ', tanh (H0:=insertion_order) 0 [leaf 0%R] = (Ok 1, σ').
Proof.
  destruct C7_tanh_node_rule_and_slope_at_zero as (Hnode & Hreal & _).
  assert (0 < length ([leaf 0%R] : Heap R)) as Hlen by (simpl; lia).
  pose proof (Hnode R RArith insertion_order 0 [leaf 0%R] Hlen) as Hrun.
  cbv zeta in Hrun. rewrite Hreal in Hrun.
  destruct Hrun as (σ' & Hrun & _). exists σ'. exact Hrun.
Defined.

(** * Further properties of the code *)

(** ** The sequence [build_topo] builds *)

Section Traversal.
Context {num : Type} `{Arith num} `{SetOrder}.
Implicit Types (σ : Heap num) (u v root : id).

(** A traversal expands every node it newly visits exactly once, and
    appends the node it was called on and every operand of every node it
    expands. *)
Lemma visit_appends σ :
  (∀ v st st', visit σ v st st' →
     ∃ expanded new,
       NoDup expanded ∧ (∀ u, u ∈ expanded → u ∉ st.1) ∧
       (∀ u, u ∈ st'.1 ↔ u ∈ st.1 ∨ u ∈ expanded) ∧
       st'.2 = st.2 ++ new ∧
       new ≡ₚ v :: (expanded ≫= λ u, _prev (obj σ u))) ∧
  (∀ children st st', visit_each σ children st st' →
     ∃ expanded new,
       NoDup expanded ∧ (∀ u, u ∈ expanded → u ∉ st.1) ∧
       (∀ u, u ∈ st'.1 ↔ u ∈ st.1 ∨ u ∈ expanded) ∧
       st'.2 = st.2 ++ new ∧
       new ≡ₚ children ++ (expanded ≫= λ u, _prev (obj σ u))).
Proof.
  apply visit_mutind; simpl.
  - intros v vis topo Hin. exists [], [v]. split_and!; [constructor|set_solver..|done|done].
  - intros v vis topo vis' topo' Hnotin _ (expanded & new & Hnd & Hfresh & Hvis & -> & Hperm).
    simpl in *. exists (v :: expanded), (new ++ [v]). split_and!.
    + constructor; [|done]. intros Hv. apply (Hfresh v Hv). set_solver.
    + intros u [->|Hu]%elem_of_cons; [done|]. specialize (Hfresh u Hu). set_solver.
    + intros u. rewrite Hvis. set_solver.
    + by rewrite app_assoc.
    + rewrite bind_cons, Hperm, <- Permutation_cons_append. done.
  - intros st. exists [], []. split_and!; [constructor|set_solver..|by rewrite app_nil_r|done].
  - intros child children st st1 st2 _ (e1 & n1 & Hnd1 & Hf1 & Hv1 & Heq1 & Hp1)
      _ (e2 & n2 & Hnd2 & Hf2 & Hv2 & Heq2 & Hp2).
    exists (e1 ++ e2), (n1 ++ n2). split_and!.
    + apply NoDup_app. split_and!; [done| |done].
      intros u Hu1 Hu2. apply (Hf2 u Hu2). apply Hv1. by right.
    + intros u [Hu|Hu]%elem_of_app; [by apply Hf1|].
      intros Hin. apply (Hf2 u Hu). apply Hv1. by left.
    + intros u. rewrite Hv2, Hv1. set_solver.
    + by rewrite Heq2, Heq1, app_assoc.
    + rewrite bind_app, Hp1, Hp2. simpl. f_equiv.
      rewrite !app_assoc. f_equiv. apply Permutation_app_comm.
Qed.

Lemma topo_of_visited σ root topo :
  topo_of σ root = Some topo →
  ∃ visited, visit σ root (∅, []) (visited, topo) ∧
             ∀ u, u ∈ visited ↔ reachable σ root u.
Proof.
  intros Htopo. destruct (topo_of_visit σ root topo Htopo) as [vis Hvisit].
  exists vis. split; [done|]. intros u.
  rewrite <- (topo_of_reachable σ root topo Htopo).
  destruct (proj1 (visit_grows σ) _ _ _ Hvisit) as (_ & _ & new & Heq & _ & Hnew).
  pose proof (proj1 (visit_closed σ) _ _ _ Hvisit ∅) as Hcl. simpl in *. subst new.
  split; [|by intros [? _]%Hnew].
  intros Hu. destruct (Hcl ltac:(intros ? ?; set_solver) u Hu) as [?|[? _]]; [set_solver|done].
Qed.

(** On a well-formed heap the ordering phase of [backward(root)]
    returns a sequence that is, up to order, the root followed by the
    operand sets of all the nodes reachable from the root, each set taken
    once.  So a node is appended once for every reachable node it is an
    operand of (and once more if it is the root), and its closure will be
    called that many times. *)
Theorem topo_is_root_and_operand_sets σ root :
  heap_wf σ → root < length σ →
  ∃ topo expanded,
    topo_of σ root = Some topo ∧
    NoDup expanded ∧ (∀ u, u ∈ expanded ↔ reachable σ root u) ∧
    topo ≡ₚ root :: (expanded ≫= λ u, _prev (obj σ u)).
Proof.
  intros Hwf Hroot. destruct (topo_of_total σ root Hwf Hroot) as [topo Htopo].
  destruct (topo_of_visited σ root topo Htopo) as (vis & Hvisit & Hreach).
  destruct (proj1 (visit_appends σ) _ _ _ Hvisit)
    as (expanded & new & Hnd & _ & Hvis & Heq & Hperm).
  simpl in *. subst new. exists topo, expanded. split_and!; [done..| |done].
  intros u. rewrite <- Hreach, Hvis. set_solver.
Qed.

(** The invariant behind the order of the sequence: every finished node
    (visited, not in progress) is in [topo] with all its operands, and
    every entry of [topo] comes after an entry for each of its operands. *)
Lemma visit_operands_first σ :
  heap_wf σ →
  let finished (X : gset id) (st : gset id * list id) :=
    (∀ u, u ∈ st.1 → u ∈ X ∨ (u ∈ st.2 ∧ ∀ c, c ∈ _prev (obj σ u) → c ∈ st.2)) ∧
    (∀ i v, st.2 !! i = Some v →
       ∀ u, u ∈ _prev (obj σ v) → ∃ j, j < i ∧ st.2 !! j = Some u) in
  (∀ v st st', visit σ v st st' →
     ∀ X, (∀ x, x ∈ X → v < x) → finished X st → finished X st') ∧
  (∀ children st st', visit_each σ children st st' →
     ∀ X, (∀ c x, c ∈ children → x ∈ X → c < x) → finished X st → finished X st').
Proof.
  intros Hwf finished. apply visit_mutind.
  - intros v vis topo Hin X HX [Hfin Hord]. simpl in *.
    assert (v ∈ topo ∧ ∀ c, c ∈ _prev (obj σ v) → c ∈ topo) as [_ Hops].
    { destruct (Hfin v Hin) as [Hv|?]; [|done]. specialize (HX v Hv). lia. }
    split; simpl.
    + intros u Hu. destruct (Hfin u Hu) as [?|[? Hc]]; [by left|right].
      split; [set_solver|]. intros c Hc'. specialize (Hc c Hc'). set_solver.
    + intros i w [[Hi Hw]|[-> <-]]%lookup_snoc_Some u Hu.
      * destruct (Hord i w Hw u Hu) as (j & Hj & Hlook). exists j. split; [done|].
        by apply lookup_app_l_Some.
      * apply Hops, list_elem_of_lookup in Hu as [j Hj]. exists j.
        split; [by eapply lookup_lt_Some|by apply lookup_app_l_Some].
  - intros v vis topo vis' topo' Hnotin Hloop IH X HX [Hfin Hord]. simpl in *.
    assert (∀ c, c ∈ _prev (obj σ v) → c < v) as Hbelow.
    { intros c Hc. destruct (Hwf v) as [Hlt _]. rewrite Forall_forall in Hlt. by apply Hlt. }
    destruct (IH ({[v]} ∪ X)) as [Hfin' Hord'].
    { intros c x Hc [->%elem_of_singleton|Hx]%elem_of_union.
      - by apply Hbelow.
      - specialize (Hbelow c Hc). specialize (HX x Hx). lia. }
    { split; simpl; [|done]. intros u [->%elem_of_singleton|Hu]%elem_of_union.
      - left. set_solver.
      - destruct (Hfin u Hu) as [?|?]; [left; set_solver|by right]. }
    destruct (proj2 (visit_grows σ) _ _ _ Hloop) as (_ & Hch & _). simpl in *.
    assert (∀ c, c ∈ _prev (obj σ v) → c ∈ topo') as Hops.
    { intros c Hc. destruct (Hfin' c (Hch c Hc)) as [Hin|[? _]]; [|done].
      specialize (Hbelow c Hc).
      apply elem_of_union in Hin as [->%elem_of_singleton|Hx]; [lia|].
      specialize (HX c Hx). lia. }
    split; simpl.
    + intros u Hu. destruct (Hfin' u Hu) as [Hin|[? Hc]].
      * apply elem_of_union in Hin as [->%elem_of_singleton|Hx]; [|by left].
        right. split; [set_solver|]. intros c Hc. specialize (Hops c Hc). set_solver.
      * right. split; [set_solver|]. intros c Hc'. specialize (Hc c Hc'). set_solver.
    + intros i w [[Hi Hw]|[-> <-]]%lookup_snoc_Some u Hu.
      * destruct (Hord' i w Hw u Hu) as (j & Hj & Hlook). exists j. split; [done|].
        by apply lookup_app_l_Some.
      * apply Hops, list_elem_of_lookup in Hu as [j Hj]. exists j.
        split; [by eapply lookup_lt_Some|by apply lookup_app_l_Some].
  - done.
  - intros child children st st1 st2 _ IH1 _ IH2 X HX Hfin.
    apply IH2; [intros c x Hc; apply HX; set_solver|].
    apply IH1; [intros x Hx; apply HX; [set_solver|done]|done].
Qed.

Lemma topo_of_operands_first σ root topo :
  heap_wf σ → topo_of σ root = Some topo →
  ∀ i v, topo !! i = Some v →
    ∀ u, u ∈ _prev (obj σ v) → ∃ j, j < i ∧ topo !! j = Some u.
Proof.
  intros Hwf Htopo. destruct (topo_of_visit σ root topo Htopo) as [vis Hvisit].
  destruct (proj1 (visit_operands_first σ Hwf) _ _ _ Hvisit ∅) as [_ Hord].
  - set_solver.
  - split; simpl; [set_solver|]. intros i v Hi. by rewrite lookup_nil in Hi.
  - exact Hord.
Qed.

(** What does hold of the order.  On a well-formed heap the sequence
    ends with the root, the root occurs nowhere else, and every entry is
    preceded by an entry for each operand of its node: walking it in
    reverse, [backward] calls the root's closure first and once, and after
    every call of a node's closure the closure of each of its operands is
    still to be called, so whatever reaches an operand is passed on. *)
Theorem topo_operands_come_first σ root topo :
  heap_wf σ → topo_of σ root = Some topo →
  (∃ before, topo = before ++ [root] ∧ root ∉ before) ∧
  (∀ i v, topo !! i = Some v →
     ∀ u, u ∈ _prev (obj σ v) → ∃ j, j < i ∧ topo !! j = Some u).
Proof.
  intros Hwf Htopo. split; [|by apply (topo_of_operands_first σ root)].
  destruct (topo_of_visit σ root topo Htopo) as [vis Hvisit].
  inversion Hvisit as [? ? ? Hin|? ? ? ? topo' _ Hloop]; subst; [set_solver|].
  exists topo'. split; [done|]. intros Hroot.
  destruct (proj2 (visit_grows σ) _ _ _ Hloop) as (_ & _ & new & Heq & Hnew).
  simpl in Heq. subst new. destruct (Hnew root Hroot) as (_ & child & Hchild & Hreach).
  pose proof (reachable_le σ child root Hwf Hreach) as Hle.
  destruct (Hwf root) as [Hlt _]. rewrite Forall_forall in Hlt.
  specialize (Hlt child Hchild). lia.
Qed.

Lemma unvisited_mono σ (vis vis' : gset id) :
  vis ⊆ vis' → length (unvisited σ vis') ≤ length (unvisited σ vis).
Proof.
  intros Hsub. unfold unvisited. induction (seq 0 (length σ)) as [|i l IH]; [done|].
  rewrite !filter_cons. repeat case_decide; simpl; try lia. set_solver.
Qed.

Lemma unvisited_visit σ (vis : gset id) v :
  v < length σ → v ∉ vis →
  length (unvisited σ ({[v]} ∪ vis)) < length (unvisited σ vis).
Proof.
  intros Hv Hnotin. unfold unvisited.
  assert (v ∈ seq 0 (length σ)) as Hin by (apply elem_of_seq; lia).
  induction (seq 0 (length σ)) as [|i l IH]; [by apply elem_of_nil in Hin|].
  rewrite !filter_cons. apply elem_of_cons in Hin as [<-|Hin].
  - rewrite decide_False by set_solver. rewrite decide_True by done. simpl.
    pose proof (unvisited_mono σ vis ({[v]} ∪ vis)) as Hmono. unfold unvisited in Hmono.
    clear IH. assert (length (filter (λ i, i ∉ {[v]} ∪ vis) l) ≤ length (filter (λ i, i ∉ vis) l)).
    { clear. induction l as [|i l IH]; [done|].
      rewrite !filter_cons. repeat case_decide; simpl; try lia. set_solver. }
    lia.
  - specialize (IH Hin). repeat case_decide; simpl; try lia. set_solver.
Qed.

Lemma build_topo_bounded σ fuel v st :
  length (unvisited σ st.1) < fuel → is_Some (build_topo σ fuel v st).
Proof.
  revert v st. induction fuel as [|fuel IH]; intros v [vis topo] Hfuel; [simpl in *; lia|].
  simpl in *. destruct (decide (v ∈ vis)) as [Hin|Hnotin]; [done|].
  destruct (decide (v < length σ)) as [Hlive|Hdead].
  - pose proof (unvisited_visit σ vis v Hlive Hnotin) as Hless.
    assert (∀ children st0,
              {[v]} ∪ vis ⊆ st0.1 →
              is_Some (foldl (λ acc child, acc ≫= build_topo σ fuel child)
                             (Some st0) children)) as Hloop.
    { intros children. induction children as [|child children IHc]; intros st0 Hsub; [done|].
      simpl. pose proof (unvisited_mono σ _ _ Hsub).
      destruct (IH child st0) as [st1 Hst1]; [lia|]. rewrite Hst1. simpl.
      apply IHc. apply build_topo_visit in Hst1.
      destruct (proj1 (visit_grows σ) _ _ _ Hst1) as (Hgrow & _). set_solver. }
    destruct (Hloop (_prev (obj σ v)) ({[v]} ∪ vis, topo)) as [st' Hst']; [done|].
    rewrite Hst'. done.
  - unfold obj. rewrite lookup_ge_None_2 by lia. done.
Qed.

(** The recursion of [build_topo] nests at most one level deeper than
    there are objects, on every heap, whatever the operand relation —
    cycles included: a node is expanded only when it is first visited.  So
    the ordering phase always ends. *)
Theorem build_topo_nesting_is_bounded σ root fuel :
  length σ < fuel → is_Some (build_topo σ fuel root (∅, [])).
Proof.
  intros Hfuel. apply build_topo_bounded. simpl.
  assert (length (unvisited σ ∅) ≤ length σ); [|lia].
  unfold unvisited. etrans; [apply length_filter|]. by rewrite length_seq.
Qed.

(** Walking nodes none of whose operands is [v] leaves [v] alone. *)
Lemma pass_writes_outside σ nodes v :
  heap_wf σ →
  (∀ n, n ∈ nodes → v ∉ _prev (obj σ n)) →
  obj (pass_writes nodes σ) v = obj σ v.
Proof.
  revert σ. induction nodes as [|node nodes IH]; intros σ Hwf Hout; [done|].
  pose proof (skeleton_closure_writes (_backward (obj σ node)) σ) as Hs.
  simpl. rewrite IH.
  - apply closure_writes_other. intros Hv. apply (Hout node); [set_solver|].
    destruct (Hwf node) as [_ Hc].
    destruct (_backward (obj σ node)); simpl in *; [set_solver|..];
      destruct_and!; set_solver.
  - by eapply heap_wf_skeleton.
  - intros n Hn. rewrite (same_skeleton_prev _ _ n Hs). apply Hout. set_solver.
Qed.

(** On a well-formed heap [backward(root)] touches nothing outside
    the graph of [root]: an object that is not reachable from [root] is
    left exactly as it was, gradient included. *)
Theorem backward_leaves_unreachable_objects σ root v :
  heap_wf σ → ¬ reachable σ root v →
  obj (backward root σ).2 v = obj σ v.
Proof.
  intros Hwf Hv. destruct (topo_of σ root) as [topo|] eqn:Htopo;
    [|by rewrite backward_raises].
  rewrite (backward_heap σ root topo Htopo), pass_writes_outside.
  - apply obj_set_grad_ne. intros ->. apply Hv, rtc_refl.
  - eapply heap_wf_skeleton; [apply skeleton_set_grad|done].
  - intros n Hn%calls_made_elem Hin. rewrite elem_of_reverse in Hn.
    rewrite (same_skeleton_prev σ _ n (skeleton_set_grad root (lit 1) σ)) in Hin.
    apply Hv. apply (rtc_r _ n); [|exact Hin].
    by apply (topo_of_reachable σ root topo Htopo).
Qed.

End Traversal.

(** ** The graph the operations build *)

Section Graph.
Context {num : Type} `{Arith num} `{SetOrder}.
Implicit Types (σ : Heap num) (u v root : id).

Lemma py_set_NoDup (t : list id) : NoDup (py_set t).
Proof.
  unfold py_set. destruct t as [|a [|a' [|a'' t]]]; try apply NoDup_remove_dups.
  case_decide; [apply NoDup_singleton|].
  destruct (ord a a'); repeat constructor; set_solver.
Qed.

Lemma sets_wf_nil : sets_wf ([] : Heap num).
Proof. intros i. unfold obj. rewrite lookup_nil. constructor. Qed.

Lemma sets_wf_snoc σ (nd : Value num) :
  sets_wf σ → NoDup (_prev nd) → sets_wf (σ ++ [nd]).
Proof.
  intros Hwf Hnd i. destruct (decide (i < length σ)) as [Hlt|Hge].
  - rewrite obj_app_l by done. apply Hwf.
  - destruct (decide (i = length σ)) as [->|Hne]; [by rewrite obj_snoc|].
    unfold obj. rewrite lookup_ge_None_2; [constructor|]. rewrite length_app. simpl. lia.
Qed.

Lemma sets_wf_coerced σ (other : Operand num) : sets_wf σ → sets_wf (coerced_heap σ other).
Proof. destruct other; [done|]. intros Hs. apply sets_wf_snoc; [done|constructor]. Qed.

Lemma prefix_coerced σ (other : Operand num) : σ `prefix_of` coerced_heap σ other.
Proof. destruct other; [done|by apply prefix_app_r]. Qed.

Lemma builds_bind {A B} (liveA : Heap num → A → Prop) (liveB : Heap num → B → Prop)
    (m : M num A) (f : A → M num B) σ :
  builds liveA m σ →
  (∀ a σ1, σ `prefix_of` σ1 → liveA σ1 a → heap_wf σ1 → sets_wf σ1 → builds liveB (f a) σ1) →
  builds liveB (m ≫= f) σ.
Proof.
  intros (a & σ1 & Hm & Hpre & Hlive & Hwf & Hs) Hf.
  destruct (Hf a σ1 Hpre Hlive Hwf Hs) as (b & σ2 & Hfa & Hpre2 & Hlive2 & Hwf2 & Hs2).
  exists b, σ2. split_and!; [|by etrans|done..].
  unfold mbind, M_bind. by rewrite Hm.
Qed.

Lemma builds_add σ self (other : Operand num) :
  heap_wf σ → sets_wf σ → self < length σ → operand_live σ other →
  builds node_live (__add__ self other) σ.
Proof.
  intros Hwf Hs Hself Hother. pose proof (heap_wf_add σ self other Hwf Hself Hother) as Hwf'.
  unfold builds. rewrite add_run in Hwf' |- *. cbv zeta in *.
  eexists _, _. split; [done|]. cbn [snd] in Hwf'. split_and!; [| |done|].
  - etrans; [apply (prefix_coerced σ other)|by apply prefix_app_r].
  - unfold node_live. rewrite length_app. simpl. lia.
  - apply sets_wf_snoc; [by apply sets_wf_coerced|apply py_set_NoDup].
Qed.

Lemma builds_mul σ self (other : Operand num) :
  heap_wf σ → sets_wf σ → self < length σ → operand_live σ other →
  builds node_live (__mul__ self other) σ.
Proof.
  intros Hwf Hs Hself Hother. pose proof (heap_wf_mul σ self other Hwf Hself Hother) as Hwf'.
  unfold builds. rewrite mul_run in Hwf' |- *. cbv zeta in *.
  eexists _, _. split; [done|]. cbn [snd] in Hwf'. split_and!; [| |done|].
  - etrans; [apply (prefix_coerced σ other)|by apply prefix_app_r].
  - unfold node_live. rewrite length_app. simpl. lia.
  - apply sets_wf_snoc; [by apply sets_wf_coerced|apply py_set_NoDup].
Qed.



Lemma builds_tanh σ self :
  heap_wf σ → sets_wf σ → self < length σ →
  builds_unless (Raises <$> tanh_raises (data (obj σ self))) node_live (tanh self) σ.
Proof.
  intros Hwf Hs Hself. pose proof (heap_wf_tanh σ self Hwf Hself) as Hwf'.
  unfold builds_unless, builds. rewrite tanh_run in Hwf' |- *.
  destruct (tanh_raises _); [done|].
  eexists _, _. split; [done|]. cbn [snd] in Hwf'. split_and!; [| |done|].
  - by apply prefix_app_r.
  - unfold node_live. rewrite length_app. simpl. lia.
  - apply sets_wf_snoc; [done|apply py_set_NoDup].
Qed.





Lemma NoDup_bind_disjoint {A B} (f : A → list B) (l : list A) :
  NoDup l →
  (NoDup (l ≫= f) ↔
   (∀ a, a ∈ l → NoDup (f a)) ∧
   (∀ a a' x, a ∈ l → a' ∈ l → x ∈ f a → x ∈ f a' → a = a')).
Proof.
  induction 1 as [|a l Hnotin Hnd IH].
  - split; [|constructor]. intros _. split; [intros a Ha|intros a a' x Ha]; by apply elem_of_nil in Ha.
  - rewrite bind_cons, NoDup_app. rewrite IH. split.
    + intros (Hfa & Hdisj & Hall & Hinj). split.
      * intros a' [->|Ha']%elem_of_cons; [done|by apply Hall].
      * intros a1 a2 x [->|H1]%elem_of_cons [->|H2]%elem_of_cons Hx1 Hx2; [done| | |by eapply Hinj].
        -- exfalso. apply (Hdisj x Hx1). apply list_elem_of_bind. by exists a2.
        -- exfalso. apply (Hdisj x Hx2). apply list_elem_of_bind. by exists a1.
    + intros [Hall Hinj]. split_and!.
      * apply Hall. by left.
      * intros x Hx (a' & Hx' & Ha')%list_elem_of_bind.
        apply Hnotin. rewrite (Hinj a a' x); [done|by left|by right|done..].
      * intros a' Ha'. apply Hall. by right.
      * intros a1 a2 x H1 H2. apply Hinj; by right.
Qed.

(** The sequence holds every node once exactly when, among the nodes
    reachable from the root, no node is an operand of two different
    nodes. *)
Theorem topo_repeats_exactly_the_shared_nodes σ root topo :
  heap_wf σ → sets_wf σ → topo_of σ root = Some topo →
  NoDup topo ↔ unshared σ root.
Proof.
  intros Hwf Hs Htopo.
  destruct (topo_of_visited σ root topo Htopo) as (vis & Hvisit & Hreach).
  destruct (proj1 (visit_appends σ) _ _ _ Hvisit)
    as (expanded & new & Hnd & _ & Hvis & Heq & Hperm).
  simpl in *. subst new.
  assert (∀ u, u ∈ expanded ↔ reachable σ root u) as Hexp.
  { intros u. rewrite <- Hreach, Hvis. set_solver. }
  rewrite Hperm, NoDup_cons, (NoDup_bind_disjoint _ _ Hnd). split.
  - intros (_ & _ & Hinj) u p q Hp Hq Hup Huq.
    apply (Hinj p q u); [by apply Hexp|by apply Hexp|done..].
  - intros Hinj. split_and!.
    + intros (p & Hroot & Hp)%list_elem_of_bind. apply Hexp in Hp.
      pose proof (reachable_le σ root p Hwf Hp) as Hle.
      destruct (Hwf p) as [Hlt _]. rewrite Forall_forall in Hlt.
      specialize (Hlt root Hroot). lia.
    + intros a _. apply Hs.
    + intros p q u Hp Hq. apply Hinj; by apply Hexp.
Qed.

(** [backward] on a node without operands — a [Value] built from a
    number — only sets that node's gradient to [1]. *)
Theorem backward_of_a_node_without_operands σ v :
  heap_wf σ → _prev (obj σ v) = [] →
  backward v σ = (Ok (), set_grad v (lit 1) σ).
Proof.
  intros Hwf Hprev.
  assert (topo_of σ v = Some [v]) as Htopo.
  { unfold topo_of. simpl. rewrite decide_False by set_solver. by rewrite Hprev. }
  assert (_backward (obj σ v) = Noop) as Hnoop.
  { destruct (Hwf v) as [_ Hc]. rewrite Hprev in Hc.
    destruct (_backward (obj σ v)); simpl in Hc; [done|..]; destruct_and!; set_solver. }
  rewrite (backward_eval σ v [v] Htopo).
  - simpl. f_equal.
    by rewrite (same_skeleton_closure σ _ v (skeleton_set_grad v (lit 1) σ)), Hnoop.
  - simpl. by rewrite Hnoop.
Qed.

End Graph.

(** ** One operation, then [backward]: what the gradients are *)

(** Unfolds a script down to its operand sets, and decides their
    iteration orders; then evaluates it, given that no operation and no
    closure in it fails. *)
Ltac expose_sets :=
  cbv [unary_script binary_script same_operand_script number_operand_script
       mbind M_bind mret M_ret Value_init get modify coerce fail raise
       py_pow py_div math_exp
       __add__ __mul__ __neg__ __sub__ __truediv__ __pow__ exp tanh
       __radd__ __rmul__ length app fst snd
       set_backward alter list_alter with_backward];
  cbv beta iota zeta;
  repeat match goal with
         | |- context [py_set ?l] =>
             let x := eval cbv [py_set] in (py_set l) in change (py_set l) with x
         end.
Ltac split_orders :=
  repeat match goal with |- context [ord ?a ?b] => destruct (ord a b) end.
Ltac run_script := expose_sets; split_orders; vm_compute; reflexivity.

Ltac read_heap :=
  cbn [obj lookup list_lookup default from_option Datatypes.id
       data grad _backward _prev _op label
       set_backward alter list_alter with_backward].
Ltac no_failure :=
  read_heap;
  repeat match goal with H : _ = None |- _ => rewrite H end;
  cbv beta iota.
Ltac walk_order :=
  match goal with
  | |- context [backward ?r ?σ] =>
      let t := eval vm_compute in (topo_of σ r) in
      match t with
      | Some ?topo =>
          rewrite (backward_eval σ r topo);
          [|vm_compute; reflexivity
           |repeat (progress
                      cbn [reverse rev_append pass_fails closure_fails
                           obj lookup list_lookup default from_option Datatypes.id
                           data grad _backward _prev _op label
                           set_backward alter list_alter with_backward]
                    || match goal with H : _ = None |- _ => rewrite H end);
            reflexivity]
      end
  end.
Ltac run_script_unless :=
  expose_sets; no_failure; expose_sets; split_orders; walk_order;
  vm_compute; reflexivity.

Section Scripts.
Context {num : Type} `{Arith num} `{SetOrder}.
Local Open Scope num_scope.
Implicit Types k p : num.

Lemma neg_script_run (a0 : num) :
  (unary_script __neg__ a0 []).1 = Ok (a0 * lit (-1), lit 0 + lit (-1) * lit 1).
Proof. run_script. Qed.

Lemma exp_script_run (a0 : num) :
  exp_raises a0 = None →
  (unary_script exp a0 []).1 = Ok (nexp a0, lit 0 + nexp a0 * lit 1).
Proof. intros He. run_script_unless. Qed.

Lemma tanh_of_script_run (a0 : num) :
  tanh_raises a0 = None → pow_fails (tanh_formula a0) (lit 2) = None →
  (unary_script tanh a0 []).1 =
  Ok (tanh_formula a0, lit 0 + (lit 1 - tanh_formula a0 ** lit 2) * lit 1).
Proof.
  intros [He Hd]%tanh_raises_None Hp. unfold tanh_formula in Hp. run_script_unless.
Qed.

Lemma pow_script_run (a0 p : num) :
  pow_fails a0 p = None → pow_fails a0 (p - lit 1) = None →
  (unary_script (λ x, __pow__ x (PyNum p)) a0 []).1 =
  Ok (a0 ** p, lit 0 + (p * a0 ** (p - lit 1)) * lit 1).
Proof. intros Hp Hq. run_script_unless. Qed.

Lemma add_script_run (a0 b0 : num) :
  (binary_script __add__ a0 b0 []).1 =
  Ok (a0 + b0, lit 0 + lit 1 * lit 1, lit 0 + lit 1 * lit 1).
Proof. run_script. Qed.

Lemma mul_script_run (a0 b0 : num) :
  (binary_script __mul__ a0 b0 []).1 =
  Ok (a0 * b0, lit 0 + b0 * lit 1, lit 0 + a0 * lit 1).
Proof. run_script. Qed.

Lemma sub_script_run (a0 b0 : num) :
  (binary_script __sub__ a0 b0 []).1 =
  Ok (a0 + b0 * lit (-1), lit 0 + lit 1 * lit 1,
      lit 0 + lit (-1) * (lit 0 + lit 1 * lit 1)).
Proof. run_script. Qed.

Lemma truediv_script_run (a0 b0 : num) :
  pow_fails b0 (lit (-1)) = None → pow_fails b0 (lit (-1) - lit 1) = None →
  (binary_script __truediv__ a0 b0 []).1 =
  Ok (a0 * b0 ** lit (-1), lit 0 + b0 ** lit (-1) * lit 1,
      lit 0 + (lit (-1) * b0 ** (lit (-1) - lit 1)) * (lit 0 + a0 * lit 1)).
Proof. intros Hp Hq. run_script_unless. Qed.

Lemma add_same_script_run (a0 : num) :
  (same_operand_script __add__ a0 []).1 =
  Ok (a0 + a0, (lit 0 + lit 1 * lit 1) + lit 1 * lit 1).
Proof. run_script. Qed.

Lemma mul_same_script_run (a0 : num) :
  (same_operand_script __mul__ a0 []).1 =
  Ok (a0 * a0, (lit 0 + a0 * lit 1) + a0 * lit 1).
Proof. run_script. Qed.

Lemma sub_same_script_run (a0 : num) :
  (same_operand_script __sub__ a0 []).1 =
  Ok (a0 + a0 * lit (-1),
      (lit 0 + lit 1 * lit 1) + lit (-1) * (lit 0 + lit 1 * lit 1)).
Proof. run_script. Qed.

Lemma truediv_same_script_run (a0 : num) :
  pow_fails a0 (lit (-1)) = None → pow_fails a0 (lit (-1) - lit 1) = None →
  (same_operand_script __truediv__ a0 []).1 =
  Ok (a0 * a0 ** lit (-1),
      (lit 0 + a0 ** lit (-1) * lit 1)
      + (lit (-1) * a0 ** (lit (-1) - lit 1)) * (lit 0 + a0 * lit 1)).
Proof. intros Hp Hq. run_script_unless. Qed.

Lemma add_number_script_run (a0 k : num) :
  (number_operand_script __add__ a0 k []).1 = Ok (a0 + k, lit 0 + lit 1 * lit 1).
Proof. run_script. Qed.

Lemma radd_number_script_run (a0 k : num) :
  (number_operand_script __radd__ a0 k []).1 = Ok (a0 + k, lit 0 + lit 1 * lit 1).
Proof. run_script. Qed.

Lemma mul_number_script_run (a0 k : num) :
  (number_operand_script __mul__ a0 k []).1 = Ok (a0 * k, lit 0 + k * lit 1).
Proof. run_script. Qed.

Lemma rmul_number_script_run (a0 k : num) :
  (number_operand_script __rmul__ a0 k []).1 = Ok (a0 * k, lit 0 + k * lit 1).
Proof. run_script. Qed.

Lemma sub_number_script_run (a0 k : num) :
  (number_operand_script __sub__ a0 k []).1 = Ok (a0 + nneg k, lit 0 + lit 1 * lit 1).
Proof. run_script. Qed.

Lemma truediv_number_script_run (a0 k : num) :
  pow_fails k (lit (-1)) = None →
  (number_operand_script __truediv__ a0 k []).1 =
  Ok (a0 * k ** lit (-1), lit 0 + k ** lit (-1) * lit 1).
Proof. intros Hp. run_script_unless. Qed.

End Scripts.

(** ** The same, in the real numbers *)


Lemma Rpy_pow_neg1 (x : R) : Rpy_pow x (-1) = (/ x)%R.
Proof. rewrite Rpy_pow_int. simpl. by rewrite Rmult_1_r. Qed.

Lemma Rpy_pow_neg2 (x : R) : Rpy_pow x (-1 - 1) = (/ (x * x))%R.
Proof.
  replace (-1 - 1)%R with (IZR (-2)) by lra.
  rewrite Rpy_pow_int. simpl. by rewrite Rmult_1_r.
Qed.

(** [a + b], [a + a], [a + k] and [k + a] hold the sum, and after
    [backward] every operand holds the partial derivative of the sum in
    it: [1], and [2] for the operand that is added to itself. *)
Theorem add_passes_the_derivatives (o : SetOrder) (a0 b0 : R) :
  (∃ da db, (binary_script __add__ a0 b0 []).1 = Ok ((a0 + b0)%R, da, db) ∧
     derivable_pt_lim (λ a, a + b0)%R a0 da ∧ derivable_pt_lim (λ b, a0 + b)%R b0 db) ∧
  (∃ da, (same_operand_script __add__ a0 []).1 = Ok ((a0 + a0)%R, da) ∧
     derivable_pt_lim (λ a, a + a)%R a0 da) ∧
  (∃ da, (number_operand_script __add__ a0 b0 []).1 = Ok ((a0 + b0)%R, da) ∧
     derivable_pt_lim (λ a, a + b0)%R a0 da) ∧
  (∃ da, (number_operand_script __radd__ a0 b0 []).1 = Ok ((b0 + a0)%R, da) ∧
     derivable_pt_lim (λ a, b0 + a)%R a0 da).
Proof.
  split_and!.
  - exists 1%R, 1%R. rewrite add_script_run. split_and!.
    + simpl. do 3 f_equal; lra.
    + apply (derivable_pt_lim_eq (λ z, 1 * z + b0)%R _ a0 1%R);
        [intros; lra|done|apply derivable_pt_lim_linear].
    + apply (derivable_pt_lim_eq (λ z, 1 * z + a0)%R _ b0 1%R);
        [intros; lra|done|apply derivable_pt_lim_linear].
  - exists 2%R. rewrite add_same_script_run. split.
    + simpl. do 2 f_equal; lra.
    + apply (derivable_pt_lim_eq (λ z, 2 * z + 0)%R _ a0 2%R);
        [intros; lra|done|apply derivable_pt_lim_linear].
  - exists 1%R. rewrite add_number_script_run. split.
    + simpl. do 2 f_equal; lra.
    + apply (derivable_pt_lim_eq (λ z, 1 * z + b0)%R _ a0 1%R);
        [intros; lra|done|apply derivable_pt_lim_linear].
  - exists 1%R. rewrite radd_number_script_run. split.
    + simpl. do 2 f_equal; lra.
    + apply (derivable_pt_lim_eq (λ z, 1 * z + b0)%R _ a0 1%R);
        [intros; lra|done|apply derivable_pt_lim_linear].
Qed.

(** [a * b], [a * a], [a * k] and [k * a] hold the product, and after
    [backward] every operand holds the partial derivative of the product
    in it: the other factor, and [2 a] for the factor multiplied by
    itself. *)
Theorem mul_passes_the_derivatives (o : SetOrder) (a0 b0 : R) :
  (∃ da db, (binary_script __mul__ a0 b0 []).1 = Ok ((a0 * b0)%R, da, db) ∧
     derivable_pt_lim (λ a, a * b0)%R a0 da ∧ derivable_pt_lim (λ b, a0 * b)%R b0 db) ∧
  (∃ da, (same_operand_script __mul__ a0 []).1 = Ok ((a0 * a0)%R, da) ∧
     derivable_pt_lim (λ a, a * a)%R a0 da) ∧
  (∃ da, (number_operand_script __mul__ a0 b0 []).1 = Ok ((a0 * b0)%R, da) ∧
     derivable_pt_lim (λ a, a * b0)%R a0 da) ∧
  (∃ da, (number_operand_script __rmul__ a0 b0 []).1 = Ok ((b0 * a0)%R, da) ∧
     derivable_pt_lim (λ a, b0 * a)%R a0 da).
Proof.
  split_and!.
  - exists b0, a0. rewrite mul_script_run. split_and!.
    + simpl. do 3 f_equal; lra.
    + apply (derivable_pt_lim_eq (λ z, b0 * z + 0)%R _ a0 b0);
        [intros; lra|done|apply derivable_pt_lim_linear].
    + apply (derivable_pt_lim_eq (λ z, a0 * z + 0)%R _ b0 a0);
        [intros; lra|done|apply derivable_pt_lim_linear].
  - exists (a0 + a0)%R. rewrite mul_same_script_run. split.
    + simpl. do 2 f_equal; lra.
    + apply (derivable_pt_lim_eq (Ranalysis1.id * Ranalysis1.id)%F _ a0
               (1 * a0 + a0 * 1)%R); [done|lra|].
      apply derivable_pt_lim_mult; apply derivable_pt_lim_id.
  - exists b0. rewrite mul_number_script_run. split.
    + simpl. do 2 f_equal; lra.
    + apply (derivable_pt_lim_eq (λ z, b0 * z + 0)%R _ a0 b0);
        [intros; lra|done|apply derivable_pt_lim_linear].
  - exists b0. rewrite rmul_number_script_run. split.
    + simpl. do 2 f_equal; lra.
    + apply (derivable_pt_lim_eq (λ z, b0 * z + 0)%R _ a0 b0);
        [intros; lra|done|apply derivable_pt_lim_linear].
Qed.

(** [-a], [a - b], [a - a] and [a - k] are built from [*] and [+]
    ([-a] is [a * -1], [a - b] is [a + (-b)]); they hold the negation and
    the difference, and after [backward] every operand holds the partial
    derivative: [-1] for what is subtracted, [0] for [a] in [a - a]. *)
Theorem neg_and_sub_pass_the_derivatives (o : SetOrder) (a0 b0 : R) :
  (∃ da, (unary_script __neg__ a0 []).1 = Ok ((- a0)%R, da) ∧
     derivable_pt_lim (λ a, - a)%R a0 da) ∧
  (∃ da db, (binary_script __sub__ a0 b0 []).1 = Ok ((a0 - b0)%R, da, db) ∧
     derivable_pt_lim (λ a, a - b0)%R a0 da ∧ derivable_pt_lim (λ b, a0 - b)%R b0 db) ∧
  (∃ da, (same_operand_script __sub__ a0 []).1 = Ok (0%R, da) ∧
     derivable_pt_lim (λ a, a - a)%R a0 da) ∧
  (∃ da, (number_operand_script __sub__ a0 b0 []).1 = Ok ((a0 - b0)%R, da) ∧
     derivable_pt_lim (λ a, a - b0)%R a0 da).
Proof.
  split_and!.
  - exists (-1)%R. rewrite neg_script_run. split.
    + simpl. do 2 f_equal; lra.
    + apply (derivable_pt_lim_eq (λ z, -1 * z + 0)%R _ a0 (-1)%R);
        [intros; lra|done|apply derivable_pt_lim_linear].
  - exists 1%R, (-1)%R. rewrite sub_script_run. split_and!.
    + simpl. do 3 f_equal; lra.
    + apply (derivable_pt_lim_eq (λ z, 1 * z + - b0)%R _ a0 1%R);
        [intros; lra|done|apply derivable_pt_lim_linear].
    + apply (derivable_pt_lim_eq (λ z, -1 * z + a0)%R _ b0 (-1)%R);
        [intros; lra|done|apply derivable_pt_lim_linear].
  - exists 0%R. rewrite sub_same_script_run. split.
    + simpl. do 2 f_equal; lra.
    + apply (derivable_pt_lim_eq (λ z, 0 * z + 0)%R _ a0 0%R);
        [intros; lra|done|apply derivable_pt_lim_linear].
  - exists 1%R. rewrite sub_number_script_run. split.
    + simpl. do 2 f_equal; lra.
    + apply (derivable_pt_lim_eq (λ z, 1 * z + - b0)%R _ a0 1%R);
        [intros; lra|done|apply derivable_pt_lim_linear].
Qed.

Lemma derivable_pt_lim_quotient (c x : R) :
  x ≠ 0%R → derivable_pt_lim (λ z, c / z)%R x (- c / (x * x))%R.
Proof.
  intros Hx.
  apply (derivable_pt_lim_eq (fct_cte c / Ranalysis1.id)%F _ x
           ((0 * Ranalysis1.id x - 1 * fct_cte c x) / (Ranalysis1.id x)²)%R).
  - done.
  - unfold Ranalysis1.id, fct_cte, Rsqr. field. done.
  - apply derivable_pt_lim_div; [apply derivable_pt_lim_const|apply derivable_pt_lim_id|done].
Qed.

(** [a / b] is built as [a * b**-1].  With a divisor that is not zero,
    [a / b], [a / a] and [a / k] hold the quotient, and after [backward]
    every operand holds the partial derivative of the quotient in it:
    [1/b] for the dividend, [-a/b²] for the divisor, and [0] for [a] in
    [a / a]. *)
Theorem truediv_passes_the_derivatives (o : SetOrder) (a0 b0 : R) :
  b0 ≠ 0%R →
  (∃ da db, (binary_script __truediv__ a0 b0 []).1 = Ok ((a0 / b0)%R, da, db) ∧
     derivable_pt_lim (λ a, a / b0)%R a0 da ∧ derivable_pt_lim (λ b, a0 / b)%R b0 db) ∧
  (∃ db, (same_operand_script __truediv__ b0 []).1 = Ok (1%R, db) ∧
     derivable_pt_lim (λ b, b / b)%R b0 db) ∧
  (∃ da, (number_operand_script __truediv__ a0 b0 []).1 = Ok ((a0 / b0)%R, da) ∧
     derivable_pt_lim (λ a, a / b0)%R a0 da).
Proof.
  intros Hb. split_and!.
  - exists (/ b0)%R, (- a0 / (b0 * b0))%R.
    rewrite truediv_script_run
      by (by apply Rpow_fails_neg1 || by apply Rpow_fails_neg2).
    split_and!.
    + simpl. rewrite Rpy_pow_neg1, Rpy_pow_neg2. do 3 f_equal; field; done.
    + apply (derivable_pt_lim_eq (λ z, / b0 * z + 0)%R _ a0 (/ b0)%R);
        [intros; field; done|done|apply derivable_pt_lim_linear].
    + by apply derivable_pt_lim_quotient.
  - exists 0%R.
    rewrite truediv_same_script_run
      by (by apply Rpow_fails_neg1 || by apply Rpow_fails_neg2).
    split.
    + simpl. rewrite Rpy_pow_neg1, Rpy_pow_neg2. do 2 f_equal; field; done.
    + apply (derivable_pt_lim_eq (Ranalysis1.id / Ranalysis1.id)%F _ b0
               ((1 * Ranalysis1.id b0 - 1 * Ranalysis1.id b0) / (Ranalysis1.id b0)²)%R).
      * done.
      * unfold Ranalysis1.id, Rsqr. field. done.
      * apply derivable_pt_lim_div; [apply derivable_pt_lim_id..|done].
  - exists (/ b0)%R. rewrite truediv_number_script_run by (by apply Rpow_fails_neg1).
    split.
    + simpl. rewrite Rpy_pow_neg1. do 2 f_equal; field; done.
    + apply (derivable_pt_lim_eq (λ z, / b0 * z + 0)%R _ a0 (/ b0)%R);
        [intros; field; done|done|apply derivable_pt_lim_linear].
Qed.

(** The derivative of an integer power, negative exponents included. *)
Lemma derivable_pt_lim_powerRZ (z : Z) (x : R) :
  (1 ≤ z)%Z ∨ x ≠ 0%R →
  derivable_pt_lim (λ y, powerRZ y z) x (IZR z * powerRZ x (z - 1))%R.
Proof.
  intros Hz. destruct z as [|p|p].
  - apply (derivable_pt_lim_eq (fct_cte 1) _ x 0%R); [done|simpl; lra|].
    apply derivable_pt_lim_const.
  - destruct (Pos2Nat.is_succ p) as [n Hn].
    apply (derivable_pt_lim_eq (λ y, y ^ S n)%R _ x (INR (S n) * x ^ pred (S n))%R).
    + intros y. simpl. by rewrite Hn.
    + rewrite INR_IZR_INZ, <- Hn, positive_nat_Z. f_equal.
      replace (Z.pos p - 1)%Z with (Z.of_nat n) by lia.
      rewrite Hn. cbn [pred Nat.pred]. by rewrite pow_powerRZ.
    + apply derivable_pt_lim_pow.
  - destruct Hz as [?|Hx]; [lia|].
    destruct (Pos2Nat.is_succ p) as [n Hn].
    assert (x ^ n ≠ 0)%R as Hxn by (by apply pow_nonzero).
    apply (derivable_pt_lim_eq (fct_cte 1 / (λ y : R, (y ^ S n)%R))%F _ x
             ((0 * x ^ S n - (INR (S n) * x ^ pred (S n)) * fct_cte 1 x) / (x ^ S n)²)%R).
    + intros y. unfold div_fct, fct_cte. simpl. rewrite Hn. simpl. lra.
    + replace (Z.neg p - 1)%Z with (Z.neg (Pos.of_nat (S (S n)))) by lia.
      replace (IZR (Z.neg p)) with (- INR (S n))%R
        by (rewrite INR_IZR_INZ, <- Ropp_Ropp_IZR; f_equal; lia).
      cbn [powerRZ]. rewrite Nat2Pos.id by done.
      unfold fct_cte, Rsqr. cbn [pred Nat.pred]. generalize (INR (S n)). intros m.
      simpl. field. done.
    + apply derivable_pt_lim_div.
      * apply derivable_pt_lim_const.
      * apply derivable_pt_lim_pow.
      * simpl. by apply Rmult_integral_contrapositive_currified.
Qed.

Lemma not_integer_pred (p : R) : p ≠ IZR (Int_part p) → (p - 1)%R ≠ IZR (Int_part (p - 1)).
Proof.
  intros Hp Heq. apply Hp.
  assert (p = IZR (Int_part (p - 1) + 1)) as Hp'.
  { rewrite plus_IZR. lra. }
  rewrite Hp' at 2. by rewrite Int_part_IZR.
Qed.

(** [a ** p] holds the power, and after [backward] the base holds the
    derivative of the power in the base, wherever that derivative exists
    and the rule [p * a**(p-1)] can be computed: for an integer exponent
    that is at least one or a base that is not zero, and for any other
    exponent and a positive base. *)
Theorem pow_passes_the_derivative (o : SetOrder) (a0 p : R) :
  (p = IZR (Int_part p) ∧ (1 <= p ∨ a0 ≠ 0))%R ∨ (p ≠ IZR (Int_part p) ∧ 0 < a0)%R →
  ∃ da, (unary_script (λ x, __pow__ x (PyNum p)) a0 []).1 = Ok (Rpy_pow a0 p, da) ∧
        derivable_pt_lim (λ a, Rpy_pow a p) a0 da.
Proof.
  intros Hp.
  assert (Rpow_fails a0 p = None ∧ Rpow_fails a0 (p - 1) = None) as [Hf Hf'].
  { destruct Hp as [[Hint Hok]|[Hfrac Hpos]]; [|split; by apply Rpow_fails_pos].
    rewrite Hint. replace (IZR (Int_part p) - 1)%R with (IZR (Int_part p - 1))
      by (by rewrite minus_IZR).
    destruct Hok as [Hge|Hne]; [|split; apply Rpow_fails_int; by left].
    rewrite Hint in Hge. apply le_IZR in Hge.
    split; apply Rpow_fails_int; right; lia. }
  rewrite pow_script_run by done. simpl.
  exists (p * Rpy_pow a0 (p - 1))%R. split; [do 2 f_equal; lra|].
  destruct Hp as [[Hint Hok]|[Hfrac Hpos]].
  - rewrite Hint. replace (IZR (Int_part p) - 1)%R with (IZR (Int_part p - 1))
      by (by rewrite minus_IZR).
    rewrite Rpy_pow_int.
    apply (derivable_pt_lim_eq (λ y, powerRZ y (Int_part p)) _ a0
             (IZR (Int_part p) * powerRZ a0 (Int_part p - 1))%R).
    + intros y. by rewrite Rpy_pow_int.
    + done.
    + apply derivable_pt_lim_powerRZ. destruct Hok as [Hge|?]; [left|by right].
      rewrite Hint in Hge. by apply le_IZR.
  - pose proof (not_integer_pred p Hfrac) as Hfrac'.
    replace (Rpy_pow a0 (p - 1)) with (Rpower a0 (p - 1)).
    + apply (derivable_pt_lim_locally_ext (λ y, Rpower y p) _ a0 (a0 / 2) (a0 + 1));
        [lra| |by apply derivable_pt_lim_power].
      intros y Hy. unfold Rpy_pow.
      destruct (Req_dec_T p (IZR (Int_part p))); [done|].
      destruct (Req_dec_T y 0); [lra|done].
    + unfold Rpy_pow.
      destruct (Req_dec_T (p - 1) (IZR (Int_part (p - 1)))); [done|].
      destruct (Req_dec_T a0 0); [lra|done].
Qed.

(** [a.exp()] holds [e^a], and after [backward] the operand holds the
    derivative, which is [e^a] again, read from the result node. *)
Theorem exp_passes_the_derivative (o : SetOrder) (a0 : R) :
  ∃ da, (unary_script exp a0 []).1 = Ok (Rtrigo_def.exp a0, da) ∧
        derivable_pt_lim Rtrigo_def.exp a0 da.
Proof.
  rewrite exp_script_run by done. simpl. exists (Rtrigo_def.exp a0). split.
  - do 2 f_equal. lra.
  - apply derivable_pt_lim_exp.
Qed.

Lemma R_tanh_formula (x : R) : @tanh_formula R RArith x = Rtrigo_def.tanh x.
Proof.
  unfold tanh_formula, Rtrigo_def.tanh, sinh, cosh. simpl.
  replace (2 * x)%R with (x + x)%R by lra. rewrite exp_plus, exp_Ropp.
  pose proof (exp_pos x). field. split; nra.
Qed.

Lemma derivable_pt_lim_tanh_formula (x : R) :
  derivable_pt_lim (@tanh_formula R RArith) x
    (1 - @tanh_formula R RArith x * @tanh_formula R RArith x)%R.
Proof.
  pose proof (exp_pos (2 * x)) as He.
  set (e2 := comp Rtrigo_def.exp (mult_real_fct 2 Ranalysis1.id)).
  assert (derivable_pt_lim e2 x (Rtrigo_def.exp (2 * x) * (2 * 1))%R) as He2.
  { apply derivable_pt_lim_comp.
    - apply derivable_pt_lim_scal, derivable_pt_lim_id.
    - apply derivable_pt_lim_exp. }
  apply (derivable_pt_lim_eq ((e2 - fct_cte 1) / (e2 + fct_cte 1))%F _ x
           (((Rtrigo_def.exp (2 * x) * (2 * 1) - 0) * (e2 + fct_cte 1)%F x
             - (Rtrigo_def.exp (2 * x) * (2 * 1) + 0) * (e2 - fct_cte 1)%F x)
            / ((e2 + fct_cte 1)%F x)²)%R).
  - done.
  - unfold tanh_formula, e2, plus_fct, minus_fct, comp, mult_real_fct, fct_cte,
      Ranalysis1.id, Rsqr. simpl. field. lra.
  - apply derivable_pt_lim_div.
    + apply derivable_pt_lim_minus; [done|apply derivable_pt_lim_const].
    + apply derivable_pt_lim_plus; [done|apply derivable_pt_lim_const].
    + unfold e2, plus_fct, comp, mult_real_fct, fct_cte, Ranalysis1.id. lra.
Qed.

(** [a.tanh()] holds [(e^(2a) - 1) / (e^(2a) + 1)], which is the
    hyperbolic tangent of [a] and lies strictly between [-1] and [1], and
    after [backward] the operand holds its derivative [1 - t²]. *)
Theorem tanh_passes_the_derivative (o : SetOrder) (a0 : R) :
  ∃ t da, (unary_script tanh a0 []).1 = Ok (t, da) ∧
          t = Rtrigo_def.tanh a0 ∧ (-1 < t < 1)%R ∧
          derivable_pt_lim Rtrigo_def.tanh a0 da.
Proof.
  rewrite tanh_of_script_run by (apply R_tanh_raises || apply Rpow_fails_2).
  exists (@tanh_formula R RArith a0),
         (1 - @tanh_formula R RArith a0 * @tanh_formula R RArith a0)%R.
  split_and!.
  - do 2 f_equal. simpl. rewrite Rpy_pow_2. lra.
  - apply R_tanh_formula.
  - unfold tanh_formula. simpl. pose proof (exp_pos (2 * a0)) as He.
    apply (Rmult_lt_reg_r (Rtrigo_def.exp (2 * a0) + 1)); [lra|].
    unfold Rdiv. rewrite Rmult_assoc, Rinv_l by lra. lra.
  - unfold tanh_formula. simpl. pose proof (exp_pos (2 * a0)) as He.
    apply (Rmult_lt_reg_r (Rtrigo_def.exp (2 * a0) + 1)); [lra|].
    unfold Rdiv. rewrite Rmult_assoc, Rinv_l by lra. lra.
  - apply (derivable_pt_lim_eq (@tanh_formula R RArith) _ a0
             (1 - @tanh_formula R RArith a0 * @tanh_formula R RArith a0)%R);
      [apply R_tanh_formula|done|apply derivable_pt_lim_tanh_formula].
Qed.

(** ** Building a network *)

Section Construction.
Context {num : Type} `{Arith num} `{SetOrder}.
Implicit Types (σ : Heap num) (rand : nat → num).

Lemma drawn_app rand k n m : drawn rand k (n + m) = drawn rand k n ++ drawn rand (k + n) m.
Proof. unfold drawn. by rewrite seq_app, fmap_app. Qed.

Lemma length_drawn rand k n : length (drawn rand k n) = n.
Proof. unfold drawn. by rewrite length_fmap, length_seq. Qed.

Lemma draws_run (draws : list num) σ :
  forM (λ r, Value_init r [] Op_none) draws σ =
  (Ok (seq (length σ) (length draws)), σ ++ (leaf <$> draws)).
Proof.
  revert σ. induction draws as [|d draws IH]; intros σ.
  - simpl. by rewrite app_nil_r.
  - cbn [forM]. unfold mbind, M_bind. rewrite Value_init_run. rewrite IH.
    rewrite length_app, <- app_assoc. simpl.
    by replace (length σ + 1) with (S (length σ)) by lia.
Qed.

Lemma Neuron_new_run rand k n σ :
  Neuron_new rand k n σ =
  (Ok (mkNeuron (seq (length σ) n) (length σ + n), k + n + 1),
   σ ++ drawn rand k (n + 1)).
Proof.
  unfold Neuron_new, Neuron_init, mbind, M_bind. rewrite draws_run, Value_init_run.
  rewrite length_app, !length_fmap, length_seq. cbn [mret M_ret].
  rewrite <- app_assoc, drawn_app. unfold drawn at 2. simpl.
  unfold drawn. by rewrite <- list_fmap_compose.
Qed.

Lemma Neuron_live_grows σ σ' (n : Neuron) :
  length σ ≤ length σ' → Neuron_live σ n → Neuron_live σ' n.
Proof.
  intros Hlen [Hw Hb]. split; [|lia].
  eapply Forall_impl; [exact Hw|]. simpl. intros. lia.
Qed.

Lemma Neurons_new_run rand k n count σ :
  ∃ ns,
    Neurons_new rand k n count σ =
      (Ok (ns, k + (n + 1) * count), σ ++ drawn rand k ((n + 1) * count)) ∧
    concat (parameters <$> ns) = seq (length σ) ((n + 1) * count) ∧
    length ns = count ∧ Forall (λ nr, length (w nr) = n) ns ∧
    Forall (Neuron_live (σ ++ drawn rand k ((n + 1) * count))) ns.
Proof.
  revert k σ. induction count as [|count IH]; intros k σ.
  - exists []. rewrite Nat.mul_0_r, Nat.add_0_r. unfold drawn. simpl.
    rewrite app_nil_r. by split_and!.
  - destruct (IH (k + n + 1) (σ ++ drawn rand k (n + 1)))
      as (ns & Hrun & Hparams & Hlen & Hw & Hlive).
    exists (mkNeuron (seq (length σ) n) (length σ + n) :: ns).
    replace ((n + 1) * S count) with ((n + 1) + (n + 1) * count) by lia.
    rewrite drawn_app, app_assoc.
    rewrite length_app, length_drawn in Hparams.
    split_and!.
    + cbn [Neurons_new]. unfold mbind at 1, M_bind at 1. rewrite Neuron_new_run.
      unfold mbind, M_bind. replace (k + (n + 1)) with (k + n + 1) by lia.
      rewrite Hrun. unfold mret, M_ret.
      by replace (k + n + 1 + (n + 1) * count) with (k + (n + 1 + (n + 1) * count)) by lia.
    + rewrite fmap_cons. cbn [concat]. rewrite Hparams, seq_app.
      f_equal. unfold parameters at 1, Neuron_parameters. simpl.
      rewrite seq_app. done.
    + simpl. by rewrite Hlen.
    + constructor; [simpl; by rewrite length_seq|done].
    + replace (k + (n + 1)) with (k + n + 1) by lia. constructor; [|done].
      split; simpl.
      * apply Forall_forall. intros i Hi%elem_of_seq.
        rewrite !length_app, length_drawn. lia.
      * rewrite !length_app, length_drawn. lia.
Qed.

Lemma Layer_live_grows σ σ' (l : Layer) :
  length σ ≤ length σ' → Layer_live σ l → Layer_live σ' l.
Proof.
  intros Hlen Hl. eapply Forall_impl; [exact Hl|]. intros n. by apply Neuron_live_grows.
Qed.

Lemma Layers_new_run rand k (shape : list (nat * nat)) σ :
  ∃ ls,
    Layers_new rand k shape σ =
      (Ok (ls, k + parameter_count shape), σ ++ drawn rand k (parameter_count shape)) ∧
    ls ≫= parameters = seq (length σ) (parameter_count shape) ∧
    Forall2 Layer_shape ls shape ∧
    Forall (Layer_live (σ ++ drawn rand k (parameter_count shape))) ls.
Proof.
  revert k σ. induction shape as [|[n_in n_out] shape IH]; intros k σ.
  - exists []. unfold parameter_count, drawn. simpl.
    rewrite Nat.add_0_r, app_nil_r. by split_and!.
  - destruct (Neurons_new_run rand k n_in n_out σ) as (ns & Hns & Hparams & Hlen & Hw & Hlive).
    set (here := (n_in + 1) * n_out) in *.
    destruct (IH (k + here) (σ ++ drawn rand k here)) as (ls & Hrun & Hps & Hshape & Hlives).
    exists (mkLayer ns :: ls).
    assert (parameter_count ((n_in, n_out) :: shape) = here + parameter_count shape) as ->
      by done.
    rewrite drawn_app, app_assoc. rewrite length_app, length_drawn in Hps.
    split_and!.
    + cbn [Layers_new]. unfold Layer_new, mbind, M_bind. rewrite Hns.
      unfold mret, M_ret. rewrite Hrun.
      by replace (k + here + parameter_count shape) with (k + (here + parameter_count shape)) by lia.
    + rewrite bind_cons, Hps, seq_app. f_equal.
      by rewrite Layer_parameters_concat.
    + constructor; [by split|done].
    + constructor; [|done].
      eapply Layer_live_grows; [|exact Hlive]. rewrite (length_app (σ ++ _)). lia.
Qed.

(** [MLP(num_inputs, num_outputs_array)] allocates one leaf per
    parameter and nothing else, in the order of [parameters()], and the
    [i]-th of them holds the [i]-th number drawn: for every neuron its
    weights and then its bias, neuron after neuron, layer after layer.
    Layer [i] has [num_outputs_array[i]] neurons, each with as many
    weights as the layer before has neurons ([num_inputs] for the first);
    so the network has the sum of [(n_in + 1) * n_out] parameters. *)
Theorem MLP_new_allocates_its_parameters rand k num_inputs (num_outputs_array : list nat) σ :
  let shape := zip (num_inputs :: num_outputs_array) num_outputs_array in
  let total := parameter_count shape in
  ∃ mlp : MLP,
    MLP_new rand k num_inputs num_outputs_array σ =
      (Ok (mlp, k + total), σ ++ drawn rand k total) ∧
    parameters mlp = seq (length σ) total ∧
    Forall2 Layer_shape (layers mlp) shape ∧
    MLP_live (σ ++ drawn rand k total) mlp.
Proof.
  intros shape total.
  destruct (Layers_new_run rand k shape σ) as (ls & Hrun & Hps & Hshape & Hlive).
  exists (mkMLP ls). split_and!; [|done..].
  unfold MLP_new, mbind, M_bind. cbn [app drop]. rewrite drop_0. fold shape.
  by rewrite Hrun.
Qed.

End Construction.

(** ** The forward pass of a network *)

Section Forward.
Context {num : Type} `{Arith num} `{SetOrder}.
Implicit Types (σ : Heap num) (ls : list Layer).

Lemma builds_ret {A} (live : Heap num → A → Prop) (a : A) σ :
  heap_wf σ → sets_wf σ → live σ a → builds live (mret a) σ.
Proof. intros. by exists a, σ. Qed.

Lemma operand_live_grows σ σ' (x : Operand num) :
  σ `prefix_of` σ' → operand_live σ x → operand_live σ' x.
Proof. intros Hpre%prefix_length. destruct x; simpl; [lia|done]. Qed.

Lemma operands_live_grow σ σ' (x : list (Operand num)) :
  σ `prefix_of` σ' → Forall (operand_live σ) x → Forall (operand_live σ') x.
Proof.
  intros Hpre Hx. eapply Forall_impl; [exact Hx|]. intros xi. by apply operand_live_grows.
Qed.

Lemma builds_neuron_sum σ acc (items : list (id * Operand num)) :
  heap_wf σ → sets_wf σ → acc < length σ →
  Forall (λ p, p.1 < length σ ∧ operand_live σ p.2) items →
  builds node_live
    (foldM (λ result '(wi, xi), item ← __mul__ wi xi; __add__ result (ONode item))
           acc items) σ.
Proof.
  revert σ acc. induction items as [|[wi xi] items IH]; intros σ acc Hwf Hs Hacc Hitems.
  - by apply builds_ret.
  - apply Forall_cons in Hitems as [[Hwi Hxi] Hitems]. simpl in Hwi, Hxi.
    cbn [foldM]. eapply (builds_bind node_live).
    + eapply (builds_bind node_live); [by apply builds_mul|].
      intros item σ1 Hpre Hitem Hwf1 Hs1. apply builds_add; [done..| |done].
      apply prefix_length in Hpre. lia.
    + intros acc' σ1 Hpre Hacc' Hwf1 Hs1. apply IH; [done..|].
      eapply Forall_impl; [exact Hitems|]. intros [wj xj] [Hwj Hxj]. simpl in *.
      split; [apply prefix_length in Hpre; lia|by eapply operand_live_grows].
Qed.

(** Computations that may fail. *)
Lemma builds_runs {A} (live : Heap num → A → Prop) (bad : failure → Prop)
    (m : M num A) σ :
  builds live m σ → runs live bad m σ.
Proof. intros (a & σ' & Hm & Hpre & Hlive & Hwf & Hs). by exists (Ok a), σ'. Qed.

Lemma runs_ret {A} (live : Heap num → A → Prop) (bad : failure → Prop) (a : A) σ :
  heap_wf σ → sets_wf σ → live σ a → runs live bad (mret a) σ.
Proof. intros. by exists (Ok a), σ. Qed.

Lemma runs_bind {A B} (liveA : Heap num → A → Prop) (liveB : Heap num → B → Prop)
    (bad : failure → Prop) (m : M num A) (f : A → M num B) σ :
  runs liveA bad m σ →
  (∀ a σ1, σ `prefix_of` σ1 → liveA σ1 a → heap_wf σ1 → sets_wf σ1 →
           runs liveB bad (f a) σ1) →
  runs liveB bad (m ≫= f) σ.
Proof.
  intros (r & σ1 & Hm & Hpre & Hwf & Hs & Hr) Hf. destruct r as [a|e].
  - destruct (Hf a σ1 Hpre Hr Hwf Hs) as (r2 & σ2 & Hfa & Hpre2 & Hwf2 & Hs2 & Hr2).
    exists r2, σ2. split_and!; [|by etrans|done..].
    unfold mbind, M_bind. by rewrite Hm.
  - exists (Fail e), σ1. split_and!; [|done..].
    unfold mbind, M_bind. by rewrite Hm.
Qed.

Lemma runs_weaken {A} (live live' : Heap num → A → Prop) (bad : failure → Prop)
    (m : M num A) σ :
  runs live bad m σ →
  (∀ σ' a, σ `prefix_of` σ' → live σ' a → live' σ' a) →
  runs live' bad m σ.
Proof.
  intros (r & σ' & Hm & Hpre & Hwf & Hs & Hr) Himp.
  exists r, σ'. split_and!; [done..|]. destruct r; [by apply Himp|done].
Qed.

Lemma runs_tanh σ self :
  heap_wf σ → sets_wf σ → self < length σ →
  runs node_live tanh_failure (tanh self) σ.
Proof.
  intros Hwf Hs Hself. pose proof (builds_tanh σ self Hwf Hs Hself) as Hb.
  unfold builds_unless in Hb. destruct (tanh_raises _) as [e|] eqn:He; simpl in Hb.
  - exists (Raise e), σ. split_and!; [done..|]. by eexists _, e.
  - by apply builds_runs.
Qed.

Lemma runs_Neuron_call σ (n : Neuron) (x : list (Operand num)) :
  heap_wf σ → sets_wf σ → Neuron_live σ n → Forall (operand_live σ) x →
  runs node_live tanh_failure (Neuron_call n x) σ.
Proof.
  intros Hwf Hs [Hw Hb] Hx. unfold Neuron_call, Neuron_act.
  eapply (runs_bind node_live).
  - apply builds_runs, builds_neuron_sum; [done..|by apply Forall_zip_live].
  - intros act σ1 Hpre Hact Hwf1 Hs1. eapply (runs_bind node_live).
    + by apply runs_tanh.
    + intros out σ2 _ Hout Hwf2 Hs2. by apply runs_ret.
Qed.

Lemma runs_outs σ (ns : list Neuron) (x : list (Operand num)) :
  heap_wf σ → sets_wf σ → Forall (Neuron_live σ) ns → Forall (operand_live σ) x →
  runs (outputs_live ns) tanh_failure (forM (λ n, Neuron_call n x) ns) σ.
Proof.
  revert σ. induction ns as [|n ns IH]; intros σ Hwf Hs Hns Hx.
  - apply runs_ret; [done..|]. by split.
  - apply Forall_cons in Hns as [Hn Hns]. cbn [forM].
    eapply (runs_bind node_live); [by apply runs_Neuron_call|].
    intros y σ1 Hpre Hy Hwf1 Hs1.
    eapply (runs_bind (outputs_live ns)).
    + apply IH; [done..| |by eapply operands_live_grow].
      eapply Forall_impl; [exact Hns|]. intros n'.
      apply Neuron_live_grows. by apply prefix_length.
    + intros ys σ2 Hpre2 [Hys Hlen] Hwf2 Hs2. apply runs_ret; [done..|].
      split; [|simpl; by rewrite Hlen]. constructor; [|done].
      apply prefix_length in Hpre2. unfold node_live in *. lia.
Qed.

Lemma output_of_outs (l : Layer) (outs : list id) :
  length outs = length (neurons l) →
  output_of l (activation_of (match outs with [o] => Single o | _ => Many outs end)
               : Activation num).
Proof.
  intros Hlen. unfold output_of. destruct (decide (length (neurons l) = 1)) as [Hone|Hmore].
  - destruct outs as [|o [|o' outs]]; simpl in *; [lia| |lia]. by exists o.
  - destruct outs as [|o [|o' outs]]; simpl in *; [|lia|].
    + by exists [].
    + by exists (o :: o' :: outs).
Qed.

Lemma activation_live_outs σ (outs : list id) :
  Forall (node_live σ) outs →
  activation_live σ (activation_of (match outs with [o] => Single o | _ => Many outs end)).
Proof.
  intros Houts.
  assert (Forall (operand_live σ) (ONode <$> outs)) as Hops.
  { apply Forall_fmap. eapply Forall_impl; [exact Houts|]. done. }
  destruct outs as [|o [|o' outs]]; simpl; [done| |done].
  by apply Forall_inv in Houts.
Qed.

Lemma runs_Layer_call_on σ (l : Layer) (x : Activation num) :
  heap_wf σ → sets_wf σ → Layer_live σ l → activation_live σ x →
  runs (layer_outcome l x) tanh_failure (Layer_call_on l x) σ.
Proof.
  intros Hwf Hs Hl Hx. destruct x as [xs|v]; unfold Layer_call_on.
  - unfold Layer_call.
    eapply (runs_bind (λ σ' o, layer_outcome l (Inputs xs) σ' (Returns (activation_of o)))).
    + eapply (runs_bind (outputs_live (neurons l))); [by apply runs_outs|].
      intros outs σ1 Hpre [Houts Hlen] Hwf1 Hs1. apply runs_ret; [done..|].
      split_and!; [by intros []|by apply activation_live_outs|by apply output_of_outs].
    + intros o σ1 Hpre Ho Hwf1 Hs1. by apply runs_ret.
  - destruct (neurons l) as [|n ns] eqn:Hns.
    + apply runs_ret; [done..|]. simpl. rewrite Hns. split_and!; [by intros ?|done|].
      unfold output_of. rewrite Hns. simpl. by exists [].
    + apply runs_ret; [done..|]. simpl. by rewrite Hns.
Qed.

Lemma unchainable_cons (l : Layer) ls :
  unchainable (l :: ls) ↔
  (length (neurons l) = 1 ∧ ∃ l' ls', ls = l' :: ls' ∧ neurons l' ≠ []) ∨ unchainable ls.
Proof.
  split.
  - intros ([|i] & l1 & l2 & H1 & H2 & Hone & Hsome); simpl in *.
    + left. injection H1 as <-. split; [done|].
      destruct ls as [|l' ls']; [done|]. injection H2 as <-. by exists l', ls'.
    + right. by exists i, l1, l2.
  - intros [(Hone & l' & ls' & -> & Hsome)|(i & l1 & l2 & H1 & H2 & Hone & Hsome)].
    + by exists 0, l, l'.
    + by exists (S i), l1, l2.
Qed.

Lemma unchainable_nil : ¬ unchainable ([] : list Layer).
Proof. by intros (i & l1 & l2 & H1 & _). Qed.

Lemma output_of_node (l : Layer) v : output_of l (Node v : Activation num) → length (neurons l) = 1.
Proof.
  unfold output_of. destruct (decide (length (neurons l) = 1)); [done|].
  by intros (outs & ? & _).
Qed.

Lemma output_of_inputs (l : Layer) (xs : list (Operand num)) :
  output_of l (Inputs xs) → length (neurons l) ≠ 1.
Proof.
  unfold output_of. destruct (decide (length (neurons l) = 1)); [|done].
  by intros (v & ?).
Qed.

Lemma runs_MLP_layers σ ls (x : Activation num) :
  heap_wf σ → sets_wf σ → Forall (Layer_live σ) ls → activation_live σ x →
  runs (layers_outcome ls x) tanh_failure (MLP_layers ls x) σ.
Proof.
  revert σ x. induction ls as [|l ls IH]; intros σ x Hwf Hs Hls Hx.
  - apply runs_ret; [done..|]. simpl.
    split_and!; [destruct x; by intros []|apply unchainable_nil|done|done].
  - apply Forall_cons in Hls as [Hl Hls]. cbn [MLP_layers].
    eapply runs_bind; [by apply runs_Layer_call_on|].
    intros r σ1 Hpre Hr Hwf1 Hs1. destruct r as [x'|].
    + destruct Hr as (Hfree & Hx' & Hout).
      eapply runs_weaken.
      * apply IH; [done..| |done]. eapply Forall_impl; [exact Hls|].
        intros l'. apply Layer_live_grows. by apply prefix_length.
      * intros σ2 r _ Hr. destruct r as [a|]; simpl in Hr |- *.
        -- destruct Hr as (Hfree' & Hchain & Ha & Hlast). split_and!.
           ++ destruct x; [done|]. simpl in *. done.
           ++ rewrite unchainable_cons. intros [(Hone & l' & ls' & -> & Hsome)|?]; [|done].
              destruct x' as [xs|v]; [by apply output_of_inputs in Hout|].
              by apply Hfree'.
           ++ done.
           ++ destruct ls as [|l' ls']; [simpl in *; by subst|].
              rewrite last_cons_cons.
              destruct (last (l' :: ls')) eqn:Hl'; [done|]. by apply last_None in Hl'.
        -- right. rewrite unchainable_cons. destruct Hr as [Hblocked|?]; [left|by right].
           destruct x' as [xs|v]; [done|]. apply output_of_node in Hout.
           split; [done|]. destruct ls as [|l' ls']; [done|]. by exists l', ls'.
    + apply runs_ret; [done..|]. simpl. left.
      destruct x; simpl in *; done.
Qed.

(** [MLP.__call__] on a list of inputs, in a well-formed heap that holds
    the network's parameters.  The call only allocates and leaves the heap
    well formed, and it ends in one of three ways.  It raises an exception
    that [tanh] raises on some number (so it does not, in an arithmetic in
    which [tanh] never raises).  It raises [TypeError], and then some layer
    with exactly one neuron is followed by a layer that has neurons — the
    first returns a [Value], which the second cannot iterate.  Or it
    returns, and then there is no such pair of layers and what it returns
    is what the last layer returns: a node when that layer has exactly one
    neuron, else the list of its neurons' outputs (and the inputs
    themselves when there is no layer). *)
Theorem MLP_call_outcome σ (self : MLP) (x : list (Operand num)) :
  heap_wf σ → sets_wf σ → MLP_live σ self → Forall (operand_live σ) x →
  ∃ r σ',
    MLP_call self x σ = (r, σ') ∧ σ `prefix_of` σ' ∧ heap_wf σ' ∧ sets_wf σ' ∧
    ((∀ n : num, tanh_raises n = None) → ∃ o, r = Ok o) ∧
    match r with
    | Fail f => ∃ n e, tanh_raises n = Some e ∧ f = Raises e
    | Ok TypeError => unchainable (layers self)
    | Ok (Returns a) =>
        ¬ unchainable (layers self) ∧ activation_live σ' a ∧
        match last (layers self) with
        | None => a = Inputs x
        | Some l => output_of l a
        end
    end.
Proof.
  intros Hwf Hs Hlive Hx.
  destruct (runs_MLP_layers σ (layers self) (Inputs x) Hwf Hs Hlive Hx)
    as (r & σ' & Hrun & Hpre & Hwf' & Hs' & Hr).
  exists r, σ'. split_and!; [done..| |].
  - intros Hnever. destruct r as [o|f]; [by exists o|].
    destruct Hr as (n & e & Hn & _). by rewrite Hnever in Hn.
  - destruct r as [[a|]|f]; simpl in Hr.
    + by destruct Hr as (_ & ? & ? & ?).
    + by destruct Hr as [[]|?].
    + done.
Qed.

End Forward.

(** ** What a network computes *)

Section Values.
Context {num : Type} `{Arith num} `{SetOrder}.
Local Open Scope num_scope.
Implicit Types (σ : Heap num) (ls : list Layer).

Lemma zip_take_both {A B} (l : list A) (k : list B) :
  zip l k = zip (take (length k) l) (take (length l) k).
Proof.
  revert k. induction l as [|a l IH]; intros [|c k]; simpl; [done..|].
  f_equal. apply IH.
Qed.

(** [zip(self.w, x)] stops at the shorter of the two: a neuron called on
    more inputs than it has weights ignores the rest, one called on fewer
    leaves the other weights out of the sum, and no mismatch is reported.
    Called on [[]] it returns [tanh] of its bias node. *)
Theorem Neuron_call_pairs_weights_with_inputs (self : Neuron) (x : list (Operand num)) :
  Neuron_call self x =
    Neuron_call (mkNeuron (take (length x) (w self)) (b self)) (take (length (w self)) x) ∧
  ∀ σ, Neuron_call self [] σ = tanh (b self) σ.
Proof.
  split.
  - unfold Neuron_call, Neuron_act. cbn [w b]. by rewrite <- zip_take_both.
  - intros σ. unfold Neuron_call, Neuron_act. rewrite zip_with_nil_r.
    unfold mbind, M_bind. cbn [foldM mret M_ret]. by destruct (tanh (b self) σ) as [[?|?] ?].
Qed.

Lemma neuron_value_sum σ (n : Neuron) (x : list (Operand num)) :
  neuron_value σ n (operand_value σ <$> x) = tanh_formula (neuron_sum σ n x).
Proof.
  unfold neuron_value, neuron_sum. f_equal. generalize (data (obj σ (b n))).
  generalize (w n). intros ws. revert ws.
  induction x as [|xi x IH]; intros [|wi ws] acc; simpl; [done..|]. apply IH.
Qed.

Lemma neuron_value_prefix σ σ' (n : Neuron) (xs : list num) :
  σ `prefix_of` σ' → Neuron_live σ n → neuron_value σ' n xs = neuron_value σ n xs.
Proof.
  intros Hpre [Hw Hb]. unfold neuron_value. f_equal.
  rewrite (obj_prefix σ σ' (b n)) by done. generalize (data (obj σ (b n))).
  revert xs. induction Hw as [|wi ws Hwi Hws IH]; intros [|xi xs] acc; simpl; [done..|].
  rewrite (obj_prefix σ σ' wi) by done. apply IH.
Qed.

Lemma layer_value_prefix σ σ' (l : Layer) (xs : list num) :
  σ `prefix_of` σ' → Layer_live σ l → layer_value σ' l xs = layer_value σ l xs.
Proof.
  intros Hpre Hl. unfold layer_value. apply Forall_fmap_ext.
  eapply Forall_impl; [exact Hl|]. intros n Hn. by apply neuron_value_prefix.
Qed.

Lemma layers_value_prefix σ σ' ls (xs : list num) :
  σ `prefix_of` σ' → Forall (Layer_live σ) ls →
  layers_value σ' ls xs = layers_value σ ls xs.
Proof.
  intros Hpre Hls. revert xs. induction Hls as [|l ls Hl Hls IH]; intros xs; [done|].
  unfold layers_value in *. simpl. rewrite IH. f_equal. by apply layer_value_prefix.
Qed.

Lemma activation_values_outs σ (outs : list id) :
  activation_values σ (activation_of (match outs with [o] => Single o | _ => Many outs end))
  = (λ o, data (obj σ o)) <$> outs.
Proof.
  destruct outs as [|o [|o' outs]]; simpl; [done..|].
  do 2 f_equal. by rewrite <- list_fmap_compose.
Qed.

Lemma runs_Layer_value σ (l : Layer) (x : Activation num) :
  heap_wf σ → sets_wf σ → Layer_live σ l → activation_live σ x →
  runs (layer_returns σ l x) tanh_failure (Layer_call_on l x) σ.
Proof.
  intros Hwf Hs Hl Hx. destruct x as [xs|v]; unfold Layer_call_on.
  - unfold Layer_call.
    destruct (Layer_outs_run σ (neurons l) xs σ) as (σ' & Hpre & Hrun); [done..|].
    destruct (runs_outs σ (neurons l) xs Hwf Hs Hl Hx)
      as (r & σ'' & Hrun' & _ & Hwf' & Hs' & Hr).
    destruct (first_raise _) as [e|].
    + rewrite Hrun in Hrun'. injection Hrun' as <- <-.
      exists (Raise e), σ'. split_and!; [|done..].
      unfold mbind, M_bind. by rewrite Hrun.
    + destruct Hrun as (outs & Hrun & Houts).
      rewrite Hrun in Hrun'. injection Hrun' as <- <-. destruct Hr as [Hlive _].
      eexists (Ok _), σ'. split_and!; [|done..|].
      * unfold mbind, M_bind. rewrite Hrun. reflexivity.
      * split; [by apply activation_live_outs|].
        rewrite activation_values_outs. unfold layer_value. simpl.
        clear Hrun Hlive. induction Houts as [|n o ns outs (_ & _ & Hdata) _ IH]; [done|].
        simpl. f_equal; [|done]. by rewrite Hdata, neuron_value_sum.
  - destruct (neurons l) as [|n ns] eqn:Hns.
    + apply runs_ret; [done..|]. simpl. split; [done|].
      unfold layer_value. by rewrite Hns.
    + by apply runs_ret.
Qed.

Lemma runs_layers_value σ ls (x : Activation num) :
  heap_wf σ → sets_wf σ → Forall (Layer_live σ) ls → activation_live σ x →
  runs (layers_return σ ls x) tanh_failure (MLP_layers ls x) σ.
Proof.
  revert σ x. induction ls as [|l ls IH]; intros σ x Hwf Hs Hls Hx.
  - apply runs_ret; [done..|]. done.
  - apply Forall_cons in Hls as [Hl Hls]. cbn [MLP_layers].
    eapply runs_bind; [by apply runs_Layer_value|].
    intros r σ1 Hpre Hr Hwf1 Hs1. destruct r as [x'|]; [|by apply runs_ret].
    destruct Hr as [Hx' Hval].
    assert (Forall (Layer_live σ1) ls) as Hls1.
    { eapply Forall_impl; [exact Hls|]. intros l'.
      apply Layer_live_grows. by apply prefix_length. }
    eapply runs_weaken; [by apply IH|].
    intros σ2 r _ Hr. destruct r as [a|]; [|done]. simpl in Hr |- *.
    rewrite Hr, Hval. unfold layers_value at 2. simpl.
    by apply layers_value_prefix.
Qed.

(** [MLP.__call__] ends, and the only exceptions it raises besides
    [TypeError] are those [tanh] raises on some number.  When it returns,
    what it returns holds the composition of the layers: every layer maps
    the numbers it is given to one number per neuron, [tanh] of the bias
    plus the weighted inputs, and feeds them to the next.  A single
    output comes back as a node, several as a list. *)
Theorem MLP_call_value σ (self : MLP) (x : list (Operand num)) :
  heap_wf σ → sets_wf σ → MLP_live σ self → Forall (operand_live σ) x →
  ∃ r σ',
    MLP_call self x σ = (r, σ') ∧
    (∀ f, r = Fail f → ∃ n e, tanh_raises n = Some e ∧ f = Raises e) ∧
    ∀ a, r = Ok (Returns a) →
         activation_values σ' a = layers_value σ (layers self) (operand_value σ <$> x).
Proof.
  intros Hwf Hs Hlive Hx.
  destruct (runs_layers_value σ (layers self) (Inputs x) Hwf Hs Hlive Hx)
    as (r & σ' & Hrun & _ & _ & _ & Hr).
  exists r, σ'. split_and!; [done|by intros f ->|by intros a ->].
Qed.

End Values.

(** ** When a closure is called *)

Section Calls.
Context {num : Type} `{Arith num} `{SetOrder}.
Implicit Types (σ : Heap num) (u v root : id).

Lemma pass_writes_app (nodes nodes' : list id) σ :
  pass_writes (nodes ++ nodes') σ = pass_writes nodes' (pass_writes nodes σ).
Proof. unfold pass_writes. apply foldl_app. Qed.

Lemma calls_made_app σ (nodes nodes' : list id) :
  ∃ rest, calls_made σ (nodes ++ nodes') = calls_made σ nodes ++ rest ∧
          rest `prefix_of` nodes'.
Proof.
  induction nodes as [|n nodes (rest & IH & Hrest)].
  - exists (calls_made σ nodes'). split; [done|apply calls_made_prefix].
  - cbn [app calls_made]. destruct (closure_fails _ _).
    + exists []. split; [done|apply prefix_nil].
    + exists rest. split; [by rewrite IH|done].
Qed.

Lemma pass_writes_last_call σ root (pre post : list id) p s (nodes : list id) :
  heap_wf σ → topo_of σ root = Some (pre ++ p :: post) → p ∉ pre →
  same_skeleton σ s → (∀ n, n ∈ nodes → n ∈ [p] ++ reverse pre) →
  obj (pass_writes nodes s) p = obj s p.
Proof.
  intros Hwf Htopo Hp Hs Hnodes.
  apply pass_writes_outside; [by eapply heap_wf_skeleton|].
  intros n Hn%Hnodes. rewrite (same_skeleton_prev σ s n Hs). intros Hin.
  apply elem_of_app in Hn as [->%list_elem_of_singleton|Hn].
  - destruct (Hwf p) as [Hlt _]. rewrite Forall_forall in Hlt.
    specialize (Hlt p Hin). lia.
  - rewrite elem_of_reverse in Hn. apply list_elem_of_lookup in Hn as [i Hi].
    assert ((pre ++ p :: post) !! i = Some n) as Hi' by (by apply lookup_app_l_Some).
    destruct (topo_of_operands_first σ root _ Hwf Htopo i n Hi' p Hin) as (j & Hj & Hjp).
    apply lookup_lt_Some in Hi. rewrite lookup_app_l in Hjp by lia.
    apply Hp. by eapply list_elem_of_lookup_2.
Qed.

(** [backward] walks the sequence from its end.  When it calls the
    closure of a node for the last time — at the first place the node has
    in the sequence — the node's gradient is final: nothing is added to
    it afterwards.  (At an earlier call, which a node has when it occurs
    more than once, the gradient it passes on is not complete yet.) *)
Theorem last_call_sees_the_final_gradient σ root (pre post : list id) p :
  heap_wf σ → topo_of σ root = Some (pre ++ p :: post) → p ∉ pre →
  obj (backward root σ).2 p =
  obj (run_backward (reverse post) (set_grad root (lit 1) σ)).2 p.
Proof.
  intros Hwf Htopo Hp. rewrite (backward_run σ root _ Htopo), !run_backward_run. cbn [snd].
  rewrite reverse_app, reverse_cons, <- app_assoc.
  destruct (calls_made_app (set_grad root (lit 1) σ) (reverse post) ([p] ++ reverse pre))
    as (rest & -> & Hrest).
  rewrite pass_writes_app.
  apply (pass_writes_last_call σ root pre post).
  - done.
  - done.
  - done.
  - etrans; [apply (skeleton_set_grad root (lit 1))|apply skeleton_pass_writes].
  - intros n Hn. destruct Hrest as [more ->]. apply elem_of_app. by left.
Qed.

End Calls.

(** ** A network built and then called *)

Section BuiltNetwork.
Context {num : Type} `{Arith num} `{SetOrder}.
Implicit Types (σ : Heap num) (ls : list Layer).

Lemma heap_wf_drawn σ rand k n : heap_wf σ → heap_wf (σ ++ drawn rand k n).
Proof.
  revert σ k. induction n as [|n IH]; intros σ k Hwf.
  - unfold drawn. simpl. by rewrite app_nil_r.
  - unfold drawn. simpl. rewrite cons_middle, app_assoc. apply IH. by apply heap_wf_leaf.
Qed.

Lemma sets_wf_drawn σ rand k n : sets_wf σ → sets_wf (σ ++ drawn rand k n).
Proof.
  revert σ k. induction n as [|n IH]; intros σ k Hs.
  - unfold drawn. simpl. by rewrite app_nil_r.
  - unfold drawn. simpl. rewrite cons_middle, app_assoc. apply IH.
    apply sets_wf_snoc; [done|constructor].
Qed.

Lemma shape_sizes ls (n : nat) (sizes : list nat) :
  Forall2 Layer_shape ls (zip (n :: sizes) sizes) →
  Forall2 (λ l s, length (neurons l) = s) ls sizes.
Proof.
  intros Hshape. rewrite <- (snd_zip (n :: sizes) sizes) by (simpl; lia).
  apply Forall2_fmap_r. eapply Forall2_impl; [exact Hshape|]. by intros l size [? _].
Qed.

Lemma unchainable_sizes ls (sizes : list nat) :
  Forall2 (λ l s, length (neurons l) = s) ls sizes →
  unchainable ls ↔ ∃ i m, sizes !! i = Some 1 ∧ sizes !! S i = Some (S m).
Proof.
  intros Hsizes. split.
  - intros (i & l & l' & Hl & Hl' & Hone & Hsome).
    destruct (Forall2_lookup_l _ _ _ _ _ Hsizes Hl) as (s & Hs & Hlen).
    destruct (Forall2_lookup_l _ _ _ _ _ Hsizes Hl') as (s' & Hs' & Hlen').
    destruct s' as [|m]; [by destruct (neurons l')|].
    exists i, m. split; [|done]. by rewrite Hs, <- Hlen, Hone.
  - intros (i & m & Hs & Hs').
    destruct (Forall2_lookup_r _ _ _ _ _ Hsizes Hs) as (l & Hl & Hlen).
    destruct (Forall2_lookup_r _ _ _ _ _ Hsizes Hs') as (l' & Hl' & Hlen').
    exists i, l, l'. split_and!; [done..|]. by destruct (neurons l').
Qed.

(** [MLP(num_inputs, sizes)(x)] and a [1] in [sizes] followed by a size
    that is not [0]: a layer of one neuron can only be the last (or be
    followed by empty layers).  The call raises [TypeError] only when
    [sizes] holds such a pair, and with such a pair it does not return:
    it raises [TypeError], unless [tanh] raised on some number before.
    So in an arithmetic in which [tanh] never raises, it raises
    [TypeError] exactly when [sizes] holds such a pair. *)
Theorem MLP_with_an_inner_layer_of_one_neuron rand k num_inputs (sizes : list nat)
    σ (x : list (Operand num)) :
  heap_wf σ → sets_wf σ → Forall (operand_live σ) x →
  ∃ (mlp : MLP) k' σ1 r σ2,
    MLP_new rand k num_inputs sizes σ = (Ok (mlp, k'), σ1) ∧
    MLP_call mlp x σ1 = (r, σ2) ∧
    (r = Ok TypeError → ∃ i m, sizes !! i = Some 1 ∧ sizes !! S i = Some (S m)) ∧
    ((∃ i m, sizes !! i = Some 1 ∧ sizes !! S i = Some (S m)) →
     ∀ a, r ≠ Ok (Returns a)) ∧
    (∀ f, r = Fail f → ∃ n e, tanh_raises n = Some e ∧ f = Raises e) ∧
    ((∀ n : num, tanh_raises n = None) →
     (r = Ok TypeError ↔ ∃ i m, sizes !! i = Some 1 ∧ sizes !! S i = Some (S m))).
Proof.
  intros Hwf Hs Hx.
  set (shape := zip (num_inputs :: sizes) sizes).
  destruct (Layers_new_run rand k shape σ) as (ls & Hrun & _ & Hshape & Hlive).
  set (σ1 := σ ++ drawn rand k (parameter_count shape)) in *.
  assert (σ `prefix_of` σ1) as Hpre by (by apply prefix_app_r).
  destruct (runs_MLP_layers σ1 ls (Inputs x)) as (r & σ2 & Hcall & _ & _ & _ & Hr).
  { by apply heap_wf_drawn. }
  { by apply sets_wf_drawn. }
  { done. }
  { by eapply operands_live_grow. }
  exists (mkMLP ls), (k + parameter_count shape), σ1, r, σ2.
  rewrite <- (unchainable_sizes ls sizes) by (by eapply shape_sizes).
  split_and!.
  - unfold MLP_new, mbind, M_bind. cbn [app drop]. rewrite drop_0. fold shape.
    by rewrite Hrun.
  - done.
  - intros ->. simpl in Hr. by destruct Hr as [[]|Hchain].
  - intros Hchain a ->. simpl in Hr. by destruct Hr as (_ & ? & _).
  - by intros f ->.
  - intros Hnever. destruct r as [[a|]|f]; simpl in Hr.
    + destruct Hr as (_ & Hchain & _). split; [done|]. by intros ?.
    + by destruct Hr as [[]|Hchain].
    + destruct Hr as (n & e & Hn & _). by rewrite Hnever in Hn.
Qed.

End BuiltNetwork.

(** ** Graphs without shared nodes *)

Section Trees.
Context {num : Type} `{Arith num} `{SetOrder}.
Local Open Scope num_scope.
Implicit Types (σ s : Heap num) (u v root : id).

Lemma pass_increments_app (nodes nodes' : list id) σ :
  pass_increments (nodes ++ nodes') σ =
  pass_increments nodes σ ++ pass_increments nodes' (pass_writes nodes σ).
Proof.
  revert σ. induction nodes as [|n nodes IH]; intros σ; [done|].
  simpl. by rewrite IH, app_assoc.
Qed.

Lemma received_none v (log : list (id * num)) :
  (∀ x g, (x, g) ∈ log → x ≠ v) → received v log = [].
Proof.
  induction log as [|[x g] log IH]; intros Hlog; [done|].
  rewrite received_cons. case_decide as Hx.
  { exfalso. apply (Hlog x g); [by left|done]. }
  apply IH. intros x' g' Hin. apply (Hlog x' g'). by right.
Qed.

Lemma increments_targets (c : Closure num) σ x (g : num) :
  (x, g) ∈ increments c σ → x ∈ closure_operands c.
Proof. destruct c; simpl; set_solver. Qed.

Lemma closure_operands_prev σ i u :
  heap_wf σ → u ∈ closure_operands (_backward (obj σ i)) → u ∈ _prev (obj σ i).
Proof.
  intros Hwf Hu. destruct (Hwf i) as [_ Hc].
  destruct (_backward (obj σ i)); simpl in *; [set_solver|..]; destruct_and!; set_solver.
Qed.

Lemma pass_received_outside σ (nodes : list id) v :
  heap_wf σ → (∀ n, n ∈ nodes → v ∉ _prev (obj σ n)) →
  received v (pass_increments nodes σ) = [].
Proof.
  revert σ. induction nodes as [|n nodes IH]; intros σ Hwf Hout; [done|].
  pose proof (skeleton_closure_writes (_backward (obj σ n)) σ) as Hs.
  simpl. rewrite received_app, IH.
  - rewrite app_nil_r. apply received_none. intros x g Hx ->.
    apply (Hout n); [by left|]. eapply closure_operands_prev; [done|].
    by eapply increments_targets.
  - by eapply heap_wf_skeleton.
  - intros n' Hn'. rewrite (same_skeleton_prev _ _ n' Hs). apply Hout. by right.
Qed.

(** What a closure adds depends on the heap through the data of the
    nodes and the gradient of its own node only. *)
Lemma increments_final (c : Closure num) s s' p (prev : list id) :
  same_skeleton s s' → closure_wf p prev c → Forall (λ u, u < p) prev →
  grad (obj s p) = grad (obj s' p) →
  increments c s = increments c s'.
Proof.
  intros Hs Hc Hlt Hg. rewrite Forall_forall in Hlt.
  assert (∀ i, data (obj s' i) = data (obj s i)) as Hdata.
  { intros i. by destruct (same_skeleton_fields s s' i Hs) as (? & _). }
  destruct c; simpl in *; [done|..]; destruct_and!; subst.
  - assert (self ≠ p) by (intros ->; by apply (Nat.lt_irrefl p), Hlt).
    by rewrite !obj_bump_ne, Hg by done.
  - assert (self ≠ p) by (intros ->; by apply (Nat.lt_irrefl p), Hlt).
    assert (∀ g t i, data (obj (bump self g t) i) = data (obj t i)) as Hbump.
    { intros g t i. by destruct (same_skeleton_fields t _ i (skeleton_bump self g t)) as (? & _). }
    by rewrite !Hbump, !obj_bump_ne, Hg, !Hdata by done.
  - by rewrite Hg, Hdata.
  - by rewrite Hg, Hdata.
  - by rewrite Hg.
Qed.

Lemma NoDup_topo_one_consumer σ root (topo : list id) :
  topo_of σ root = Some topo → NoDup topo →
  ∀ u p q, reachable σ root p → reachable σ root q →
           u ∈ _prev (obj σ p) → u ∈ _prev (obj σ q) → p = q.
Proof.
  intros Htopo Hnd u p q Hp Hq Hup Huq.
  destruct (topo_of_visited σ root topo Htopo) as (vis & Hvisit & Hreach).
  destruct (proj1 (visit_appends σ) _ _ _ Hvisit)
    as (expanded & new & Hex & _ & Hvis & Heq & Hperm).
  simpl in *. subst new.
  rewrite Hperm, NoDup_cons, (NoDup_bind_disjoint _ _ Hex) in Hnd.
  destruct Hnd as (_ & _ & Hinj).
  assert (∀ u, u ∈ expanded ↔ reachable σ root u) as Hexp.
  { intros w. rewrite <- Hreach, Hvis. set_solver. }
  apply (Hinj p q u); [by apply Hexp|by apply Hexp|done..].
Qed.

(** What an operand [v] of a reachable node [p] has gained in a pass
    over a graph without shared nodes. *)
Lemma unshared_gradient_rule σ root (topo : list id) p v :
  heap_wf σ → topo_of σ root = Some topo → NoDup topo →
  (backward root σ).1 = Ok () →
  reachable σ root p → v ∈ _prev (obj σ p) →
  let σ' := (backward root σ).2 in
  grad (obj σ' v) =
  foldl nadd (grad (obj σ v)) (received v (increments (_backward (obj σ p)) σ')).
Proof.
  intros Hwf Htopo Hnd Hok Hp Hv σ'.
  assert (σ' = pass_writes (reverse topo) (set_grad root (lit 1) σ)) as Hheap.
  { subst σ'. rewrite (backward_outcome σ root topo Htopo) in Hok.
    destruct (pass_fails σ (reverse topo)) eqn:Hf; [done|].
    by rewrite (backward_eval σ root topo Htopo Hf). }
  assert (v < p) as Hvp.
  { destruct (Hwf p) as [Hlt _]. rewrite Forall_forall in Hlt. by apply Hlt. }
  assert (p < length σ) as Hplive.
  { destruct (decide (p < length σ)) as [?|Hdead]; [done|].
    unfold obj in Hv. rewrite lookup_ge_None_2 in Hv by lia. by apply elem_of_nil in Hv. }
  pose proof (reachable_le σ root p Hwf Hp) as Hproot.
  assert (p ∈ topo) as Hin by (by apply (topo_of_reachable σ root topo Htopo)).
  apply list_elem_of_split in Hin as (pre & post & ->).
  pose proof Hnd as Hnd'.
  apply NoDup_app in Hnd as (_ & Hpre & [Hpost _]%NoDup_cons).
  assert (p ∉ pre) as Hppre by (intros Hin; apply (Hpre p Hin); by left).
  assert (∀ n, n ∈ pre ++ post → v ∉ _prev (obj σ n)) as Hother.
  { intros n Hn Hvn.
    assert (n = p) as ->.
    { apply (NoDup_topo_one_consumer σ root _ Htopo Hnd' v); [|done..].
      apply (topo_of_reachable σ root _ Htopo). set_solver. }
    set_solver. }
  rewrite Hheap. clear Hheap Hok σ'.
  set (σ0 := set_grad root (lit 1) σ).
  assert (same_skeleton σ σ0) as Hs0 by apply skeleton_set_grad.
  set (s := pass_writes (reverse post) σ0).
  assert (same_skeleton σ s) as Hs.
  { etrans; [exact Hs0|apply skeleton_pass_writes]. }
  rewrite reverse_app, reverse_cons, <- app_assoc, pass_writes_app. fold s.
  set (σf := pass_writes ([p] ++ reverse pre) s).
  assert (same_skeleton s σf) as Hsf by apply skeleton_pass_writes.
  assert (grad (obj σf v) =
          foldl nadd (grad (obj σ v))
                (received v (increments (_backward (obj σ p)) s))) as ->.
  { unfold σf, s. rewrite <- pass_writes_app.
    rewrite pass_writes_received by (unfold σ0; rewrite length_set_grad; lia).
    unfold σ0 at 1. rewrite obj_set_grad_ne by lia. f_equal.
    rewrite !pass_increments_app, !received_app. fold s.
    rewrite (pass_received_outside σ0), (pass_received_outside (pass_writes [p] s)).
    - simpl. rewrite !app_nil_r. by rewrite (same_skeleton_closure σ s p Hs).
    - eapply heap_wf_skeleton; [|exact Hwf]. etrans; [exact Hs|apply skeleton_pass_writes].
    - intros n Hn. rewrite elem_of_reverse in Hn.
      assert (same_skeleton σ (pass_writes [p] s)) as Hs1
        by (etrans; [exact Hs|apply skeleton_pass_writes]).
      rewrite (same_skeleton_prev σ _ n Hs1).
      apply Hother. set_solver.
    - by eapply heap_wf_skeleton.
    - intros n Hn. rewrite elem_of_reverse in Hn.
      rewrite (same_skeleton_prev σ σ0 n Hs0). apply Hother. set_solver. }
  do 2 f_equal. destruct (Hwf p) as [Hlt Hc].
  apply (increments_final _ s σf p (_prev (obj σ p))); [done..|].
  unfold σf. by rewrite (pass_writes_last_call σ root pre post p s ([p] ++ reverse pre)).
Qed.

(** A pass returns exactly when no closure it calls fails. *)
Lemma pass_fails_None σ (nodes : list id) :
  pass_fails σ nodes = None ↔
  ∀ n, n ∈ nodes → closure_fails (_backward (obj σ n)) σ = None.
Proof.
  induction nodes as [|n nodes IH]; cbn [pass_fails].
  - split; [|done]. by intros _ n ?%elem_of_nil.
  - destruct (closure_fails (_backward (obj σ n)) σ) eqn:Hn.
    + split; [done|]. intros Hall. rewrite Hall in Hn; [done|by left].
    + rewrite IH. split.
      * intros Hall n' [->|?]%elem_of_cons; [done|by apply Hall].
      * intros Hall n' ?. apply Hall. by right.
Qed.

Lemma backward_returns_iff_quiet σ root (topo : list id) :
  topo_of σ root = Some topo → (backward root σ).1 = Ok () ↔ quiet σ root.
Proof.
  intros Htopo. rewrite (backward_outcome σ root topo Htopo). unfold quiet.
  transitivity (pass_fails σ (reverse topo) = None).
  { by destruct (pass_fails σ (reverse topo)). }
  rewrite pass_fails_None. split.
  - intros Hall u Hu. apply Hall. rewrite elem_of_reverse.
    by apply (topo_of_reachable σ root topo Htopo).
  - intros Hall n Hn. apply Hall. rewrite elem_of_reverse in Hn.
    by apply (topo_of_reachable σ root topo Htopo).
Qed.

(** When no node reachable from the root is shared — the sequence of
    [build_topo] holds no node twice.  The pass returns exactly when no
    closure of a reachable node fails, and the root has gradient [1]
    either way.  When the pass returns, the gradients it leaves satisfy
    the rules of the closures: what an operand [v] of a reachable node
    [p] has gained is exactly what the closure of [p] adds to [v] when it
    is run on the final heap, that is, with the final gradient of [p]. *)
Theorem unshared_gradients_follow_the_rules σ root (topo : list id) :
  heap_wf σ → root < length σ → topo_of σ root = Some topo → NoDup topo →
  let σ' := (backward root σ).2 in
  ((backward root σ).1 = Ok () ↔
   ∀ u, reachable σ root u → closure_fails (_backward (obj σ u)) σ = None) ∧
  grad (obj σ' root) = lit 1 ∧
  ((backward root σ).1 = Ok () →
   ∀ p v, reachable σ root p → v ∈ _prev (obj σ p) →
          grad (obj σ' v) =
          foldl nadd (grad (obj σ v))
                (received v (increments (_backward (obj σ p)) σ'))).
Proof.
  intros Hwf Hroot Htopo Hnd σ'. split_and!.
  - by apply (backward_returns_iff_quiet σ root topo).
  - by apply backward_seed.
  - intros Hok p v Hp Hv. by apply (unshared_gradient_rule σ root topo).
Qed.

End Trees.

(** ** Building graphs without shared nodes *)

Section Unshared.
Context {num : Type} `{Arith num} `{SetOrder}.
Local Open Scope num_scope.
Implicit Types (σ s : Heap num) (u v root : id).

Lemma reachable_cases σ r u :
  reachable σ r u ↔ u = r ∨ ∃ c, c ∈ _prev (obj σ r) ∧ reachable σ c u.
Proof.
  split.
  - intros Hr. destruct (rtc_inv _ _ Hr) as [->|(c & Hc & Hcu)]; [by left|right].
    by exists c.
  - intros [->|(c & Hc & Hcu)]; [apply rtc_refl|]. by eapply rtc_l.
Qed.

Lemma reachable_prefix σ σ' r u :
  heap_wf σ → σ `prefix_of` σ' → r < length σ →
  reachable σ' r u ↔ reachable σ r u.
Proof.
  intros Hwf Hpre Hr. split.
  - intros Hreach. induction Hreach as [r|r c u Hc _ IH]; [apply rtc_refl|].
    unfold operand_of in Hc. rewrite (obj_prefix σ σ' r) in Hc by done.
    destruct (Hwf r) as [Hlt _]. rewrite Forall_forall in Hlt. specialize (Hlt c Hc).
    eapply rtc_l; [exact Hc|]. apply IH. lia.
  - intros Hreach. induction Hreach as [r|r c u Hc _ IH]; [apply rtc_refl|].
    destruct (Hwf r) as [Hlt _]. rewrite Forall_forall in Hlt.
    pose proof (Hlt c Hc) as Hcr.
    eapply (rtc_l _ _ c); [|apply IH; lia].
    unfold operand_of. by rewrite (obj_prefix σ σ' r).
Qed.

Lemma unshared_leaf σ r : _prev (obj σ r) = [] → unshared σ r.
Proof.
  intros Hleaf u p q Hp Hq Hup Huq.
  apply reachable_cases in Hp as [->|(c & Hc & _)]; [|by rewrite Hleaf in Hc; apply elem_of_nil in Hc].
  rewrite Hleaf in Hup. by apply elem_of_nil in Hup.
Qed.

Lemma unshared_prefix σ σ' r :
  heap_wf σ → σ `prefix_of` σ' → r < length σ → unshared σ r → unshared σ' r.
Proof.
  intros Hwf Hpre Hr Hun u p q Hp Hq Hup Huq.
  apply (reachable_prefix σ σ') in Hp, Hq; [|done..].
  pose proof (reachable_le σ r p Hwf Hp). pose proof (reachable_le σ r q Hwf Hq).
  rewrite (obj_prefix σ σ') in Hup, Huq by (done || lia).
  by apply (Hun u p q).
Qed.

(** A node whose operands are the roots of graphs without shared nodes,
    no two of which have a node in common, is the root of a graph
    without shared nodes. *)
Lemma unshared_node σ r :
  heap_wf σ →
  (∀ c, c ∈ _prev (obj σ r) → unshared σ c) →
  (∀ c c' u, c ∈ _prev (obj σ r) → c' ∈ _prev (obj σ r) →
             reachable σ c u → reachable σ c' u → c = c') →
  unshared σ r.
Proof.
  intros Hwf Hsub Hdisj u p q Hp Hq Hup Huq.
  assert (∀ x y, x ∈ _prev (obj σ y) → x < y) as Hbelow.
  { intros x y Hx. destruct (Hwf y) as [Hlt _]. rewrite Forall_forall in Hlt. by apply Hlt. }
  assert (∀ c q', c ∈ _prev (obj σ r) → reachable σ c q' → u ∈ _prev (obj σ q') →
                  u ∈ _prev (obj σ r) → False) as Hmix.
  { intros c q' Hc Hcq Huq' Hur.
    assert (reachable σ c u) as Hcu by (eapply rtc_r; [exact Hcq|exact Huq']).
    assert (u = c) as Huc.
    { apply (Hdisj u c u); [exact Hur|exact Hc|apply rtc_refl|exact Hcu]. }
    subst u.
    pose proof (reachable_le σ c q' Hwf Hcq). specialize (Hbelow c q' Huq'). lia. }
  apply reachable_cases in Hp as [->|(c & Hc & Hcp)];
    apply reachable_cases in Hq as [->|(c' & Hc' & Hcq)].
  - done.
  - exfalso. by apply (Hmix c' q).
  - exfalso. by apply (Hmix c p).
  - assert (c = c') as <-.
    { apply (Hdisj c c' u); [done|done|by apply (rtc_r _ p)|by apply (rtc_r _ q)]. }
    by apply (Hsub c Hc u p q).
Qed.

Lemma unshared_topo_NoDup σ root (topo : list id) :
  heap_wf σ → sets_wf σ → topo_of σ root = Some topo → unshared σ root → NoDup topo.
Proof.
  intros Hwf Hs Htopo Hun.
  destruct (topo_of_visited σ root topo Htopo) as (vis & Hvisit & Hreach).
  destruct (proj1 (visit_appends σ) _ _ _ Hvisit)
    as (expanded & new & Hnd & _ & Hvis & Heq & Hperm).
  simpl in *. subst new.
  assert (∀ u, u ∈ expanded ↔ reachable σ root u) as Hexp.
  { intros u. rewrite <- Hreach, Hvis. set_solver. }
  rewrite Hperm, NoDup_cons, (NoDup_bind_disjoint _ _ Hnd). split_and!.
  - intros (p & Hroot & Hp)%list_elem_of_bind. apply Hexp in Hp.
    pose proof (reachable_le σ root p Hwf Hp) as Hle.
    destruct (Hwf p) as [Hlt _]. rewrite Forall_forall in Hlt.
    specialize (Hlt root Hroot). lia.
  - intros a _. apply Hs.
  - intros p q u Hp Hq. apply Hun; by apply Hexp.
Qed.

End Unshared.

(** ** The graph of a neuron *)

Section NeuronGraph.
Context {num : Type} `{Arith num} `{SetOrder}.
Local Open Scope num_scope.
Implicit Types (σ s : Heap num) (u v root : id).

Lemma reachable_leaf σ r u : _prev (obj σ r) = [] → reachable σ r u → u = r.
Proof.
  intros Hleaf [->|(c & Hc & _)]%reachable_cases; [done|].
  rewrite Hleaf in Hc. by apply elem_of_nil in Hc.
Qed.

(** One round of the sum on a number: the three objects it allocates. *)
Lemma neuron_step_number σ acc wi (xi : num) :
  wi < length σ → acc < length σ →
  let L := length σ in
  (item ← __mul__ wi (ONum xi); __add__ acc (ONode item)) σ =
  (Ok (S (S L)),
   σ ++ [leaf xi;
         mkValue (data (obj σ wi) * xi) (lit 0) (MulBw wi L (S L))
                 (py_set [wi; L]) Op_mul "";
         mkValue (data (obj σ acc) + data (obj σ wi) * xi) (lit 0)
                 (AddBw acc (S L) (S (S L))) (py_set [acc; S L]) Op_add ""]).
Proof.
  intros Hwi Hacc L.
  assert (length (σ ++ [leaf xi]) = S L) as HL1 by (rewrite length_app; simpl; lia).
  rewrite neuron_step_run. cbv zeta. cbn [coerced coerced_heap].
  rewrite (obj_snoc (σ ++ [leaf xi])), (obj_snoc σ (leaf xi)). cbn [data].
  rewrite (obj_app_l (σ ++ [leaf xi])) by lia.
  rewrite !(obj_app_l σ [leaf xi]) by done.
  rewrite (length_app (σ ++ [leaf xi])), HL1. cbn [length]. fold L.
  replace (S L + 1)%nat with (S (S L)) by lia.
  by rewrite <- !app_assoc.
Qed.

(** The sum of a neuron over numbers is built without sharing: if the
    graph of [acc] has no shared node, the weights are different leaves
    and none of them is in that graph, then the graph of the result has
    no shared node either. *)
Lemma neuron_sum_unshared σ acc (items : list (id * num)) :
  heap_wf σ → sets_wf σ → acc < length σ → unshared σ acc →
  NoDup items.*1 →
  Forall (λ p, p.1 < length σ ∧ _prev (obj σ p.1) = [] ∧ ¬ reachable σ acc p.1) items →
  ∃ act σ',
    foldM (λ result '(wi, xi), item ← __mul__ wi xi; __add__ result (ONode item))
          acc ((λ p, (p.1, ONum p.2)) <$> items) σ = (Ok act, σ') ∧
    σ `prefix_of` σ' ∧ heap_wf σ' ∧ sets_wf σ' ∧ act < length σ' ∧
    unshared σ' act ∧ ∀ σ'', σ' `prefix_of` σ'' → summed σ'' acc items act.
Proof.
  revert σ acc. induction items as [|[wi xi] items IH];
    intros σ acc Hwf Hs Hacc Hun Hnd Hitems.
  { exists acc, σ. by split_and!. }
  apply Forall_cons in Hitems as [(Hwi & Hleaf & Hfresh) Hitems].
  rewrite fmap_cons in Hnd. apply NoDup_cons in Hnd as [Hnotin Hnd].
  simpl in Hwi, Hleaf, Hfresh, Hnotin.
  pose proof (neuron_step_number σ acc wi xi Hwi Hacc) as Hstep. cbv zeta in Hstep.
  set (L := length σ) in *.
  set (prodv := mkValue (data (obj σ wi) * xi) (lit 0) (MulBw wi L (S L))
                        (py_set [wi; L]) Op_mul "") in *.
  set (totalv := mkValue (data (obj σ acc) + data (obj σ wi) * xi) (lit 0)
                         (AddBw acc (S L) (S (S L))) (py_set [acc; S L]) Op_add "") in *.
  set (σ3 := σ ++ [leaf xi; prodv; totalv]) in *.
  assert (length σ3 = S (S (S L))) as Hlen3.
  { unfold σ3. rewrite length_app. simpl. lia. }
  assert (σ `prefix_of` σ3) as Hpre3 by (by apply prefix_app_r).
  assert (heap_wf σ3 ∧ sets_wf σ3) as [Hwf3 Hs3].
  { assert (builds node_live
              (item ← __mul__ wi (ONum xi); __add__ acc (ONode item)) σ) as Hb.
    { eapply (builds_bind node_live); [by apply builds_mul|].
      intros item σ1 Hpre Hitem Hwf1 Hs1. apply builds_add; [done..| |done].
      apply prefix_length in Hpre. lia. }
    destruct Hb as (a & σ'' & Hrun & _ & _ & Hwf'' & Hs'').
    rewrite Hstep in Hrun. by injection Hrun as <- <-. }
  assert (∀ i, i < L → obj σ3 i = obj σ i) as Hold.
  { intros i Hi. by apply obj_app_l. }
  assert (obj σ3 L = leaf xi) as Hxl.
  { unfold σ3, obj. rewrite lookup_app_r by done. fold L. by rewrite Nat.sub_diag. }
  assert (obj σ3 (S L) = prodv) as Hpr.
  { unfold σ3, obj. rewrite lookup_app_r by (fold L; lia). fold L.
    by replace (S L - L)%nat with 1 by lia. }
  assert (obj σ3 (S (S L)) = totalv) as Htot.
  { unfold σ3, obj. rewrite lookup_app_r by (fold L; lia). fold L.
    by replace (S (S L) - L)%nat with 2 by lia. }
  assert (_prev (obj σ3 wi) = []) as Hleaf3 by (by rewrite Hold).
  assert (_prev (obj σ3 L) = []) as Hleafx by (by rewrite Hxl).
  assert (∀ u, reachable σ3 (S L) u → u = S L ∨ u = wi ∨ u = L) as Hreach_pr.
  { intros u [->|(c & Hc & Hcu)]%reachable_cases; [by left|right].
    rewrite Hpr in Hc. apply (proj1 (py_set_elem [wi; L] c)) in Hc.
    apply elem_of_cons in Hc as [->| ->%list_elem_of_singleton].
    - left. by apply (reachable_leaf σ3 wi).
    - right. by apply (reachable_leaf σ3 L). }
  assert (∀ u, reachable σ3 acc u → reachable σ acc u) as Hreach_acc.
  { intros u Hu. by apply (reachable_prefix σ σ3 acc u Hwf Hpre3 Hacc). }
  assert (unshared σ3 (S L)) as Hun_pr.
  { apply unshared_node; [done|..].
    - intros c Hc. rewrite Hpr in Hc. apply (proj1 (py_set_elem [wi; L] c)) in Hc.
      apply elem_of_cons in Hc as [->| ->%list_elem_of_singleton]; by apply unshared_leaf.
    - intros c c' u Hc Hc' Hcu Hcu'. rewrite Hpr in Hc, Hc'.
      apply (proj1 (py_set_elem [wi; L] c)) in Hc.
      apply (proj1 (py_set_elem [wi; L] c')) in Hc'.
      assert (u = c) as <-.
      { apply elem_of_cons in Hc as [->| ->%list_elem_of_singleton];
          by eapply reachable_leaf. }
      apply elem_of_cons in Hc' as [->| ->%list_elem_of_singleton];
        by eapply reachable_leaf. }
  assert (unshared σ3 (S (S L))) as Hun3.
  { apply unshared_node; [done|..].
    - intros c Hc. rewrite Htot in Hc. apply (proj1 (py_set_elem [acc; S L] c)) in Hc.
      apply elem_of_cons in Hc as [->| ->%list_elem_of_singleton]; [|done].
      by apply (unshared_prefix σ).
    - assert (∀ u, reachable σ3 acc u → reachable σ3 (S L) u → False) as Hdisj.
      { intros u Hu1%Hreach_acc Hu2%Hreach_pr.
        pose proof (reachable_le σ acc u Hwf Hu1).
        destruct Hu2 as [->|[->| ->]]; [lia|done|lia]. }
      intros c c' u Hc Hc' Hcu Hcu'. rewrite Htot in Hc, Hc'.
      apply (proj1 (py_set_elem [acc; S L] c)) in Hc.
      apply (proj1 (py_set_elem [acc; S L] c')) in Hc'.
      apply elem_of_cons in Hc as [->| ->%list_elem_of_singleton];
        apply elem_of_cons in Hc' as [->| ->%list_elem_of_singleton];
        [done|by destruct (Hdisj u)|by destruct (Hdisj u)|done]. }
  destruct (IH σ3 (S (S L))) as (act & σ' & Hrun & Hpre' & Hwf' & Hs' & Hact & Hun' & Hsum);
    [done|done|lia|done|done| |].
  { apply Forall_forall. intros [w x] Hin. rewrite Forall_forall in Hitems.
    destruct (Hitems _ Hin) as (Hw & Hwleaf & Hwfresh). simpl in *.
    split_and!; [lia|by rewrite Hold|].
    assert (w ≠ wi) as Hne.
    { intros ->. apply Hnotin. apply list_elem_of_fmap. by exists (wi, x). }
    intros [Heq|(c & Hc & Hcu)]%reachable_cases; [lia|].
    rewrite Htot in Hc. apply (proj1 (py_set_elem [acc; S L] c)) in Hc.
    apply elem_of_cons in Hc as [->| ->%list_elem_of_singleton].
    - by apply Hwfresh, Hreach_acc.
    - apply Hreach_pr in Hcu as [?|[?|?]]; [lia|done|lia]. }
  exists act, σ'. split_and!; [|by etrans|done..|].
  - rewrite fmap_cons. cbn [foldM fst snd]. unfold mbind at 1, M_bind at 1.
    by rewrite Hstep.
  - intros σ'' Hpre''.
    assert (∀ i, i < length σ3 → obj σ'' i = obj σ3 i) as Hkeep.
    { intros i Hi. apply obj_prefix; [by etrans|done]. }
    exists L, (S L), (S (S L)). split_and!; [lia|lia|..|by apply Hsum].
    + by rewrite Hkeep, Hxl by lia.
    + rewrite !Hkeep, Hpr, Hold by lia. done.
    + rewrite !Hkeep, Htot, Hpr, Hold by lia. done.
Qed.

End NeuronGraph.

(** ** The gradients of a neuron *)


Section NeuronGradients.
Context (o : SetOrder).
Implicit Types (σ : Heap R) (items : list (id * R)).

Lemma summed_zero_grad σ acc items act :
  summed σ acc items act → grad (obj σ acc) = 0%R → grad (obj σ act) = 0%R.
Proof.
  revert acc. induction items as [|[wi xi] items IH]; intros acc; simpl.
  - by intros ->.
  - intros (xl & pr & ac & _ & _ & _ & _ & Hac & Hsum) _.
    apply (IH ac Hsum). by rewrite Hac.
Qed.

Lemma summed_data σ acc items act :
  summed σ acc items act →
  data (obj σ act) =
  foldl (λ a '(wi, xi), a + data (obj σ wi) * xi)%R (data (obj σ acc)) items.
Proof.
  revert acc. induction items as [|[wi xi] items IH]; intros acc; simpl.
  - by intros ->.
  - intros (xl & pr & ac & _ & _ & _ & Hpr & Hac & Hsum).
    rewrite (IH ac Hsum), Hac, Hpr. done.
Qed.

(** The closure of a leaf is the one that does nothing. *)
Lemma leaf_closure_quiet σ u :
  heap_wf σ → _prev (obj σ u) = [] → closure_fails (_backward (obj σ u)) σ = None.
Proof.
  intros Hwf Hleaf. destruct (Hwf u) as [_ Hc]. rewrite Hleaf in Hc.
  destruct (_backward (obj σ u)); simpl in *; try done;
    destruct Hc as (_ & Hin); by apply elem_of_nil in Hin.
Qed.

(** No closure in the sum of a neuron fails: they are those of [+] and
    [*], and those of leaves. *)
Lemma summed_quiet σ acc items act :
  heap_wf σ → summed σ acc items act →
  (∀ u, reachable σ acc u → closure_fails (_backward (obj σ u)) σ = None) →
  Forall (λ p, _prev (obj σ p.1) = []) items →
  ∀ u, reachable σ act u → closure_fails (_backward (obj σ u)) σ = None.
Proof.
  intros Hwf. revert acc. induction items as [|[wi xi] items IH]; intros acc Hsum Hacc Hitems.
  { simpl in Hsum. by subst act. }
  destruct Hsum as (xl & pr & ac & _ & _ & Hxl & Hpr & Hac & Hsum).
  apply Forall_cons in Hitems as [Hwi Hitems]. simpl in Hwi.
  apply (IH ac Hsum); [|done].
  intros u [->|(c & Hc & Hcu)]%reachable_cases; [by rewrite Hac|].
  rewrite Hac in Hc. cbn [_prev] in Hc. apply (proj1 (py_set_elem [acc; pr] c)) in Hc.
  apply elem_of_cons in Hc as [->| ->%list_elem_of_singleton]; [by apply Hacc|].
  apply reachable_cases in Hcu as [->|(c & Hc & Hcu)]; [by rewrite Hpr|].
  rewrite Hpr in Hc. cbn [_prev] in Hc. apply (proj1 (py_set_elem [wi; xl] c)) in Hc.
  apply elem_of_cons in Hc as [->| ->%list_elem_of_singleton].
  - apply reachable_leaf in Hcu as ->; [|done]. by apply leaf_closure_quiet.
  - apply reachable_leaf in Hcu as ->; [|by rewrite Hxl]. by rewrite Hxl.
Qed.

(** Down the sum of a neuron, in a graph without shared nodes: the
    running sums and the products all end with the gradient of the last
    sum, and every weight with that gradient times its input. *)
Lemma summed_gradients σ out (topo : list id) acc items act (g : R) :
  heap_wf σ → topo_of σ out = Some topo → NoDup topo →
  (backward out σ).1 = Ok () →
  reachable σ out act →
  grad (obj (backward out σ).2 act) = g →
  summed σ acc items act →
  grad (obj σ acc) = 0%R → Forall (λ p, grad (obj σ p.1) = 0%R) items →
  reachable σ out acc ∧ grad (obj (backward out σ).2 acc) = g ∧
  Forall (λ p, grad (obj (backward out σ).2 p.1) = (p.2 * g)%R) items.
Proof.
  intros Hwf Htopo Hnd Hok Hact Hg. revert acc.
  induction items as [|[wi xi] items IH]; intros acc Hsum Hacc Hitems.
  { simpl in Hsum. subst act. by split_and!. }
  destruct Hsum as (xl & pr & ac & Hwx & Hap & Hxl & Hpr & Hac & Hsum).
  apply Forall_cons in Hitems as [Hwi Hitems]. simpl in Hwi.
  destruct (IH ac Hsum) as (Hrac & Hgac & Hrest); [by rewrite Hac|done|].
  pose proof (skeleton_backward out σ) as Hskel.
  assert (∀ i, data (obj (backward out σ).2 i) = data (obj σ i)) as Hdata.
  { intros i. by destruct (same_skeleton_fields σ _ i Hskel) as (? & _). }
  assert (acc ∈ _prev (obj σ ac) ∧ pr ∈ _prev (obj σ ac)) as [Hacc_in Hpr_in].
  { rewrite Hac. cbn [_prev].
    split; [apply (proj2 (py_set_elem [acc; pr] acc))|apply (proj2 (py_set_elem [acc; pr] pr))];
      set_solver. }
  assert (wi ∈ _prev (obj σ pr)) as Hwi_in.
  { rewrite Hpr. cbn [_prev]. apply (proj2 (py_set_elem [wi; xl] wi)). set_solver. }
  assert (acc ≠ ac) as Hne.
  { destruct (Hwf ac) as [Hlt _]. rewrite Forall_forall in Hlt.
    specialize (Hlt acc Hacc_in). lia. }
  assert (reachable σ out pr) as Hrpr by (by apply (rtc_r _ ac)).
  assert (grad (obj (backward out σ).2 pr) = g) as Hgpr.
  { rewrite (unshared_gradient_rule σ out topo ac pr Hwf Htopo Hnd Hok Hrac Hpr_in).
    rewrite Hac, Hpr. simpl. rewrite !received_cons.
    rewrite decide_False, decide_True by done. simpl.
    rewrite obj_bump_ne by done. rewrite Hgac. lra. }
  split_and!.
  - by apply (rtc_r _ ac).
  - rewrite (unshared_gradient_rule σ out topo ac acc Hwf Htopo Hnd Hok Hrac Hacc_in).
    rewrite Hac, Hacc. simpl. rewrite !received_cons.
    rewrite decide_True, decide_False by done. simpl. rewrite Hgac. lra.
  - constructor; [|done]. simpl.
    rewrite (unshared_gradient_rule σ out topo pr wi Hwf Htopo Hnd Hok Hrpr Hwi_in).
    rewrite Hpr, Hwi. simpl. rewrite !received_cons.
    rewrite decide_True, decide_False by done. simpl.
    rewrite Hgpr, Hdata, Hxl. simpl. lra.
Qed.

Lemma zip_numbers {A} (ws : list A) (xs : list R) :
  zip ws (ONum <$> xs) = (λ p, (p.1, ONum p.2)) <$> zip ws xs.
Proof.
  revert xs. induction ws as [|wi ws IH]; intros [|xi xs]; simpl; [done..|].
  by rewrite IH.
Qed.

Lemma zip_fst_elem {A B} (ws : list A) (xs : list B) a :
  a ∈ (zip ws xs).*1 → a ∈ ws.
Proof.
  revert xs. induction ws as [|wi ws IH]; intros [|xi xs]; simpl;
    try (by intros ?%elem_of_nil).
  intros [->|Hin]%elem_of_cons; [by left|right]. by apply (IH xs).
Qed.

Lemma NoDup_zip_fst {A B} (ws : list A) (xs : list B) :
  NoDup ws → NoDup (zip ws xs).*1.
Proof.
  intros Hnd. revert xs. induction Hnd as [|wi ws Hnotin Hnd IH]; intros [|xi xs]; simpl;
    try constructor; [|done].
  intros Hin. by apply Hnotin, (zip_fst_elem ws xs).
Qed.

Lemma weighted_sum_shift (a : R) (l : list (R * R)) :
  foldl (λ acc '(wi, xi), acc + wi * xi)%R a l =
  (a + foldl (λ acc '(wi, xi), acc + wi * xi)%R 0%R l)%R.
Proof.
  revert a. induction l as [|[wi xi] l IH]; intros a; simpl; [lra|].
  rewrite (IH (a + wi * xi)%R), (IH (0 + wi * xi)%R). lra.
Qed.

Lemma weighted_sum_insert (a z wi xi : R) (ws xs : list R) (i : nat) :
  ws !! i = Some wi → xs !! i = Some xi →
  foldl (λ acc '(w, x), acc + w * x)%R a (zip (<[i := z]> ws) xs) =
  (xi * z + (foldl (λ acc '(w, x), acc + w * x)%R a (zip ws xs) - wi * xi))%R.
Proof.
  revert a i xs. induction ws as [|w0 ws IH]; intros a i [|x0 xs] Hw Hx; try done.
  destruct i as [|i]; simpl in *.
  - injection Hw as ->. injection Hx as ->.
    rewrite (weighted_sum_shift (a + z * xi)), (weighted_sum_shift (a + wi * xi)). lra.
  - by apply IH.
Qed.

Lemma weighted_sum_data σ (ws : list id) (xs : list R) (a : R) :
  foldl (λ acc '(wi, xi), acc + data (obj σ wi) * xi)%R a (zip ws xs) =
  foldl (λ acc '(w, x), acc + w * x)%R a (zip ((λ wi, data (obj σ wi)) <$> ws) xs).
Proof.
  revert xs a. induction ws as [|wi ws IH]; intros [|xi xs] a; simpl; [done..|].
  apply IH.
Qed.

Lemma derivable_pt_lim_tanh_affine (c d z : R) :
  derivable_pt_lim (λ y, @tanh_formula R RArith (c * y + d)%R) z
    ((1 - @tanh_formula R RArith (c * z + d) * @tanh_formula R RArith (c * z + d)) * c)%R.
Proof.
  exact (derivable_pt_lim_comp (λ y, c * y + d)%R (@tanh_formula R RArith) z c _
           (derivable_pt_lim_linear c d z)
           (derivable_pt_lim_tanh_formula (c * z + d)%R)).
Qed.

(** A neuron whose parameters are different leaves with gradient [0],
    called on numbers, and [backward] from its output: the output holds
    [tanh] of the bias plus the weighted inputs, and afterwards the bias
    and every weight that met an input hold the partial derivative of
    the output in that parameter.  (The graph has no shared node: every
    number is wrapped in a leaf of its own.) *)
Theorem neuron_gradients_are_the_partial_derivatives σ (self : Neuron) (x : list R) :
  heap_wf σ → sets_wf σ → Neuron_live σ self → NoDup (parameters self) →
  (∀ p, p ∈ parameters self → _prev (obj σ p) = [] ∧ grad (obj σ p) = 0%R) →
  let ws := (λ wi, data (obj σ wi)) <$> w self in
  let bias := data (obj σ (b self)) in
  ∃ out σ1,
    Neuron_call self (ONum <$> x) σ = (Ok out, σ1) ∧
    data (obj σ1 out) = neuron_output ws bias x ∧
    derivable_pt_lim (λ z, neuron_output ws z x) bias
                     (grad (obj (backward out σ1).2 (b self))) ∧
    ∀ i wi xi, w self !! i = Some wi → x !! i = Some xi →
      derivable_pt_lim (λ z, neuron_output (<[i := z]> ws) bias x) (data (obj σ wi))
                       (grad (obj (backward out σ1).2 wi)).
Proof.
  intros Hwf Hs [Hw Hb] Hnd Hparams ws bias.
  unfold parameters, Neuron_parameters in Hnd, Hparams.
  apply NoDup_app in Hnd as (Hndw & Hbw & _).
  assert (b self ∉ w self) as Hbnotin.
  { intros Hin. apply (Hbw _ Hin). by left. }
  set (items := zip (w self) x).
  destruct (Hparams (b self)) as [Hbleaf Hbgrad]; [set_solver|].
  destruct (neuron_sum_unshared σ (b self) items)
    as (act & σ' & Hrun & Hpre & Hwf' & Hs' & Hact & Hun' & Hsum);
    [done|done|done|by apply unshared_leaf|by apply NoDup_zip_fst| |].
  { apply Forall_forall. intros [wi xi] Hin.
    assert (wi ∈ w self) as Hwi.
    { apply (zip_fst_elem (w self) x). apply list_elem_of_fmap. by exists (wi, xi). }
    rewrite Forall_forall in Hw. destruct (Hparams wi) as [Hleaf _]; [set_solver|].
    simpl. split_and!; [by apply Hw|done|].
    intros ->%(reachable_leaf σ (b self)); done. }
  set (t := @tanh_formula R RArith (data (obj σ' act))).
  set (tv := mkValue t 0%R (TanhBw act t (length σ')) (py_set [act]) Op_tanh "").
  set (σ1 := σ' ++ [tv]).
  assert (Neuron_call self (ONum <$> x) σ = (Ok (length σ'), σ1)) as Hcall.
  { unfold Neuron_call, mbind, M_bind. unfold Neuron_act. rewrite zip_numbers. fold items.
    rewrite Hrun. by rewrite tanh_run, R_tanh_raises. }
  exists (length σ'), σ1. split; [exact Hcall|].
  assert (σ' `prefix_of` σ1) as Hpre1 by (by apply prefix_app_r).
  assert (σ `prefix_of` σ1) as Hpre01 by (by etrans).
  assert (length σ ≤ length σ') as Hlen by (by apply prefix_length).
  assert (heap_wf σ1) as Hwf1.
  { pose proof (heap_wf_tanh σ' act Hwf' Hact) as Hwft.
    by rewrite tanh_run, R_tanh_raises in Hwft. }
  assert (sets_wf σ1) as Hs1.
  { apply sets_wf_snoc; [done|apply py_set_NoDup]. }
  assert (obj σ1 (length σ') = tv) as Hout by apply obj_snoc.
  assert (length σ' < length σ1) as Hroot.
  { unfold σ1. rewrite length_app. simpl. lia. }
  assert (act ∈ _prev (obj σ1 (length σ'))) as Hact_in.
  { rewrite Hout. cbn [_prev]. apply (proj2 (py_set_elem [act] act)). set_solver. }
  assert (unshared σ1 (length σ')) as Hun1.
  { apply unshared_node; [done|..].
    - intros c Hc. rewrite Hout in Hc. cbn [_prev] in Hc.
      apply (proj1 (py_set_elem [act] c)) in Hc. apply list_elem_of_singleton in Hc as ->.
      by apply (unshared_prefix σ').
    - intros c c' u Hc Hc' _ _. rewrite Hout in Hc, Hc'. cbn [_prev] in Hc, Hc'.
      apply (proj1 (py_set_elem [act] c)) in Hc.
      apply (proj1 (py_set_elem [act] c')) in Hc'.
      apply list_elem_of_singleton in Hc as ->. by apply list_elem_of_singleton in Hc' as ->. }
  destruct (topo_of_total σ1 (length σ') Hwf1 Hroot) as [topo Htopo].
  pose proof (unshared_topo_NoDup σ1 _ topo Hwf1 Hs1 Htopo Hun1) as Hndt.
  assert (∀ i, i < length σ → obj σ1 i = obj σ i) as Hold.
  { intros i Hi. by apply obj_prefix. }
  pose proof (Hsum σ1 Hpre1) as Hsum1.
  assert (grad (obj σ1 (b self)) = 0%R) as Hbgrad1 by (by rewrite Hold).
  assert (grad (obj (backward (length σ') σ1).2 (length σ')) = 1%R) as Hgout.
  { exact (backward_seed σ1 (length σ') Hwf1 Hroot). }
  assert (Forall (λ p, _prev (obj σ1 p.1) = []) items) as Hleaves.
  { apply Forall_forall. intros [wi xi] Hin.
    assert (wi ∈ w self) as Hwi.
    { apply (zip_fst_elem (w self) x). apply list_elem_of_fmap. by exists (wi, xi). }
    rewrite Forall_forall in Hw. destruct (Hparams wi) as [Hleaf _]; [set_solver|].
    simpl. by rewrite Hold by (by apply Hw). }
  assert ((backward (length σ') σ1).1 = Ok ()) as Hok.
  { apply (backward_returns_iff_quiet σ1 _ topo Htopo).
    intros u [->|(c & Hc & Hcu)]%reachable_cases.
    { rewrite Hout. unfold tv. cbn [_backward closure_fails]. apply Rpow_fails_2. }
    rewrite Hout in Hc. cbn [_prev] in Hc. apply (proj1 (py_set_elem [act] c)) in Hc.
    apply list_elem_of_singleton in Hc as ->.
    apply (summed_quiet σ1 (b self) items act Hwf1 Hsum1); [|done|done].
    intros v Hv. apply reachable_leaf in Hv as ->; [|by rewrite Hold].
    apply leaf_closure_quiet; [done|by rewrite Hold]. }
  assert (grad (obj (backward (length σ') σ1).2 act) = (1 - t * t)%R) as Hgact.
  { rewrite (unshared_gradient_rule σ1 _ topo (length σ') act Hwf1 Htopo Hndt Hok
               (rtc_refl _ _) Hact_in).
    rewrite (summed_zero_grad σ1 (b self) items act Hsum1 Hbgrad1).
    rewrite Hout. unfold tv. cbn [_backward increments].
    rewrite received_cons, decide_True by done.
    simpl. rewrite Hgout, Rpy_pow_2. lra. }
  destruct (summed_gradients σ1 (length σ') topo (b self) items act (1 - t * t)%R)
    as (_ & Hgb & Hgw); [done|done|done|done|by apply rtc_once|done|done|done| |].
  { apply Forall_forall. intros [wi xi] Hin.
    assert (wi ∈ w self) as Hwi.
    { apply (zip_fst_elem (w self) x). apply list_elem_of_fmap. by exists (wi, xi). }
    rewrite Forall_forall in Hw. destruct (Hparams wi) as [_ Hg0]; [set_solver|].
    simpl. by rewrite Hold by (by apply Hw). }
  assert (data (obj σ' act) =
          foldl (λ acc '(w, x), acc + w * x)%R bias (zip ws x)) as Hdata.
  { rewrite <- (obj_prefix σ' σ1 act) by done. rewrite (summed_data σ1 (b self) items act Hsum1).
    rewrite (Hold (b self)) by done. fold bias. unfold items, ws.
    rewrite <- weighted_sum_data. clear -Hw Hold.
    generalize bias. revert x. induction Hw as [|wi wl Hwi Hwl IH]; intros [|xi x] a; simpl;
      [done..|]. rewrite (Hold wi) by done. apply IH. }
  split_and!.
  - rewrite Hout. unfold tv, t, neuron_output. cbn [data]. by rewrite Hdata.
  - rewrite Hgb.
    apply (derivable_pt_lim_eq
             (λ z, @tanh_formula R RArith
                     (1 * z + foldl (λ acc '(w, x), acc + w * x)%R 0%R (zip ws x))%R)
             _ bias
             ((1 - @tanh_formula R RArith
                     (1 * bias + foldl (λ acc '(w, x), acc + w * x)%R 0%R (zip ws x))
                   * @tanh_formula R RArith
                       (1 * bias + foldl (λ acc '(w, x), acc + w * x)%R 0%R (zip ws x)))
              * 1)%R).
    + intros z. unfold neuron_output. rewrite (weighted_sum_shift z). f_equal. simpl. lra.
    + unfold t. rewrite Hdata, (weighted_sum_shift bias).
      replace (1 * bias)%R with bias by lra. lra.
    + apply derivable_pt_lim_tanh_affine.
  - intros i wi xi Hwi Hxi.
    assert (items !! i = Some (wi, xi)) as Hitem.
    { unfold items. apply lookup_zip_with_Some. by exists wi, xi. }
    rewrite Forall_forall in Hgw.
    pose proof (Hgw (wi, xi) (list_elem_of_lookup_2 _ _ _ Hitem)) as Hgwi.
    simpl in Hgwi. rewrite Hgwi.
    assert (ws !! i = Some (data (obj σ wi))) as Hwsi.
    { unfold ws. by rewrite list_lookup_fmap, Hwi. }
    set (A := foldl (λ acc '(w, x), acc + w * x)%R bias (zip ws x)) in *.
    apply (derivable_pt_lim_eq
             (λ z, @tanh_formula R RArith (xi * z + (A - data (obj σ wi) * xi))%R)
             _ (data (obj σ wi))
             ((1 - @tanh_formula R RArith (xi * data (obj σ wi) + (A - data (obj σ wi) * xi))
                   * @tanh_formula R RArith
                       (xi * data (obj σ wi) + (A - data (obj σ wi) * xi)))
              * xi)%R).
    + intros z. unfold neuron_output. f_equal. symmetry.
      exact (weighted_sum_insert bias z (data (obj σ wi)) xi ws x i Hwsi Hxi).
    + unfold t. rewrite Hdata.
      replace (xi * data (obj σ wi) + (A - data (obj σ wi) * xi))%R with A by lra. lra.
    + apply derivable_pt_lim_tanh_affine.
Qed.

End NeuronGradients.

(** ** Expressions that use no value twice *)

Section Separate.
Context {num : Type} `{Arith num} `{SetOrder}.
Local Open Scope num_scope.
Implicit Types (σ : Heap num) (u v root : id).

(** A new node over operands that are roots of graphs without shared
    nodes, no two of which have a node in common. *)
Lemma unshared_snoc σ (nd : Value num) :
  heap_wf (σ ++ [nd]) → heap_wf σ →
  (∀ c, c ∈ _prev nd → unshared σ c) →
  (∀ c c' u, c ∈ _prev nd → c' ∈ _prev nd →
             reachable σ c u → reachable σ c' u → c = c') →
  unshared (σ ++ [nd]) (length σ).
Proof.
  intros Hwf' Hwf Hsub Hdisj.
  assert (σ `prefix_of` σ ++ [nd]) as Hpre by (by apply prefix_app_r).
  assert (∀ c, c ∈ _prev nd → c < length σ) as Hlive.
  { intros c Hc. destruct (Hwf' (length σ)) as [Hlt _].
    rewrite obj_snoc, Forall_forall in Hlt. by apply Hlt. }
  apply unshared_node; [done|..]; rewrite obj_snoc.
  - intros c Hc. apply (unshared_prefix σ); [done|done|by apply Hlive|by apply Hsub].
  - intros c c' u Hc Hc' Hcu Hcu'.
    apply (reachable_prefix σ _ c u Hwf Hpre (Hlive c Hc)) in Hcu.
    apply (reachable_prefix σ _ c' u Hwf Hpre (Hlive c' Hc')) in Hcu'.
    by apply (Hdisj c c' u).
Qed.

Lemma unshared_unary σ (nd : Value num) (a : id) :
  heap_wf (σ ++ [nd]) → heap_wf σ → _prev nd = py_set [a] → unshared σ a →
  unshared (σ ++ [nd]) (length σ).
Proof.
  intros Hwf' Hwf Hprev Ha. apply unshared_snoc; [done|done|..]; rewrite Hprev.
  - intros c Hc%(proj1 (py_set_elem [a] c)). by apply list_elem_of_singleton in Hc as ->.
  - intros c c' u Hc%(proj1 (py_set_elem [a] c)) Hc'%(proj1 (py_set_elem [a] c')) _ _.
    apply list_elem_of_singleton in Hc as ->. by apply list_elem_of_singleton in Hc' as ->.
Qed.

Lemma unshared_binary σ (nd : Value num) (a o : id) :
  heap_wf (σ ++ [nd]) → heap_wf σ → _prev nd = py_set [a; o] →
  unshared σ a → unshared σ o →
  (∀ u, reachable σ a u → reachable σ o u → False) →
  unshared (σ ++ [nd]) (length σ).
Proof.
  intros Hwf' Hwf Hprev Ha Ho Hsep. apply unshared_snoc; [done|done|..]; rewrite Hprev.
  - intros c Hc%(proj1 (py_set_elem [a; o] c)).
    by apply elem_of_cons in Hc as [->| ->%list_elem_of_singleton].
  - intros c c' u Hc%(proj1 (py_set_elem [a; o] c)) Hc'%(proj1 (py_set_elem [a; o] c')) Hu Hu'.
    apply elem_of_cons in Hc as [->| ->%list_elem_of_singleton];
      apply elem_of_cons in Hc' as [->| ->%list_elem_of_singleton];
      [done|by destruct (Hsep u)|by destruct (Hsep u)|done].
Qed.

(** The operands of [+] and [*] on a node and a number: the node, and a
    fresh leaf that shares nothing with it. *)
Lemma number_operand_separate σ self (k : num) :
  heap_wf σ → self < length σ → unshared σ self →
  let σ1 := σ ++ [leaf k] in
  heap_wf σ1 ∧ unshared σ1 self ∧ unshared σ1 (length σ) ∧
  ∀ u, reachable σ1 self u → reachable σ1 (length σ) u → False.
Proof.
  intros Hwf Hself Hun σ1.
  assert (heap_wf σ1) as Hwf1 by (by apply heap_wf_leaf).
  assert (σ `prefix_of` σ1) as Hpre by (by apply prefix_app_r).
  assert (_prev (obj σ1 (length σ)) = []) as Hleaf by (unfold σ1; by rewrite obj_snoc).
  split_and!; [done|by apply (unshared_prefix σ)|by apply unshared_leaf|].
  intros u Hu Hu'. apply (reachable_leaf σ1) in Hu'; [|done]. subst u.
  apply (reachable_le σ1 self) in Hu; [lia|done].
Qed.

(** When an operation raises, nothing is allocated: the next identity is
    still free, and a free identity has no operands. *)
Lemma unshared_unbuilt σ : unshared σ (length σ).
Proof. apply unshared_leaf. unfold obj. by rewrite lookup_ge_None_2. Qed.

(** An operation applied to roots of graphs without shared nodes gives a
    graph without shared nodes: always for [**], [exp], [tanh] and for
    [+] and [*] with a number, and for [+] and [*] on two nodes when the
    two graphs have no node in common.  So an expression that uses no
    value twice has no shared node. *)
Theorem separate_operands_give_an_unshared_graph σ self :
  heap_wf σ → self < length σ → unshared σ self →
  (∀ other, other < length σ → unshared σ other →
     (∀ u, reachable σ self u → reachable σ other u → False) →
     unshared (__add__ self (ONode other) σ).2 (length σ) ∧
     unshared (__mul__ self (ONode other) σ).2 (length σ)) ∧
  (∀ k : num,
     unshared (__add__ self (ONum k) σ).2 (S (length σ)) ∧
     unshared (__mul__ self (ONum k) σ).2 (S (length σ))) ∧
  (∀ p : num, unshared (__pow__ self (PyNum p) σ).2 (length σ)) ∧
  unshared (exp self σ).2 (length σ) ∧
  unshared (tanh self σ).2 (length σ).
Proof.
  intros Hwf Hself Hun. split_and!.
  - intros other Hother Huno Hsep. split.
    + pose proof (heap_wf_add σ self (ONode other) Hwf Hself Hother) as Hwf'.
      rewrite add_run in Hwf' |- *. by apply (unshared_binary σ _ self other).
    + pose proof (heap_wf_mul σ self (ONode other) Hwf Hself Hother) as Hwf'.
      rewrite mul_run in Hwf' |- *. by apply (unshared_binary σ _ self other).
  - intros k. destruct (number_operand_separate σ self k Hwf Hself Hun)
      as (Hwf1 & Hun1 & Hunk & Hsep).
    assert (length (σ ++ [leaf k]) = S (length σ)) as Hlen
      by (rewrite length_app; simpl; lia).
    split.
    + pose proof (heap_wf_add σ self (ONum k) Hwf Hself I) as Hwf'.
      rewrite add_run in Hwf' |- *. cbn [coerced coerced_heap snd] in *.
      rewrite <- Hlen. by apply (unshared_binary _ _ self (length σ)).
    + pose proof (heap_wf_mul σ self (ONum k) Hwf Hself I) as Hwf'.
      rewrite mul_run in Hwf' |- *. cbn [coerced coerced_heap snd] in *.
      rewrite <- Hlen. by apply (unshared_binary _ _ self (length σ)).
  - intros p. pose proof (heap_wf_pow σ self p Hwf Hself) as Hwf'.
    rewrite pow_run in Hwf' |- *.
    destruct (pow_fails _ _); [by apply unshared_unbuilt|].
    by apply (unshared_unary σ _ self).
  - pose proof (heap_wf_exp σ self Hwf Hself) as Hwf'.
    rewrite exp_run in Hwf' |- *.
    destruct (exp_raises _); [by apply unshared_unbuilt|].
    by apply (unshared_unary σ _ self).
  - pose proof (heap_wf_tanh σ self Hwf Hself) as Hwf'.
    rewrite tanh_run in Hwf' |- *.
    destruct (tanh_raises _); [by apply unshared_unbuilt|].
    by apply (unshared_unary σ _ self).
Qed.

End Separate.

(** ** The further theorems, applied *)

Section FanOut.
Context {num : Type} `{Arith num} `{SetOrder}.

Lemma fanout_topo_run : topo_of (fanout_forward []).2 1 = Some [0; 1].
Proof. rewrite fanout_forward_run. vm_compute. reflexivity. Qed.

Lemma fanout_heap_sets_wf : sets_wf (fanout_forward []).2.
Proof.
  rewrite fanout_forward_run. intros i.
  destruct i as [|[|i]]; simpl; repeat constructor; set_solver.
Qed.

Lemma one_leaf_wf (x : num) : heap_wf [leaf x] ∧ sets_wf [leaf x].
Proof.
  split.
  - apply (heap_wf_leaf [] x), heap_wf_nil.
  - apply (sets_wf_snoc [] (leaf x)); [apply sets_wf_nil|constructor].
Qed.

End FanOut.


Lemma topo_sets_applied_to_fan_out :
  let σ : Heap R := (@fanout_forward R RArith insertion_order []).2 in
  heap_wf σ ∧ 1 < length σ ∧
  ∃ topo expanded,
    topo_of σ 1 = Some topo ∧ topo ≡ₚ 1 :: (expanded ≫= λ u, _prev (obj σ u)).
Proof.
  cbv zeta.
  assert (1 < length (@fanout_forward R RArith insertion_order []).2) as Hlen
    by (rewrite fanout_forward_run; simpl; lia).
  split; [apply fanout_heap_wf|]. split; [exact Hlen|].
  destruct (topo_is_root_and_operand_sets (@fanout_forward R RArith insertion_order []).2 1
              (fanout_heap_wf (H0:=insertion_order)) Hlen)
    as (topo & expanded & Htopo & _ & _ & Hperm).
  by exists topo, expanded.
Defined.

Lemma topo_order_applied_to_fan_out :
  let σ : Heap R := (@fanout_forward R RArith insertion_order []).2 in
  heap_wf σ ∧ topo_of σ 1 = Some [0; 1] ∧
  ∃ before, [0; 1] = before ++ [1] ∧ 1 ∉ before.
Proof.
  cbv zeta. split; [apply fanout_heap_wf|]. split; [apply fanout_topo_run|].
  exact (proj1 (topo_operands_come_first (@fanout_forward R RArith insertion_order []).2 1 [0; 1]
                  (fanout_heap_wf (H0:=insertion_order))
                  (fanout_topo_run (H0:=insertion_order)))).
Defined.

Lemma nesting_applied_to_one_leaf :
  length [leaf 0%R] < 2 ∧
  is_Some (build_topo [leaf 0%R] 2 0 (∅, [])).
Proof.
  assert (length [leaf 0%R] < 2) as Hlen by (simpl; lia).
  split; [exact Hlen|].
  exact (build_topo_nesting_is_bounded [leaf 0%R] 0 2 Hlen).
Defined.

Lemma unreachable_applied_to_two_leaves :
  let σ : Heap R := [leaf 0%R; leaf 1%R] in
  heap_wf σ ∧ (reachable σ 0 1 → False) ∧
  obj (backward 0 σ).2 1 = obj σ 1.
Proof.
  cbv zeta.
  assert (heap_wf ([leaf 0%R; leaf 1%R] : Heap R)) as Hwf.
  { apply (heap_wf_leaf [leaf 0%R] 1%R), (heap_wf_leaf [] 0%R), heap_wf_nil. }
  assert (¬ reachable ([leaf 0%R; leaf 1%R] : Heap R) 0 1) as Hun.
  { intros Hr. apply (reachable_le _ 0 1 Hwf) in Hr. lia. }
  split; [exact Hwf|]. split; [exact Hun|].
  exact (backward_leaves_unreachable_objects _ 0 1 Hwf Hun).
Defined.


Lemma repeats_applied_to_fan_out :
  let σ : Heap R := (@fanout_forward R RArith insertion_order []).2 in
  heap_wf σ ∧ sets_wf σ ∧ topo_of σ 1 = Some [0; 1] ∧
  (NoDup [0; 1] ↔
   ∀ u p q, reachable σ 1 p → reachable σ 1 q →
            u ∈ _prev (obj σ p) → u ∈ _prev (obj σ q) → p = q).
Proof.
  cbv zeta. split; [apply fanout_heap_wf|]. split; [apply fanout_heap_sets_wf|].
  split; [apply fanout_topo_run|].
  exact (topo_repeats_exactly_the_shared_nodes (@fanout_forward R RArith insertion_order []).2 1 [0; 1]
           (fanout_heap_wf (H0:=insertion_order))
           (fanout_heap_sets_wf (H0:=insertion_order))
           (fanout_topo_run (H0:=insertion_order))).
Defined.

Lemma backward_applied_to_one_leaf :
  let σ : Heap R := [leaf 0%R] in
  heap_wf σ ∧ _prev (obj σ 0) = [] ∧
  backward 0 σ = (Ok (), set_grad 0 1%R σ).
Proof.
  cbv zeta. destruct (one_leaf_wf 0%R) as [Hwf _].
  split; [exact Hwf|]. split; [reflexivity|].
  exact (backward_of_a_node_without_operands [leaf 0%R] 0 Hwf eq_refl).
Defined.

Lemma truediv_applied_to_six_by_three :
  (3 ≠ 0)%R ∧
  ∃ da db,
    (binary_script (H0:=insertion_order) (__truediv__ (H0:=insertion_order)) 6%R 3%R []).1
      = Ok ((6 / 3)%R, da, db) ∧
    derivable_pt_lim (λ a, a / 3)%R 6 da ∧ derivable_pt_lim (λ b, 6 / b)%R 3 db.
Proof.
  assert (3 ≠ 0)%R as Hne by lra.
  split; [exact Hne|].
  exact (proj1 (truediv_passes_the_derivatives insertion_order 6 3 Hne)).
Defined.

Lemma pow_applied_to_a_cube :
  (3 = IZR (Int_part 3) ∧ (1 <= 3 ∨ 2 ≠ 0))%R ∧
  ∃ da,
    (unary_script (H0:=insertion_order) (λ x, __pow__ (H0:=insertion_order) x (PyNum 3%R))
                  2%R []).1
      = Ok (Rpy_pow 2 3, da) ∧
    derivable_pt_lim (λ a, Rpy_pow a 3) 2 da.
Proof.
  assert (3 = IZR (Int_part 3) ∧ (1 <= 3 ∨ 2 ≠ 0))%R as Hp.
  { split; [by rewrite Int_part_IZR|left; lra]. }
  split; [exact Hp|].
  exact (pow_passes_the_derivative insertion_order 2 3 (or_introl Hp)).
Defined.

Lemma two_leaves_wf (x y : R) :
  heap_wf ([leaf x; leaf y] : Heap R) ∧ sets_wf ([leaf x; leaf y] : Heap R).
Proof.
  split.
  - apply (heap_wf_leaf [leaf x] y), (heap_wf_leaf [] x), heap_wf_nil.
  - apply (sets_wf_snoc [leaf x] (leaf y)); [|constructor].
    apply (sets_wf_snoc [] (leaf x)); [apply sets_wf_nil|constructor].
Qed.

Lemma one_weight_MLP_live :
  MLP_live ([leaf 2%R; leaf 3%R] : Heap R) (mkMLP [mkLayer [mkNeuron [0] 1]]) ∧
  Forall (operand_live ([leaf 2%R; leaf 3%R] : Heap R)) [ONum 5%R].
Proof.
  split; [|by repeat constructor].
  repeat constructor; simpl; lia.
Qed.

Lemma MLP_call_applied_to_one_weight :
  let σ : Heap R := [leaf 2%R; leaf 3%R] in
  let self := mkMLP [mkLayer [mkNeuron [0] 1]] in
  heap_wf σ ∧ sets_wf σ ∧ MLP_live σ self ∧ Forall (operand_live σ) [ONum 5%R] ∧
  ∃ r σ',
    MLP_call (H0:=insertion_order) self [ONum 5%R] σ = (r, σ') ∧ heap_wf σ' ∧
    ∃ o, r = Ok o.
Proof.
  cbv zeta. destruct (two_leaves_wf 2%R 3%R) as [Hwf Hs].
  destruct one_weight_MLP_live as [Hlive Hx].
  split; [exact Hwf|]. split; [exact Hs|]. split; [exact Hlive|]. split; [exact Hx|].
  destruct (MLP_call_outcome (H0:=insertion_order) [leaf 2%R; leaf 3%R]
              (mkMLP [mkLayer [mkNeuron [0] 1]]) [ONum 5%R] Hwf Hs Hlive Hx)
    as (r & σ' & Hrun & _ & Hwf' & _ & Hret & _).
  exists r, σ'. split; [exact Hrun|]. split; [exact Hwf'|].
  exact (Hret R_tanh_raises).
Defined.

Lemma MLP_value_applied_to_one_weight :
  let σ : Heap R := [leaf 2%R; leaf 3%R] in
  let self := mkMLP [mkLayer [mkNeuron [0] 1]] in
  heap_wf σ ∧ sets_wf σ ∧ MLP_live σ self ∧ Forall (operand_live σ) [ONum 5%R] ∧
  ∃ r σ',
    MLP_call (H0:=insertion_order) self [ONum 5%R] σ = (r, σ') ∧
    (∀ f, r = Fail f → ∃ n e, tanh_raises n = Some e ∧ f = Raises e) ∧
    ∀ a, r = Ok (Returns a) →
         activation_values σ' a = layers_value σ (layers self) [5%R].
Proof.
  cbv zeta. destruct (two_leaves_wf 2%R 3%R) as [Hwf Hs].
  destruct one_weight_MLP_live as [Hlive Hx].
  split; [exact Hwf|]. split; [exact Hs|]. split; [exact Hlive|]. split; [exact Hx|].
  exact (MLP_call_value (H0:=insertion_order) [leaf 2%R; leaf 3%R]
           (mkMLP [mkLayer [mkNeuron [0] 1]]) [ONum 5%R] Hwf Hs Hlive Hx).
Defined.

Lemma last_call_applied_to_fan_out :
  let σ : Heap R := (@fanout_forward R RArith insertion_order []).2 in
  heap_wf σ ∧ topo_of σ 1 = Some ([] ++ (0 :: [1])) ∧ (0 ∉ @nil id) ∧
  obj (backward 1 σ).2 0 =
  obj (run_backward (reverse [1]) (set_grad 1 1%R σ)).2 0.
Proof.
  cbv zeta.
  assert (0 ∉ @nil id) as Hnotin by apply not_elem_of_nil.
  split; [apply fanout_heap_wf|]. split; [apply fanout_topo_run|]. split; [exact Hnotin|].
  exact (last_call_sees_the_final_gradient (@fanout_forward R RArith insertion_order []).2 1 [] [1] 0
           (fanout_heap_wf (H0:=insertion_order))
           (fanout_topo_run (H0:=insertion_order)) Hnotin).
Defined.

Lemma inner_layer_applied_to_two_single_neurons :
  heap_wf ([] : Heap R) ∧ sets_wf ([] : Heap R) ∧
  Forall (operand_live ([] : Heap R)) [ONum 1%R] ∧
  ∃ (mlp : MLP) k' σ1 r σ2,
    MLP_new (H0:=insertion_order) (λ _, 0%R) 0 1 [1; 1] [] = (Ok (mlp, k'), σ1) ∧
    MLP_call (H0:=insertion_order) mlp [ONum 1%R] σ1 = (r, σ2) ∧
    (r = Ok TypeError ↔ ∃ i m, [1; 1] !! i = Some 1 ∧ [1; 1] !! S i = Some (S m)).
Proof.
  assert (Forall (operand_live ([] : Heap R)) [ONum 1%R]) as Hx by (by repeat constructor).
  split; [apply heap_wf_nil|]. split; [apply sets_wf_nil|]. split; [exact Hx|].
  destruct (MLP_with_an_inner_layer_of_one_neuron (H0:=insertion_order)
              (λ _, 0%R) 0 1 [1; 1] [] [ONum 1%R] heap_wf_nil sets_wf_nil Hx)
    as (mlp & k' & σ1 & r & σ2 & Hnew & Hcall & _ & _ & _ & Hiff).
  exists mlp, k', σ1, r, σ2. split; [exact Hnew|]. split; [exact Hcall|].
  exact (Hiff R_tanh_raises).
Defined.

Lemma unshared_applied_to_fan_out :
  let σ : Heap R := (@fanout_forward R RArith insertion_order []).2 in
  let σ' := (backward 1 σ).2 in
  heap_wf σ ∧ 1 < length σ ∧ topo_of σ 1 = Some [0; 1] ∧ NoDup [0; 1] ∧
  ((backward 1 σ).1 = Ok () ↔
   ∀ u, reachable σ 1 u → closure_fails (_backward (obj σ u)) σ = None) ∧
  grad (obj σ' 1) = 1%R ∧
  ((backward 1 σ).1 = Ok () →
   ∀ p v, reachable σ 1 p → v ∈ _prev (obj σ p) →
          grad (obj σ' v) =
          foldl nadd (grad (obj σ v))
                (received v (increments (_backward (obj σ p)) σ'))).
Proof.
  cbv zeta.
  assert (NoDup [0; 1]) as Hnd by (repeat constructor; set_solver).
  assert (1 < length (@fanout_forward R RArith insertion_order []).2) as Hlen
    by (rewrite fanout_forward_run; simpl; lia).
  split; [apply fanout_heap_wf|]. split; [exact Hlen|].
  split; [apply fanout_topo_run|]. split; [exact Hnd|].
  exact (unshared_gradients_follow_the_rules
           (@fanout_forward R RArith insertion_order []).2 1 [0; 1]
           (fanout_heap_wf (H0:=insertion_order)) Hlen
           (fanout_topo_run (H0:=insertion_order)) Hnd).
Defined.

Lemma separate_applied_to_one_leaf :
  let σ : Heap R := [leaf 0%R] in
  heap_wf σ ∧ 0 < length σ ∧ unshared σ 0 ∧
  unshared (tanh (H0:=insertion_order) 0 σ).2 (length σ).
Proof.
  cbv zeta. destruct (one_leaf_wf 0%R) as [Hwf _].
  assert (0 < length ([leaf 0%R] : Heap R)) as Hlen by (simpl; lia).
  assert (unshared ([leaf 0%R] : Heap R) 0) as Hun by (by apply unshared_leaf).
  split; [exact Hwf|]. split; [exact Hlen|]. split; [exact Hun|].
  exact (proj2 (proj2 (proj2 (proj2
           (separate_operands_give_an_unshared_graph (H0:=insertion_order)
              [leaf 0%R] 0 Hwf Hlen Hun))))).
Defined.

Lemma neuron_gradients_applied_to_one_weight :
  let σ : Heap R := [leaf 2%R; leaf 3%R] in
  let self := mkNeuron [0] 1 in
  heap_wf σ ∧ sets_wf σ ∧ Neuron_live σ self ∧ NoDup (parameters self) ∧
  (∀ p, p ∈ parameters self → _prev (obj σ p) = [] ∧ grad (obj σ p) = 0%R) ∧
  ∃ out σ1,
    Neuron_call (H0:=insertion_order) self [ONum 5%R] σ = (Ok out, σ1) ∧
    data (obj σ1 out) = neuron_output [2%R] 3%R [5%R] ∧
    derivable_pt_lim (λ z, neuron_output [2%R] z [5%R]) 3
                     (grad (obj (backward out σ1).2 1)) ∧
    derivable_pt_lim (λ z, neuron_output [z] 3%R [5%R]) 2
                     (grad (obj (backward out σ1).2 0)).
Proof.
  cbv zeta. destruct (two_leaves_wf 2%R 3%R) as [Hwf Hs].
  assert (Neuron_live ([leaf 2%R; leaf 3%R] : Heap R) (mkNeuron [0] 1)) as Hlive.
  { split; [repeat constructor|simpl; lia]. }
  assert (NoDup (parameters (mkNeuron [0] 1))) as Hnd.
  { unfold parameters, Neuron_parameters. simpl. repeat constructor; set_solver. }
  assert (∀ p, p ∈ parameters (mkNeuron [0] 1) →
               _prev (obj ([leaf 2%R; leaf 3%R] : Heap R) p) = [] ∧
               grad (obj ([leaf 2%R; leaf 3%R] : Heap R) p) = 0%R) as Hparams.
  { intros p Hp. by destruct p as [|[|p]]. }
  split; [exact Hwf|]. split; [exact Hs|]. split; [exact Hlive|]. split; [exact Hnd|].
  split; [exact Hparams|].
  destruct (neuron_gradients_are_the_partial_derivatives insertion_order
              [leaf 2%R; leaf 3%R] (mkNeuron [0] 1) [5%R] Hwf Hs Hlive Hnd Hparams)
    as (out & σ1 & Hcall & Hdata & Hb & Hw).
  exists out, σ1. split; [exact Hcall|]. split; [exact Hdata|]. split; [exact Hb|].
  exact (Hw 0 0 5%R eq_refl eq_refl).
Defined.
